(** * Arke MODS export worker: text utilities, crosswalk, collection writer
      and breadth-first recursive export

    A shallow embedding of the TypeScript sources
    ([text-utils], [crosswalk], [mods-exporter], [mods-collection-writer],
    [recursive-exporter]) together with the properties the specification
    states about them. *)

From stdpp Require Import gmap strings list pretty sorting.
From Stdlib Require Import ZArith Lia Ascii.

Open Scope Z_scope.

(** ** Promise outcomes

    [Promise.allSettled] reports each task as fulfilled with a value or
    rejected with a reason; a synchronous [throw] inside an [async] function
    is a rejection too.  Reasons are kept as the error message. *)

Inductive Settled (A : Type) : Type :=
| Fulfilled (value : A)
| Rejected (reason : string).
Arguments Fulfilled {A} value.
Arguments Rejected {A} reason.

Definition isFulfilled {A} (r : Settled A) : bool :=
  match r with Fulfilled _ => true | Rejected _ => false end.

(** ** [slice]

    [Array.prototype.slice] and [String.prototype.slice]: a negative index
    counts from the end, and both ends are clamped to the length. *)

Definition clampIndex (n : Z) (i : Z) : Z :=
  if i <? 0 then Z.max (n + i) 0 else Z.min i n.

Definition jsSlice {A} (l : list A) (from to : Z) : list A :=
  let n := Z.of_nat (length l) in
  let k := clampIndex n from in
  let e := clampIndex n to in
  take (Z.to_nat (e - k)) (drop (Z.to_nat k) l).

(** ** Text utilities ([truncateText])

    A JavaScript string is a sequence of UTF-16 code units; [length],
    indexing, [slice] and [trim] all count code units. *)

Module TextUtils.

Definition jsstring := list N.

Definition lit (s : string) : jsstring :=
  map Ascii.N_of_ascii (String.list_ascii_of_string s).

Definition len (t : jsstring) : Z := Z.of_nat (length t).

(** [text[i]]: [undefined] outside [0 .. length-1]. *)
Definition charAt (t : jsstring) (i : Z) : option N :=
  if (0 <=? i) && (i <? len t) then nth_error t (Z.to_nat i) else None.

(** [char === ' ' || char === '\n' || char === '\t'] *)
Definition isWordBoundary (c : option N) : bool :=
  match c with
  | Some u => (u =? 32)%N || (u =? 10)%N || (u =? 9)%N
  | None => false
  end.

(** The code units removed by [String.prototype.trim]: ECMAScript
    WhiteSpace and LineTerminator. *)
Definition isTrimmed (u : N) : bool :=
  ((9 <=? u) && (u <=? 13) || (u =? 32) || (u =? 160) || (u =? 5760)
   || (8192 <=? u) && (u <=? 8202) || (u =? 8232) || (u =? 8233)
   || (u =? 8239) || (u =? 8287) || (u =? 12288) || (u =? 65279))%N.

Fixpoint trimStart (t : jsstring) : jsstring :=
  match t with
  | u :: t' => if isTrimmed u then trimStart t' else t
  | [] => []
  end.

Definition trimEnd (t : jsstring) : jsstring := rev (trimStart (rev t)).

Definition trim (t : jsstring) : jsstring := trimEnd (trimStart t).

Definition slice (t : jsstring) (from to : Z) : jsstring := jsSlice t from to.

Record TruncateResult := mkTruncateResult {
  text : jsstring;
  truncated : bool
}.

(** ['\n\n[... truncated ...]'] *)
Definition truncationMarker : jsstring :=
  Eval cbv in lit (String "010"%char (String "010"%char "[... truncated ...]")).

(** [for (let i = maxLength; i > lookBackLimit; i--)]: the body runs at most
    [maxLength - lookBackLimit] times, which is the count [n] handed in. *)
Fixpoint lookBack (n : nat) (t : jsstring) (lookBackLimit i breakPoint : Z) : Z :=
  if i >? lookBackLimit then
    match n with
    | O => breakPoint
    | S n' =>
        if isWordBoundary (charAt t i) then i
        else lookBack n' t lookBackLimit (i - 1) breakPoint
    end
  else breakPoint.

(** [maxLength] is the maximum length in characters, an integer. *)
Definition truncateText (t : jsstring) (maxLength : Z) : TruncateResult :=
  if bool_decide (t = []) || (len t <=? maxLength) then
    {| text := t; truncated := false |}
  else
    let lookBackLimit := Z.max 0 (maxLength - 100) in
    let breakPoint :=
      lookBack (Z.to_nat (maxLength - lookBackLimit)) t lookBackLimit
               maxLength maxLength in
    {| text := trim (slice t 0 breakPoint) ++ truncationMarker;
       truncated := true |}.

End TextUtils.

(** ** JavaScript values and object-literal lookup

    [obj[key]] on an object literal first looks at the literal's own
    properties and then at [Object.prototype], whose members are functions
    (and the [__proto__] accessor, which yields [Object.prototype] itself).
    [a || b] yields [a] when [a] is truthy and [b] otherwise. *)

Inductive JsValue : Type :=
| JString (s : string)
| JUndefined
| JFunction (name : string)
| JObjectPrototype.

Global Instance JsValue_eq_dec : EqDecision JsValue.
Proof. solve_decision. Defined.

Definition objectPrototypeMethods : list string :=
  [ "constructor"; "__defineGetter__"; "__defineSetter__"; "hasOwnProperty";
    "__lookupGetter__"; "__lookupSetter__"; "isPrototypeOf";
    "propertyIsEnumerable"; "toString"; "valueOf"; "toLocaleString" ].

Definition objectPrototypeGet (key : string) : JsValue :=
  if bool_decide (key = "constructor") then JFunction "Object"
  else if bool_decide (key = "__proto__") then JObjectPrototype
  else if bool_decide (key ∈ objectPrototypeMethods) then JFunction key
  else JUndefined.

Definition objectGet (own : gmap string string) (key : string) : JsValue :=
  match own !! key with
  | Some v => JString v
  | None => objectPrototypeGet key
  end.

Definition truthyString (s : string) : bool := negb (bool_decide (s = "")).

Definition truthy (v : JsValue) : bool :=
  match v with
  | JString s => truthyString s
  | JUndefined => false
  | JFunction _ | JObjectPrototype => true
  end.

Definition jsOr (a b : JsValue) : JsValue := if truthy a then a else b.

(** A value that is a string or an array of strings
    ([z.union([z.string(), z.array(z.string())])]). *)
Inductive OneOrMany : Type :=
| One (s : string)
| Many (l : list string).

(** ** Text in UTF-8

    Identifiers, language tags and XML text are kept as byte strings, the
    UTF-8 form of the JavaScript string.  JavaScript counts UTF-16 code
    units: a character of one, two or three bytes is one unit, a character
    of four bytes is two units (a surrogate pair).  The text is taken to be
    well formed. *)

Module Utf8.

Definition byte (a : ascii) : N := Ascii.N_of_ascii a.

Definition ofBytes (l : list N) : string :=
  String.string_of_list_ascii (map Ascii.ascii_of_N l).

Fixpoint isAscii (s : string) : bool :=
  match s with
  | String a s' => (byte a <? 128)%N && isAscii s'
  | "" => true
  end.

(** The first unit of the surrogate pair of the character that the four
    bytes encode, in the three bytes an unpaired surrogate takes. *)
Definition highSurrogate (a b c d : ascii) : string :=
  let codePoint :=
    (N.land (byte a) 7 * 262144 + N.land (byte b) 63 * 4096
     + N.land (byte c) 63 * 64 + N.land (byte d) 63)%N in
  let unit := (55296 + N.shiftr (codePoint - 65536) 10)%N in
  ofBytes [237%N; (128 + N.land (N.shiftr unit 6) 63)%N; (128 + N.land unit 63)%N].

(** [s.substring(0, n)]: the first [n] code units of [s], all of [s] when
    it has fewer.  A surrogate pair that straddles the end is cut in two. *)
Fixpoint substring0 (n : nat) (s : string) {struct n} : string :=
  match n, s with
  | S n', String a s1 =>
      if (byte a <? 192)%N then String a (substring0 n' s1)
      else if (byte a <? 224)%N then
        match s1 with
        | String b s2 => String a (String b (substring0 n' s2))
        | _ => s
        end
      else if (byte a <? 240)%N then
        match s1 with
        | String b (String c s3) =>
            String a (String b (String c (substring0 n' s3)))
        | _ => s
        end
      else
        match s1 with
        | String b (String c (String d s4)) =>
            match n' with
            | S n'' => String a (String b (String c (String d (substring0 n'' s4))))
            | O => highSurrogate a b c d
            end
        | _ => s
        end
  | _, _ => ""
  end.

End Utf8.

(** ** Data model *)

Module ArkeManifest.
Record t := mk {
  pi : string;
  ver : Z;
  ts : string;
  manifest_cid : string;
  prev_cid : option string;
  components : gmap string string;
  children_pi : option (list string);
  parent_pi : option string;
  note : option string
}.
End ArkeManifest.

Module PinaxMetadata.
Record t := mk {
  id : string;
  title : string;
  type : string;
  creator : OneOrMany;
  institution : string;
  created : string;
  access_url : string;
  language : option string;
  subjects : option (list string);
  description : option string;
  source : option string;
  rights : option string;
  place : option OneOrMany
}.
End PinaxMetadata.

Module ExportConfig.
Inductive CheimarrosMode := full | minimal | skip.
Record t := mk {
  apiUrl : string;
  ipfsGateway : string;
  cdnUrl : string;
  includeOcr : bool;
  cheimarrosMode : CheimarrosMode;
  validate : bool;
  verbose : bool
}.
End ExportConfig.

(** The MODS document types are declared in a module that the repository
    keeps outside the files at hand; the records below carry the fields that
    the crosswalk, the exporter and the XML generator read and write. *)

Module ModsTitleInfo.
Record t := mk { title : string; type : option string }.
End ModsTitleInfo.

Module ModsRole.
Record t := mk { roleTerm : string; type : string }.
End ModsRole.

Module ModsName.
Record t := mk {
  type : string;
  nameParts : list string;
  roles : list ModsRole.t;
  isSubject : bool
}.
End ModsName.

Module ModsOriginInfo.
Record t := mk { dateCreated : string; encoding : string; keyDate : bool }.
End ModsOriginInfo.

Module ModsLanguage.
Record t := mk { languageTerm : JsValue; type : string; authority : string }.
End ModsLanguage.

Module ModsSubject.
Record t := mk {
  topics : option (list string);
  geographic : option (list string);
  names : option (list ModsName.t)
}.
End ModsSubject.

Module ModsIdentifier.
Record t := mk { value : string; type : string; displayLabel : string }.
End ModsIdentifier.

Module ModsUrl.
Record t := mk {
  url : string;
  usage : option string;
  access : option string;
  displayLabel : option string
}.
End ModsUrl.

Module ModsLocation.
Record t := mk { physicalLocation : option string; urls : list ModsUrl.t }.
End ModsLocation.

Module ModsAccessCondition.
Record t := mk { text : string; type : string }.
End ModsAccessCondition.

Module ModsNote.
Record t := mk { text : string; type : string; displayLabel : string }.
End ModsNote.

Module ModsPhysicalDescription.
Record t := mk {
  form : option string;
  extent : option string;
  internetMediaType : option string;
  digitalOrigin : option string;
  note : option string
}.
End ModsPhysicalDescription.

Module ModsClassification.
Record t := mk { authority : string; value : string }.
End ModsClassification.

Module ModsRelatedItem.
Record t := mk {
  type : string;
  displayLabel : option string;
  titleInfo : option ModsTitleInfo.t;
  identifiers : list ModsIdentifier.t;
  location : option ModsLocation.t;
  physicalDescription : option ModsPhysicalDescription.t;
  notes : list ModsNote.t
}.
End ModsRelatedItem.

Module ModsRecordInfo.
Record t := mk {
  recordContentSource : string;
  recordIdentifier : option string;
  recordIdentifierSource : option string;
  recordCreationDate : string;
  recordOrigin : option string;
  descriptionStandard : string;
  languageOfCataloging : option ModsLanguage.t
}.
End ModsRecordInfo.

Module ModsDocument.
Record t := mk {
  titleInfo : list ModsTitleInfo.t;
  names : list ModsName.t;
  typeOfResource : JsValue;
  genre : list string;
  originInfo : option ModsOriginInfo.t;
  language : option (list ModsLanguage.t);
  physicalDescription : option ModsPhysicalDescription.t;
  abstract : option string;
  tableOfContents : option string;
  targetAudience : option string;
  notes : list ModsNote.t;
  subjects : list ModsSubject.t;
  classification : option (list ModsClassification.t);
  relatedItems : list ModsRelatedItem.t;
  identifiers : list ModsIdentifier.t;
  location : option ModsLocation.t;
  accessConditions : list ModsAccessCondition.t;
  recordInfo : ModsRecordInfo.t
}.
End ModsDocument.

(** ** PINAX to MODS crosswalk ([PinaxModsCrosswalk]) *)

Module Crosswalk.

Definition toList (v : OneOrMany) : list string :=
  match v with One s => [s] | Many l => l end.

Definition mapTitle (pinax : PinaxMetadata.t) : list ModsTitleInfo.t :=
  [ {| ModsTitleInfo.title := PinaxMetadata.title pinax;
       ModsTitleInfo.type := None |} ].

Definition mapCreators (pinax : PinaxMetadata.t) : list ModsName.t :=
  let creators := toList (PinaxMetadata.creator pinax) in
  let names :=
    map (fun creator =>
           {| ModsName.type := "personal";
              ModsName.nameParts := [creator];
              ModsName.roles :=
                [ {| ModsRole.roleTerm := "creator"; ModsRole.type := "text" |} ];
              ModsName.isSubject := false |}) creators in
  names ++
    [ {| ModsName.type := "corporate";
         ModsName.nameParts := [PinaxMetadata.institution pinax];
         ModsName.roles :=
           [ {| ModsRole.roleTerm := "repository"; ModsRole.type := "text" |} ];
         ModsName.isSubject := false |} ].

Definition typeMap : gmap string string :=
  list_to_map
    [ ("Text", "text");
      ("Image", "still image");
      ("StillImage", "still image");
      ("MovingImage", "moving image");
      ("Sound", "sound recording");
      ("Dataset", "software, multimedia");
      ("InteractiveResource", "software, multimedia");
      ("Software", "software, multimedia");
      ("Collection", "mixed material");
      ("PhysicalObject", "three dimensional object");
      ("Event", "text");
      ("Service", "text") ].

(** [return typeMap[dcmiType] || 'text';] *)
Definition mapResourceType (dcmiType : string) : JsValue :=
  jsOr (objectGet typeMap dcmiType) (JString "text").

Definition mapOriginInfo (pinax : PinaxMetadata.t) : ModsOriginInfo.t :=
  {| ModsOriginInfo.dateCreated := PinaxMetadata.created pinax;
     ModsOriginInfo.encoding := "w3cdtf";
     ModsOriginInfo.keyDate := true |}.

Definition langMap : gmap string string :=
  list_to_map
    [ ("en", "eng"); ("en-US", "eng"); ("en-GB", "eng"); ("es", "spa");
      ("es-MX", "spa"); ("fr", "fre"); ("de", "ger"); ("it", "ita");
      ("pt", "por"); ("zh", "chi"); ("ja", "jpn"); ("ar", "ara");
      ("ru", "rus") ].

Definition mapLanguage (pinax : PinaxMetadata.t) : option (list ModsLanguage.t) :=
  match PinaxMetadata.language pinax with
  | None => None
  | Some lang =>
      if truthyString lang then
        let iso6392b :=
          jsOr (objectGet langMap lang) (JString (Utf8.substring0 3 lang)) in
        Some [ {| ModsLanguage.languageTerm := iso6392b;
                  ModsLanguage.type := "code";
                  ModsLanguage.authority := "iso639-2b" |} ]
      else None
  end.

Definition mapSubjects (pinax : PinaxMetadata.t) : list ModsSubject.t :=
  let topical :=
    match PinaxMetadata.subjects pinax with
    | Some topics =>
        map (fun topic =>
               {| ModsSubject.topics := Some [topic];
                  ModsSubject.geographic := None;
                  ModsSubject.names := None |}) topics
    | None => []
    end in
  let geographic :=
    match PinaxMetadata.place pinax with
    | Some (One "") | None => []
    | Some p =>
        map (fun place =>
               {| ModsSubject.topics := None;
                  ModsSubject.geographic := Some [place];
                  ModsSubject.names := None |}) (toList p)
    end in
  topical ++ geographic.

Definition accessUri (pinax : PinaxMetadata.t) (manifest : ArkeManifest.t) : string :=
  if bool_decide (PinaxMetadata.access_url pinax = "PLACEHOLDER")
  then "https://arke.institute/" +:+ ArkeManifest.pi manifest
  else PinaxMetadata.access_url pinax.

Definition mapIdentifiers (pinax : PinaxMetadata.t) (manifest : ArkeManifest.t)
  : list ModsIdentifier.t :=
  [ {| ModsIdentifier.value := PinaxMetadata.id pinax;
       ModsIdentifier.type := "local";
       ModsIdentifier.displayLabel := "PINAX ID" |};
    {| ModsIdentifier.value := ArkeManifest.pi manifest;
       ModsIdentifier.type := "arke-pi";
       ModsIdentifier.displayLabel := "Arke Persistent Identifier" |};
    {| ModsIdentifier.value := accessUri pinax manifest;
       ModsIdentifier.type := "uri";
       ModsIdentifier.displayLabel := "Arke URI" |} ].

Definition mapLocation (config : ExportConfig.t) (pinax : PinaxMetadata.t)
           (manifest : ArkeManifest.t) : ModsLocation.t :=
  let arkeUrl := accessUri pinax manifest in
  {| ModsLocation.physicalLocation := Some (PinaxMetadata.institution pinax);
     ModsLocation.urls :=
       [ {| ModsUrl.url := arkeUrl;
            ModsUrl.usage := Some "primary display";
            ModsUrl.access := Some "object in context";
            ModsUrl.displayLabel := Some "View in Arke" |};
         {| ModsUrl.url :=
              ExportConfig.ipfsGateway config +:+ "/ipfs/"
                +:+ ArkeManifest.manifest_cid manifest;
            ModsUrl.usage := None;
            ModsUrl.access := None;
            ModsUrl.displayLabel := Some "IPFS Manifest" |} ] |}.

Definition truthyOpt (o : option string) : bool :=
  match o with Some s => truthyString s | None => false end.

Definition mapAccessConditions (pinax : PinaxMetadata.t)
  : list ModsAccessCondition.t :=
  match PinaxMetadata.rights pinax with
  | Some r =>
      if truthyString r then
        [ {| ModsAccessCondition.text := r;
             ModsAccessCondition.type := "use and reproduction" |} ]
      else []
  | None => []
  end.

(** [manifest.ver] is a version count: an integer, which the template
    prints in decimal as JavaScript prints an integer below 10^21. *)
Definition mapNotes (pinax : PinaxMetadata.t) (manifest : ArkeManifest.t)
           (description : option string) : list ModsNote.t :=
  let version :=
    [ {| ModsNote.text :=
           "Version " +:+ pretty (ArkeManifest.ver manifest)
             +:+ " • Manifest CID: " +:+ ArkeManifest.manifest_cid manifest;
         ModsNote.type := "version";
         ModsNote.displayLabel := "Arke Version" |} ] in
  let summary :=
    match description, PinaxMetadata.description pinax with
    | Some d, Some pd =>
        if truthyString d && truthyString pd && negb (bool_decide (d = pd)) then
          [ {| ModsNote.text := pd;
               ModsNote.type := "summary";
               ModsNote.displayLabel := "PINAX Description" |} ]
        else []
    | _, _ => []
    end in
  let source :=
    match PinaxMetadata.source pinax with
    | Some src =>
        if truthyString src then
          [ {| ModsNote.text := src;
               ModsNote.type := "source";
               ModsNote.displayLabel := "Source System" |} ]
        else []
    | None => []
    end in
  version ++ summary ++ source.

Definition mapRecordInfo (manifest : ArkeManifest.t) : ModsRecordInfo.t :=
  {| ModsRecordInfo.recordContentSource := "Arke Institute";
     ModsRecordInfo.recordIdentifier := Some (ArkeManifest.pi manifest);
     ModsRecordInfo.recordIdentifierSource := Some "arke-pi";
     ModsRecordInfo.recordCreationDate := ArkeManifest.ts manifest;
     ModsRecordInfo.recordOrigin := None;
     ModsRecordInfo.descriptionStandard := "pinax";
     ModsRecordInfo.languageOfCataloging := None |}.

(** [description || pinax.description] *)
Definition abstractOf (pinax : PinaxMetadata.t) (description : option string)
  : option string :=
  if truthyOpt description then description else PinaxMetadata.description pinax.

Definition crosswalk (config : ExportConfig.t) (pinax : PinaxMetadata.t)
           (manifest : ArkeManifest.t) (description : option string)
  : ModsDocument.t :=
  {| ModsDocument.titleInfo := mapTitle pinax;
     ModsDocument.names := mapCreators pinax;
     ModsDocument.typeOfResource := mapResourceType (PinaxMetadata.type pinax);
     ModsDocument.genre := [];
     ModsDocument.originInfo := Some (mapOriginInfo pinax);
     ModsDocument.language := mapLanguage pinax;
     ModsDocument.physicalDescription := None;
     ModsDocument.abstract := abstractOf pinax description;
     ModsDocument.tableOfContents := None;
     ModsDocument.targetAudience := None;
     ModsDocument.notes := mapNotes pinax manifest description;
     ModsDocument.subjects := mapSubjects pinax;
     ModsDocument.classification := None;
     ModsDocument.relatedItems := [];
     ModsDocument.identifiers := mapIdentifiers pinax manifest;
     ModsDocument.location := Some (mapLocation config pinax manifest);
     ModsDocument.accessConditions := mapAccessConditions pinax;
     ModsDocument.recordInfo := mapRecordInfo manifest |}.

End Crosswalk.

(** ** Single-entity exporter ([ModsExporter]) *)

Module ModsExporter.

(** [generateMinimalMods]; [today] stands for
    [new Date().toISOString().split('T')[0]]. *)
Definition generateMinimalMods (today : string) (manifest : ArkeManifest.t)
  : ModsDocument.t :=
  {| ModsDocument.titleInfo :=
       [ {| ModsTitleInfo.title :=
              "[Incomplete Record: " +:+ ArkeManifest.pi manifest +:+ "]";
            ModsTitleInfo.type := Some "alternative" |} ];
     ModsDocument.names := [];
     ModsDocument.typeOfResource := JUndefined;
     ModsDocument.genre := [];
     ModsDocument.originInfo := None;
     ModsDocument.language := Some [];
     ModsDocument.physicalDescription := None;
     ModsDocument.abstract := None;
     ModsDocument.tableOfContents := None;
     ModsDocument.targetAudience := None;
     ModsDocument.notes :=
       [ {| ModsNote.type := "metadata-status";
            ModsNote.displayLabel := "Metadata Status";
            ModsNote.text :=
              "Incomplete: PINAX metadata unavailable at time of export. This is a minimal record generated from manifest data only." |};
         {| ModsNote.type := "metadata-remediation";
            ModsNote.displayLabel := "Remediation Note";
            ModsNote.text :=
              "To complete this record, ensure pinax.json component exists for PI "
                +:+ ArkeManifest.pi manifest +:+ " and re-export." |} ];
     ModsDocument.subjects := [];
     ModsDocument.classification := Some [];
     ModsDocument.relatedItems := [];
     ModsDocument.identifiers :=
       [ {| ModsIdentifier.type := "arke-pi";
            ModsIdentifier.displayLabel := "Arke Persistent Identifier";
            ModsIdentifier.value := ArkeManifest.pi manifest |};
         {| ModsIdentifier.type := "arke-manifest-cid";
            ModsIdentifier.displayLabel := "Manifest CID";
            ModsIdentifier.value := ArkeManifest.manifest_cid manifest |} ];
     ModsDocument.location :=
       Some {| ModsLocation.physicalLocation := None;
               ModsLocation.urls :=
                 [ {| ModsUrl.url :=
                        "https://api.arke.institute/manifest/"
                          +:+ ArkeManifest.pi manifest;
                      ModsUrl.usage := Some "primary";
                      ModsUrl.access := None;
                      ModsUrl.displayLabel := Some "Arke Manifest API" |} ] |};
     ModsDocument.accessConditions := [];
     ModsDocument.recordInfo :=
       {| ModsRecordInfo.recordContentSource := "Arke Institute";
          ModsRecordInfo.recordIdentifier := None;
          ModsRecordInfo.recordIdentifierSource := None;
          ModsRecordInfo.recordCreationDate := today;
          ModsRecordInfo.recordOrigin :=
            Some "Generated by arke-mods-export-worker with graceful degradation (missing PINAX)";
          ModsRecordInfo.descriptionStandard := "mods";
          ModsRecordInfo.languageOfCataloging :=
            Some {| ModsLanguage.languageTerm := JString "eng";
                    ModsLanguage.type := "code";
                    ModsLanguage.authority := "iso639-2b" |} |} |}.

(** Step 3 of [export]: crosswalk when the PINAX record is there, the
    minimal record otherwise.  The flag is [isIncomplete]. *)
Definition buildBaseMods (config : ExportConfig.t) (today : string)
           (pinax : option PinaxMetadata.t) (manifest : ArkeManifest.t)
           (description : option string) : ModsDocument.t * bool :=
  match pinax with
  | None => (generateMinimalMods today manifest, true)
  | Some p => (Crosswalk.crosswalk config p manifest description, false)
  end.

(** The three array fields that steps 4 and 5 push to. *)
Definition pushNotes (extra : list ModsNote.t) (m : ModsDocument.t) : ModsDocument.t :=
  let 'ModsDocument.mk ti na ty ge oi la pd ab tc ta no su cl ri ids lo ac rec := m in
  ModsDocument.mk ti na ty ge oi la pd ab tc ta (no ++ extra) su cl ri ids lo ac rec.

Definition pushSubjects (extra : list ModsSubject.t) (m : ModsDocument.t) : ModsDocument.t :=
  let 'ModsDocument.mk ti na ty ge oi la pd ab tc ta no su cl ri ids lo ac rec := m in
  ModsDocument.mk ti na ty ge oi la pd ab tc ta no (su ++ extra) cl ri ids lo ac rec.

Definition pushRelatedItems (extra : list ModsRelatedItem.t) (m : ModsDocument.t)
  : ModsDocument.t :=
  let 'ModsDocument.mk ti na ty ge oi la pd ab tc ta no su cl ri ids lo ac rec := m in
  ModsDocument.mk ti na ty ge oi la pd ab tc ta no su cl (ri ++ extra) ids lo ac rec.

(** What [CheimarrosProcessor.process] hands back. *)
Record CheimarrosProcessingResult := mkCheimarrosProcessingResult {
  subjects : list ModsSubject.t;
  names : list ModsName.t;
  notes : list ModsNote.t
}.

(** What the [ComponentLinker] calls of step 5 hand back. *)
Record ComponentLinks := mkComponentLinks {
  refJsonItems : list ModsRelatedItem.t;
  parentItem : option ModsRelatedItem.t;
  childItems : list ModsRelatedItem.t;
  childNote : option ModsNote.t;
  otherItems : list ModsRelatedItem.t;
  componentNote : ModsNote.t
}.

(** Step 4: merge the graph annotations. *)
Definition mergeCheimarros (cheirResult : CheimarrosProcessingResult)
           (mods : ModsDocument.t) : ModsDocument.t :=
  let mods := pushSubjects (subjects cheirResult) mods in
  let mods :=
    pushSubjects
      (map (fun name =>
              {| ModsSubject.topics := None;
                 ModsSubject.geographic := None;
                 ModsSubject.names := Some [name] |})
           (filter (fun name => ModsName.isSubject name = true) (names cheirResult)))
      mods in
  pushNotes (notes cheirResult) mods.

(** Step 5: link components, parent and children. *)
Definition linkComponents (links : ComponentLinks) (mods : ModsDocument.t)
  : ModsDocument.t :=
  let mods := pushRelatedItems (refJsonItems links) mods in
  let mods := pushRelatedItems (option_list (parentItem links)) mods in
  let mods := pushRelatedItems (childItems links) mods in
  let mods := pushNotes (option_list (childNote links)) mods in
  let mods := pushRelatedItems (otherItems links) mods in
  pushNotes [componentNote links] mods.

(** The collaborators of one export: the manifest endpoint, the IPFS
    gateway (a fetch that throws or a body that does not parse is [None],
    as the client catches both), the graph processor, the component linker
    and the XML serializer [js2xml]. *)
Record Collaborators := mkCollaborators {
  fetchManifest : string -> Settled ArkeManifest.t;
  fetchIpfsPinax : string -> option PinaxMetadata.t;
  fetchIpfsContent : string -> option string;
  processCheimarros : ArkeManifest.t -> option CheimarrosProcessingResult;
  linkAll : ArkeManifest.t -> ComponentLinks;
  generate : ModsDocument.t -> string;
  today : string
}.

Definition componentCid (manifest : ArkeManifest.t) (key : string) : option string :=
  match ArkeManifest.components manifest !! key with
  | Some cid => if truthyString cid then Some cid else None
  | None => None
  end.

Definition fetchPinax (c : Collaborators) (manifest : ArkeManifest.t)
  : option PinaxMetadata.t :=
  match componentCid manifest "pinax.json" with
  | Some pinaxCid => fetchIpfsPinax c pinaxCid
  | None => None
  end.

Definition fetchDescription (c : Collaborators) (manifest : ArkeManifest.t)
  : option string :=
  match componentCid manifest "description.md" with
  | Some descCid => fetchIpfsContent c descCid
  | None => None
  end.

(** Steps 2 to 5 of [export], from a fetched manifest to the document that
    is serialized. *)
Definition exportDocument (config : ExportConfig.t) (c : Collaborators)
           (manifest : ArkeManifest.t) : ModsDocument.t * bool :=
  let pinax := fetchPinax c manifest in
  let description := fetchDescription c manifest in
  let '(mods, isIncomplete) :=
    buildBaseMods config (today c) pinax manifest description in
  let mods :=
    match processCheimarros c manifest, ExportConfig.cheimarrosMode config with
    | Some _, ExportConfig.skip => mods
    | Some cheirResult, _ => mergeCheimarros cheirResult mods
    | None, _ => mods
    end in
  (linkComponents (linkAll c manifest) mods, isIncomplete).

Definition export (config : ExportConfig.t) (c : Collaborators) (pi : string)
  : Settled string :=
  match fetchManifest c pi with
  | Rejected e => Rejected e
  | Fulfilled manifest =>
      Fulfilled (generate c (fst (exportDocument config c manifest)))
  end.

End ModsExporter.

(** ** String helpers for the collection writer

    XML text is kept as a byte string in UTF-8.  The white space of [\s],
    [trim] and [trimEnd] is ECMAScript WhiteSpace and LineTerminator: the
    six ASCII characters tab, line feed, vertical tab, form feed, carriage
    return and space, of one byte each; U+00A0, of two bytes; and, of three
    bytes each, U+1680, U+2000 to U+200A, U+2028, U+2029, U+202F, U+205F,
    U+3000 and U+FEFF. *)

Module Str.

Definition dq : string := String (Ascii.ascii_of_nat 34) "".
Definition nl : string := String (Ascii.ascii_of_nat 10) "".

(** U+00A0 is C2 A0. *)
Definition space2 (a b : ascii) : bool :=
  ((Utf8.byte a =? 194) && (Utf8.byte b =? 160))%N.

(** U+1680 is E1 9A 80; U+2000 to U+200A are E2 80 80 to E2 80 8A; U+2028,
    U+2029 and U+202F are E2 80 A8, E2 80 A9 and E2 80 AF; U+205F is
    E2 81 9F; U+3000 is E3 80 80; U+FEFF is EF BB BF. *)
Definition space3 (a b c : ascii) : bool :=
  let x := Utf8.byte a in
  let y := Utf8.byte b in
  let z := Utf8.byte c in
  ((x =? 225) && (y =? 154) && (z =? 128)
   || (x =? 226) && (y =? 128)
      && ((128 <=? z) && (z <=? 138) || (z =? 168) || (z =? 169) || (z =? 175))
   || (x =? 226) && (y =? 129) && (z =? 159)
   || (x =? 227) && (y =? 128) && (z =? 128)
   || (x =? 239) && (y =? 187) && (z =? 191))%N.

Section Runs.

(** The two-byte and three-byte white space, in the order in which the
    bytes are met. *)
Variable two : ascii -> ascii -> bool.
Variable three : ascii -> ascii -> ascii -> bool.

(** [s] without the white-space run that starts it. *)
Fixpoint dropRun (s : string) : string :=
  match s with
  | String a s1 =>
      if Ascii.is_space a then dropRun s1
      else
        match s1 with
        | String b s2 =>
            if two a b then dropRun s2
            else
              match s2 with
              | String c s3 => if three a b c then dropRun s3 else s
              | "" => s
              end
        | "" => s
        end
  | "" => ""
  end.

(** The white-space run that starts [s]. *)
Fixpoint takeRun (s : string) : string :=
  match s with
  | String a s1 =>
      if Ascii.is_space a then String a (takeRun s1)
      else
        match s1 with
        | String b s2 =>
            if two a b then String a (String b (takeRun s2))
            else
              match s2 with
              | String c s3 =>
                  if three a b c then String a (String b (String c (takeRun s3)))
                  else ""
              | "" => ""
              end
        | "" => ""
        end
  | "" => ""
  end.

End Runs.

Definition dropSpaces (s : string) : string := dropRun space2 space3 s.

Definition takeSpaces (s : string) : string := takeRun space2 space3 s.

(** From the end of the text the bytes of a character are met last byte
    first. *)
Definition space2Back (a b : ascii) : bool := space2 b a.

Definition space3Back (a b c : ascii) : bool := space3 c b a.

Definition trimEnd (s : string) : string :=
  String.rev (dropRun space2Back space3Back (String.rev s)).

(** The white-space run that ends [s]. *)
Definition trailingSpaces (s : string) : string :=
  String.rev (takeRun space2Back space3Back (String.rev s)).

(** *** Replacement templates

    [String.prototype.replace] with a string as replacement expands the
    dollar patterns of the replacement (GetSubstitution): [$$] is a dollar
    sign, [$&] the matched text, [$`] the text before the match, [$'] the
    text after it, and [$n] or [$nn] the capture of that number.  Two
    digits are read as one number when that many captures exist; otherwise
    the first digit alone is the number and the second digit is plain
    text.  A number that names no capture leaves the pattern as plain
    text, and so does a dollar sign followed by anything else (the
    expressions here have no named groups). *)

Definition digit (a : ascii) : option nat :=
  if ((48 <=? Utf8.byte a) && (Utf8.byte a <=? 57))%N
  then Some (N.to_nat (Utf8.byte a - 48)) else None.

(** The capture numbered [index], counted from one. *)
Definition capture (captures : list string) (index : nat) : option string :=
  match index with
  | O => None
  | S i => captures !! i
  end.

Fixpoint hasDollar (s : string) : bool :=
  match s with
  | String a s' => bool_decide (a = "$"%char) || hasDollar s'
  | "" => false
  end.

Section Substitution.

Variable matched before after : string.
Variable captures : list string.

Fixpoint substitute (template : string) : string :=
  match template with
  | String a rest =>
      if bool_decide (a = "$"%char) then
        match rest with
        | String c rest1 =>
            if bool_decide (c = "$"%char) then String c (substitute rest1)
            else if bool_decide (c = "&"%char) then matched +:+ substitute rest1
            else if bool_decide (c = "`"%char) then before +:+ substitute rest1
            else if bool_decide (c = "'"%char) then after +:+ substitute rest1
            else
              match digit c with
              | Some d1 =>
                  let oneDigit :=
                    match capture captures d1 with
                    | Some group => group +:+ substitute rest1
                    | None => String a (substitute rest)
                    end in
                  match rest1 with
                  | String c2 rest2 =>
                      match digit c2 with
                      | Some d2 =>
                          match capture captures (10 * d1 + d2) with
                          | Some group => group +:+ substitute rest2
                          | None => oneDigit
                          end
                      | None => oneDigit
                      end
                  | "" => oneDigit
                  end
              | None => String a (substitute rest)
              end
        | "" => template
        end
      else String a (substitute rest)
  | "" => ""
  end.

End Substitution.

Fixpoint drop (n : nat) (s : string) : string :=
  match n, s with
  | S n', String _ s' => drop n' s'
  | _, _ => s
  end.

(** [indexOf pat]: the text before the first occurrence and the text from
    it on; [None] is [-1]. *)
Fixpoint splitAt (pat s : string) : option (string * string) :=
  if String.prefix pat s then Some ("", s)
  else
    match s with
    | String a s' =>
        match splitAt pat s' with
        | Some (before, from) => Some (String a before, from)
        | None => None
        end
    | "" => None
    end.

(** The run of characters other than [>] that starts [s], and what follows
    the [>] that ends the run, if one does. *)
Fixpoint untilGt (s : string) : option (string * string) :=
  match s with
  | String a s' =>
      if bool_decide (a = ">"%char) then Some ("", s')
      else
        match untilGt s' with
        | Some (run, rest) => Some (String a run, rest)
        | None => None
        end
  | "" => None
  end.

Definition endsWithQuestionMark (s : string) : bool :=
  match String.rev s with
  | String a _ => bool_decide (a = "?"%char)
  | "" => false
  end.

(** A match of [/<\?xml[^>]*\?>\s*/] anchored at the start of [s]: the
    text after the match. *)
Definition matchXmlDeclaration (s : string) : option string :=
  if String.prefix "<?xml" s then
    match untilGt (drop 5 s) with
    | Some (run, rest) =>
        if endsWithQuestionMark run then Some (dropSpaces rest) else None
    | None => None
    end
  else None.

(** [xml.replace(/<\?xml[^>]*\?>\s*/, '')]: the leftmost match goes. *)
Fixpoint removeXmlDeclaration (s : string) : string :=
  match matchXmlDeclaration s with
  | Some rest => rest
  | None =>
      match s with
      | String a s' => String a (removeXmlDeclaration s')
      | "" => ""
      end
  end.

(** [s.split('\n').join('\n  ')] *)
Fixpoint indentLines (s : string) : string :=
  match s with
  | String a s' =>
      if bool_decide (a = "010"%char)
      then String a ("  " +:+ indentLines s')
      else String a (indentLines s')
  | "" => ""
  end.

Definition endsWith (suffix s : string) : bool :=
  String.prefix (String.rev suffix) (String.rev s).

(** [s] without its last [n] characters. *)
Definition dropEnd (n : nat) (s : string) : string :=
  String.rev (drop n (String.rev s)).

End Str.

(** ** Streaming collection writer ([ModsCollectionWriter]) *)

Module EntityNode.
Record t := mk {
  pi : string;
  depth : Z;
  parentPI : option string;
  pathFromRoot : list string
}.
End EntityNode.

Global Instance EntityNode_eq_dec : EqDecision EntityNode.t.
Proof. solve_decision. Defined.

Module ModsCollectionWriter.

(** The file sink: the chunks handed to [stream.write] so far, in order,
    and whether [stream.end] was called. *)
Record WriteStream := mkWriteStream {
  path : string;
  chunks : list string;
  ended : bool
}.

Record t := mk {
  stream : option WriteStream;
  isOpen : bool
}.

(** [new ModsCollectionWriter()] *)
Definition new : t := {| stream := None; isOpen := false |}.

(** An asynchronous method of the writer: it settles and leaves the writer
    in a new state. *)
Definition Task (A : Type) : Type := t -> Settled A * t.

Definition ret {A} (a : A) : Task A := fun w => (Fulfilled a, w).

Definition throw {A} (msg : string) : Task A := fun w => (Rejected msg, w).

Definition bind {A B} (m : Task A) (k : A -> Task B) : Task B :=
  fun w =>
    match m w with
    | (Fulfilled a, w') => k a w'
    | (Rejected e, w') => (Rejected e, w')
    end.

Global Instance Task_ret : MRet Task := @ret.
Global Instance Task_bind : MBind Task := fun A B k m => bind m k.

(** [write]: rejects without a stream; otherwise the chunk goes to the
    stream and the promise resolves, at once or after [drain].  The stream
    is taken not to have ended, as is the case for every stream the
    exporter writes to, [close] being its last call: a write after [end] is
    refused by Node and its promise is never settled, which is outside this
    model. *)
Definition write (data : string) : Task unit :=
  fun w =>
    match stream w with
    | None => (Rejected "Stream not initialized", w)
    | Some s =>
        (Fulfilled tt,
         {| stream := Some {| path := path s;
                              chunks := chunks s ++ [data];
                              ended := ended s |};
            isOpen := isOpen w |})
    end.

Definition createStream (outputPath : string) : Task unit :=
  fun w =>
    (Fulfilled tt,
     {| stream := Some {| path := outputPath; chunks := []; ended := false |};
        isOpen := isOpen w |}).

Definition markOpen : Task unit :=
  fun w => (Fulfilled tt, {| stream := stream w; isOpen := true |}).

Definition header : list string :=
  [ "<?xml version=" +:+ Str.dq +:+ "1.0" +:+ Str.dq +:+ " encoding="
      +:+ Str.dq +:+ "UTF-8" +:+ Str.dq +:+ "?>" +:+ Str.nl;
    "<modsCollection xmlns=" +:+ Str.dq +:+ "http://www.loc.gov/mods/v3"
      +:+ Str.dq +:+ " ";
    "xmlns:xsi=" +:+ Str.dq +:+ "http://www.w3.org/2001/XMLSchema-instance"
      +:+ Str.dq +:+ " ";
    "xsi:schemaLocation=" +:+ Str.dq
      +:+ "http://www.loc.gov/mods/v3 https://www.loc.gov/standards/mods/mods-3-8.xsd"
      +:+ Str.dq +:+ ">" +:+ Str.nl ].

Definition footer : string := "</modsCollection>" +:+ Str.nl.

Fixpoint writeAll (parts : list string) : Task unit :=
  match parts with
  | [] => ret tt
  | p :: rest => write p;; writeAll rest
  end.

Definition open (outputPath : string) : Task unit :=
  createStream outputPath;; writeAll header;; markOpen.

(** [extractModsElement]: throws when the text has no [<mods]. *)
Definition extractModsElement (xml : string) : Settled string :=
  let content := Str.removeXmlDeclaration xml in
  match Str.splitAt "<mods" content with
  | None => Rejected "No <mods> element found in XML"
  | Some (_, content) => Fulfilled ("  " +:+ Str.trimEnd (Str.indentLines content))
  end.

(** The first [replace] of [addHierarchyMetadata]: its expression is
    anchored at the start and matches a text that, after any white space,
    opens a [<mods ...] tag that has a closing bracket.
    The first capture is the text up to the bracket, the second the
    bracket, and what follows the bracket follows the match.  The
    replacement holds the identifier, and its dollar patterns, those of the
    identifier included, are expanded. *)
Definition addIdAttribute (modsXml : string) (node : EntityNode.t) : string :=
  let lead := Str.takeSpaces modsXml in
  let rest := Str.dropSpaces modsXml in
  if String.prefix "<mods" rest then
    match Str.untilGt (Str.drop 5 rest) with
    | Some (attrs, tail) =>
        let opening := lead +:+ "<mods" +:+ attrs in
        Str.substitute (opening +:+ ">") "" tail [opening; ">"]
          ("$1 ID=" +:+ Str.dq +:+ "entity-" +:+ EntityNode.pi node
             +:+ Str.dq +:+ "$2")
          +:+ tail
    | None => modsXml
    end
  else modsXml.

Definition hierarchyNote (node : EntityNode.t) : string :=
  "    <note type=" +:+ Str.dq +:+ "hierarchy" +:+ Str.dq +:+ " displayLabel="
    +:+ Str.dq +:+ "Tree Position" +:+ Str.dq +:+ ">"
    +:+ "      depth: " +:+ pretty (EntityNode.depth node)
    +:+ match EntityNode.parentPI node with
        | Some p => if truthyString p then ", parent: " +:+ p else ""
        | None => ""
        end
    +:+ ", path: /" +:+ String.concat "/" (EntityNode.pathFromRoot node)
    +:+ "    </note>".

(** The second [replace]: its expression is anchored at the end and
    matches when the text, white space at its end apart, ends with
    [</mods>]; the match begins
    with the white space in front of that tag, which is the one capture,
    and runs to the end of the text.  The replacement holds the note, and
    its dollar patterns, those of the note included, are expanded. *)
Definition insertBeforeClosingTag (withId note : string) : string :=
  let body := Str.trimEnd withId in
  if Str.endsWith "</mods>" body then
    let upToTag := Str.dropEnd 7 body in
    let indent := Str.trailingSpaces upToTag in
    let before := Str.trimEnd upToTag in
    let matched := indent +:+ "</mods>" +:+ Str.trailingSpaces withId in
    before
      +:+ Str.substitute matched before "" [indent]
            (Str.nl +:+ note +:+ Str.nl +:+ "$1</mods>")
  else withId.

Definition addHierarchyMetadata (modsXml : string) (node : EntityNode.t) : string :=
  insertBeforeClosingTag (addIdAttribute modsXml node) (hierarchyNote node).

Definition writeMods (modsXml : string) (metadata : EntityNode.t) : Task unit :=
  fun w =>
    if negb (isOpen w) || negb (bool_decide (is_Some (stream w))) then
      (Rejected "Writer not open - call open() first", w)
    else
      match extractModsElement modsXml with
      | Rejected e => (Rejected e, w)
      | Fulfilled modsElement =>
          let enrichedMods := addHierarchyMetadata modsElement metadata in
          write (enrichedMods +:+ Str.nl) w
      end.

(** [stream.end(callback)] on a stream that has not ended: the stream ends
    and the callback runs.  Its error argument reports a failure of the
    file system, which is outside this model, as it is for [write]. *)
Definition endStream : Task unit :=
  fun w =>
    (Fulfilled tt,
     {| stream :=
          match stream w with
          | Some s => Some {| path := path s; chunks := chunks s; ended := true |}
          | None => None
          end;
        isOpen := isOpen w |}).

Definition close : Task unit :=
  fun w =>
    match stream w with
    | None => (Fulfilled tt, w)
    | Some _ => (write footer;; endStream) w
    end.

End ModsCollectionWriter.

(** ** Recursive exporter ([RecursiveModsExporter]) *)

Module RecursiveOptions.
Inductive TraversalMode := breadthFirst | depthFirst.
(** [onProgress] is a notification callback; it has no part in what the
    traversal computes and is left out. *)
Record t := mk {
  maxDepth : Z;
  parallelBatchSize : Z;
  includeParent : bool;
  traversalMode : TraversalMode
}.
End RecursiveOptions.

Definition DEFAULT_RECURSIVE_OPTIONS : RecursiveOptions.t :=
  {| RecursiveOptions.maxDepth := 5;
     RecursiveOptions.parallelBatchSize := 10;
     RecursiveOptions.includeParent := true;
     RecursiveOptions.traversalMode := RecursiveOptions.breadthFirst |}.

Module RecursiveExportResult.
(** Timings and the memory sample are clock and heap readings and are
    left out. *)
Record t := mk {
  totalEntities : nat;
  successCount : nat;
  errorCount : nat;
  incompleteCount : nat;
  outputPath : string;
  errors : list (string * string);
  incompleteRecords : list (string * string)
}.
End RecursiveExportResult.

Module RecursiveModsExporter.

(** What one entity task sees of the outside: the manifest endpoint as
    answered to the exporter's own client, and the single-entity export
    ([new ModsExporter(quietConfig).export(pi)], which fetches through a
    client of its own). *)
Record World := mkWorld {
  fetchManifest : string -> Settled ArkeManifest.t;
  exportEntity : string -> Settled string
}.

(** The world of a recursive export whose single-entity exports go through
    the collaborators [c]. *)
Definition worldOf (config : ExportConfig.t)
           (fetch : string -> Settled ArkeManifest.t)
           (c : ModsExporter.Collaborators) : World :=
  {| fetchManifest := fetch;
     exportEntity := ModsExporter.export config c |}.

(** The value an entity task resolves to. *)
Record ProcessResult := mkProcessResult {
  children : option (list string);
  isIncomplete : bool;
  incompleteReason : option string
}.

(** What the entity tasks share and change: the writer and the
    [incompleteRecords] array.  [writeModsCalls] is bookkeeping of the
    model: the identifier of every node for which [writeMods] was
    called. *)
Record Shared := mkShared {
  writer : ModsCollectionWriter.t;
  incompleteRecords : list (string * string);
  writeModsCalls : list string
}.

(** [!!manifest.components['pinax.json']] *)
Definition hasPinax (manifest : ArkeManifest.t) : bool :=
  match ArkeManifest.components manifest !! "pinax.json" with
  | Some cid => truthyString cid
  | None => false
  end.

Definition processEntity (w : World) (node : EntityNode.t) (sh : Shared)
  : Settled ProcessResult * Shared :=
  match fetchManifest w (EntityNode.pi node) with
  | Rejected e => (Rejected e, sh)
  | Fulfilled manifest =>
      let hasPinax := hasPinax manifest in
      match exportEntity w (EntityNode.pi node) with
      | Rejected e => (Rejected e, sh)
      | Fulfilled modsXml =>
          let calls := writeModsCalls sh ++ [EntityNode.pi node] in
          match ModsCollectionWriter.writeMods modsXml node (writer sh) with
          | (Rejected e, wr) =>
              (Rejected e,
               {| writer := wr;
                  incompleteRecords := incompleteRecords sh;
                  writeModsCalls := calls |})
          | (Fulfilled _, wr) =>
              (Fulfilled
                 {| children := ArkeManifest.children_pi manifest;
                    isIncomplete := negb hasPinax;
                    incompleteReason :=
                      if hasPinax then None else Some "Missing PINAX metadata" |},
               {| writer := wr;
                  incompleteRecords :=
                    if hasPinax then incompleteRecords sh
                    else incompleteRecords sh ++
                           [ (EntityNode.pi node,
                              "Missing PINAX metadata (pinax.json component not found)") ];
                  writeModsCalls := calls |})
          end
      end
  end.

(** [Promise.allSettled(batch.map(node => this.processEntity(...)))]: every
    task of the batch runs to its end and the outcomes come back in batch
    order.  The tasks are run here one after the other in batch order;
    another interleaving changes the order of the records in the sink and
    of [incompleteRecords], nothing else. *)
Fixpoint allSettled (w : World) (batch : list EntityNode.t) (sh : Shared)
  : list (Settled ProcessResult) * Shared :=
  match batch with
  | [] => ([], sh)
  | node :: rest =>
      let '(r, sh1) := processEntity w node sh in
      let '(rs, sh2) := allSettled w rest sh1 in
      (r :: rs, sh2)
  end.

(** The state the coordinating loop owns.  [enqueued] and [settled] are
    bookkeeping of the model: every node ever pushed on the queue (the
    root first), and every node handled together with its outcome, both in
    order. *)
Record Traversal := mkTraversal {
  queue : list EntityNode.t;
  visited : gset string;
  entityCount : nat;
  successCount : nat;
  incompleteCount : nat;
  errors : list (string * string);
  enqueued : list EntityNode.t;
  settled : list (EntityNode.t * Settled ProcessResult)
}.

(** The node pushed for a child: [{ pi: childPI, depth: node.depth + 1,
    parentPI: node.pi, pathFromRoot: [...node.pathFromRoot, childPI] }]. *)
Definition childNode (node : EntityNode.t) (childPI : string) : EntityNode.t :=
  {| EntityNode.pi := childPI;
     EntityNode.depth := EntityNode.depth node + 1;
     EntityNode.parentPI := Some (EntityNode.pi node);
     EntityNode.pathFromRoot := EntityNode.pathFromRoot node ++ [childPI] |}.

(** [if (!visited.has(childPI)) { queue.push({...}); visited.add(childPI); }] *)
Definition enqueueChild (node : EntityNode.t) (tr : Traversal) (childPI : string)
  : Traversal :=
  if bool_decide (childPI ∈ visited tr) then tr
  else
    {| queue := queue tr ++ [childNode node childPI];
       visited := visited tr ∪ {[ childPI ]};
       entityCount := entityCount tr;
       successCount := successCount tr;
       incompleteCount := incompleteCount tr;
       errors := errors tr;
       enqueued := enqueued tr ++ [childNode node childPI];
       settled := settled tr |}.

Definition enqueueChildren (options : RecursiveOptions.t) (node : EntityNode.t)
           (value : ProcessResult) (tr : Traversal) : Traversal :=
  match children value with
  | Some cs =>
      if EntityNode.depth node <? RecursiveOptions.maxDepth options
      then fold_left (enqueueChild node) cs tr
      else tr
  | None => tr
  end.

(** The body of the loop over [results]. *)
Definition handleResult (options : RecursiveOptions.t) (node : EntityNode.t)
           (result : Settled ProcessResult) (tr : Traversal) : Traversal :=
  let tr :=
    {| queue := queue tr;
       visited := visited tr;
       entityCount := S (entityCount tr);
       successCount := successCount tr;
       incompleteCount := incompleteCount tr;
       errors := errors tr;
       enqueued := enqueued tr;
       settled := settled tr ++ [(node, result)] |} in
  match result with
  | Fulfilled value =>
      let tr :=
        {| queue := queue tr;
           visited := visited tr;
           entityCount := entityCount tr;
           successCount := S (successCount tr);
           incompleteCount :=
             if isIncomplete value then S (incompleteCount tr)
             else incompleteCount tr;
           errors := errors tr;
           enqueued := enqueued tr;
           settled := settled tr |} in
      enqueueChildren options node value tr
  | Rejected errorMsg =>
      {| queue := queue tr;
         visited := visited tr;
         entityCount := entityCount tr;
         successCount := successCount tr;
         incompleteCount := incompleteCount tr;
         errors := errors tr ++ [(EntityNode.pi node, errorMsg)];
         enqueued := enqueued tr;
         settled := settled tr |}
  end.

(** [for (let j = 0; j < results.length; j++)] with [node = batch[j]] *)
Fixpoint handleResults (options : RecursiveOptions.t) (batch : list EntityNode.t)
         (results : list (Settled ProcessResult)) (tr : Traversal) : Traversal :=
  match batch, results with
  | node :: batch', result :: results' =>
      handleResults options batch' results' (handleResult options node result tr)
  | _, _ => tr
  end.

(** [extractCurrentLevel]: the nodes at the front of the queue that share
    the depth of the first one, and the queue that is left. *)
Fixpoint takeDepth (d : Z) (q : list EntityNode.t)
  : list EntityNode.t * list EntityNode.t :=
  match q with
  | n :: q' =>
      if bool_decide (EntityNode.depth n = d)
      then let '(level, rest) := takeDepth d q' in (n :: level, rest)
      else ([], q)
  | [] => ([], [])
  end.

Definition extractCurrentLevel (q : list EntityNode.t)
  : list EntityNode.t * list EntityNode.t :=
  match q with
  | [] => ([], [])
  | first :: _ => takeDepth (EntityNode.depth first) q
  end.

Definition setQueue (q : list EntityNode.t) (tr : Traversal) : Traversal :=
  {| queue := q;
     visited := visited tr;
     entityCount := entityCount tr;
     successCount := successCount tr;
     incompleteCount := incompleteCount tr;
     errors := errors tr;
     enqueued := enqueued tr;
     settled := settled tr |}.

(** [for (let i = 0; i < currentLevel.length; i += parallelBatchSize)].
    The loop has no bound of its own: [fuel] counts the iterations allowed,
    and [None] says they did not suffice. *)
Fixpoint batchLoop (fuel : nat) (w : World) (options : RecursiveOptions.t)
         (currentLevel : list EntityNode.t) (i : Z) (st : Traversal * Shared)
  : option (Traversal * Shared) :=
  if i <? Z.of_nat (length currentLevel) then
    match fuel with
    | O => None
    | S fuel' =>
        let batch :=
          jsSlice currentLevel i (i + RecursiveOptions.parallelBatchSize options) in
        let '(results, sh) := allSettled w batch (snd st) in
        let tr := handleResults options batch results (fst st) in
        batchLoop fuel' w options currentLevel
                  (i + RecursiveOptions.parallelBatchSize options) (tr, sh)
    end
  else Some st.

(** [while (queue.length > 0)]; [fuel] bounds the iterations of this loop
    and [batchFuel] those of each inner loop. *)
Fixpoint levelLoop (fuel batchFuel : nat) (w : World) (options : RecursiveOptions.t)
         (st : Traversal * Shared) : option (Traversal * Shared) :=
  match queue (fst st) with
  | [] => Some st
  | _ :: _ =>
      match fuel with
      | O => None
      | S fuel' =>
          let '(currentLevel, rest) := extractCurrentLevel (queue (fst st)) in
          match batchLoop batchFuel w options currentLevel 0
                          (setQueue rest (fst st), snd st) with
          | None => None
          | Some st' => levelLoop fuel' batchFuel w options st'
          end
      end
  end.

Definition rootNode (rootPI : string) : EntityNode.t :=
  {| EntityNode.pi := rootPI;
     EntityNode.depth := 0;
     EntityNode.parentPI := None;
     EntityNode.pathFromRoot := [rootPI] |}.

Definition initialTraversal (rootPI : string) (errors : list (string * string))
  : Traversal :=
  {| queue := [rootNode rootPI];
     visited := {[ rootPI ]};
     entityCount := 0;
     successCount := 0;
     incompleteCount := 0;
     errors := errors;
     enqueued := [rootNode rootPI];
     settled := [] |}.

Definition traverseBFS (fuel : nat) (w : World) (rootPI : string)
           (options : RecursiveOptions.t) (errors : list (string * string))
           (sh : Shared) : option (Traversal * Shared) :=
  levelLoop fuel fuel w options (initialTraversal rootPI errors, sh).

Definition summary (outputPath : string) (tr : Traversal) (sh : Shared)
  : RecursiveExportResult.t :=
  {| RecursiveExportResult.totalEntities := entityCount tr;
     RecursiveExportResult.successCount := successCount tr;
     RecursiveExportResult.errorCount := length (errors tr);
     RecursiveExportResult.incompleteCount := incompleteCount tr;
     RecursiveExportResult.outputPath := outputPath;
     RecursiveExportResult.errors := errors tr;
     RecursiveExportResult.incompleteRecords := incompleteRecords sh |}.

(** [exportRecursive], from the writer state [wr] the exporter holds.  The
    outcome comes with what the tasks shared, the writer included. *)
Definition exportRecursive (fuel : nat) (w : World) (wr : ModsCollectionWriter.t)
           (rootPI outputPath : string) (options : RecursiveOptions.t)
  : option (Settled RecursiveExportResult.t * Shared) :=
  match ModsCollectionWriter.open outputPath wr with
  | (Rejected e, wr1) =>
      Some (Rejected e,
            {| writer := wr1; incompleteRecords := []; writeModsCalls := [] |})
  | (Fulfilled _, wr1) =>
      let sh0 :=
        {| writer := wr1; incompleteRecords := []; writeModsCalls := [] |} in
      match traverseBFS fuel w rootPI options [] sh0 with
      | None => None
      | Some (tr, sh) =>
          match ModsCollectionWriter.close (writer sh) with
          | (Fulfilled _, wr2) =>
              Some (Fulfilled (summary outputPath tr sh),
                    {| writer := wr2;
                       incompleteRecords := incompleteRecords sh;
                       writeModsCalls := writeModsCalls sh |})
          | (Rejected e, wr2) =>
              Some (Rejected e,
                    {| writer := snd (ModsCollectionWriter.close wr2);
                       incompleteRecords := incompleteRecords sh;
                       writeModsCalls := writeModsCalls sh |})
          end
      end
  end.

End RecursiveModsExporter.

(** ** Vocabulary of the traversal properties *)

Module TraversalSpec.
Import RecursiveModsExporter.

(** The three classes of the specification: a fulfilled task is a success,
    or incomplete when the PINAX record was missing; a rejected task is an
    error. *)
Inductive Classification := success | incomplete | error.

Global Instance Classification_eq_dec : EqDecision Classification.
Proof. solve_decision. Defined.

Definition classify (r : Settled ProcessResult) : Classification :=
  match r with
  | Fulfilled v => if isIncomplete v then incomplete else success
  | Rejected _ => error
  end.

Definition countClass (c : Classification)
           (log : list (EntityNode.t * Settled ProcessResult)) : nat :=
  length (filter (fun x => classify (snd x) = c) log).

(** The [errors] entries a log of outcomes gives rise to. *)
Definition errorEntries (log : list (EntityNode.t * Settled ProcessResult))
  : list (string * string) :=
  omap (fun x => match snd x with
                 | Rejected e => Some (EntityNode.pi (fst x), e)
                 | Fulfilled _ => None
                 end) log.

(** One node of a batch from task to bookkeeping: its task runs, then its
    outcome is handled. *)
Definition stepNode (w : World) (options : RecursiveOptions.t)
           (st : Traversal * Shared) (node : EntityNode.t) : Traversal * Shared :=
  let '(r, sh) := processEntity w node (snd st) in
  (handleResult options node r (fst st), sh).

(** The task of a node gets as far as the [writeMods] call. *)
Definition reachesWrite (w : World) (node : EntityNode.t) : bool :=
  isFulfilled (fetchManifest w (EntityNode.pi node))
  && isFulfilled (exportEntity w (EntityNode.pi node)).

(** Every document the single-entity export hands over has a [<mods]
    element, as the serializer renders the [mods] key of the object it is
    given. *)
Definition exportsHaveMods (w : World) : Prop :=
  forall pi xml,
    exportEntity w pi = Fulfilled xml ->
    isFulfilled (ModsCollectionWriter.extractModsElement xml) = true.

(** The invariant of the traversal.  [pending] is the part of the current
    level that is still to be handled and [d] the depth of that level. *)
Record Inv (w : World) (options : RecursiveOptions.t) (rootPI : string)
       (errors0 : list (string * string)) (tr : Traversal)
       (pending : list EntityNode.t) (d : Z) : Prop := mkInv {
  inv_root : exists rest, enqueued tr = rootNode rootPI :: rest;
  inv_log : enqueued tr = map fst (settled tr) ++ pending ++ queue tr;
  inv_nodup : NoDup (map EntityNode.pi (enqueued tr));
  inv_visited : forall x, x ∈ visited tr <-> x ∈ map EntityNode.pi (enqueued tr);
  inv_entityCount : entityCount tr = length (settled tr);
  inv_successCount :
    successCount tr = (countClass success (settled tr)
                       + countClass incomplete (settled tr))%nat;
  inv_incompleteCount : incompleteCount tr = countClass incomplete (settled tr);
  inv_errors : errors tr = errors0 ++ errorEntries (settled tr);
  inv_parent :
    forall n, n ∈ enqueued tr ->
      n = rootNode rootPI
      \/ exists p v cs,
           (p, Fulfilled v) ∈ settled tr
           /\ children v = Some cs
           /\ EntityNode.pi n ∈ cs
           /\ EntityNode.depth p < RecursiveOptions.maxDepth options
           /\ n = childNode p (EntityNode.pi n);
  inv_outcome :
    forall n r, (n, r) ∈ settled tr ->
      exists sh sh', processEntity w n sh = (r, sh');
  inv_children :
    forall p v cs c,
      (p, Fulfilled v) ∈ settled tr ->
      children v = Some cs ->
      EntityNode.depth p < RecursiveOptions.maxDepth options ->
      c ∈ cs -> c ∈ visited tr;
  inv_depth_pending : forall n, n ∈ pending -> EntityNode.depth n = d;
  inv_depth_queue : forall n, n ∈ queue tr -> EntityNode.depth n = d + 1;
  inv_depth_bound :
    -1 <= d /\ (queue tr <> [] -> d + 1 <= Z.max 0 (RecursiveOptions.maxDepth options))
}.

(** The invariant of what the tasks share, from the shared state [sh0]
    the traversal starts with. *)
Record SharedInv (w : World) (sh0 : Shared) (tr : Traversal) (sh : Shared)
  : Prop := mkSharedInv {
  sinv_open :
    ModsCollectionWriter.isOpen (writer sh0) = true ->
    is_Some (ModsCollectionWriter.stream (writer sh0)) ->
    ModsCollectionWriter.isOpen (writer sh) = true
    /\ is_Some (ModsCollectionWriter.stream (writer sh));
  sinv_calls :
    writeModsCalls sh =
      writeModsCalls sh0
        ++ map EntityNode.pi (filter (fun n => reachesWrite w n = true)
                                     (map fst (settled tr)));
  sinv_chunks :
    forall s0, ModsCollectionWriter.stream (writer sh0) = Some s0 ->
      exists s records,
        ModsCollectionWriter.stream (writer sh) = Some s
        /\ ModsCollectionWriter.chunks s = ModsCollectionWriter.chunks s0 ++ records
        /\ length records = (countClass success (settled tr)
                             + countClass incomplete (settled tr))%nat;
  sinv_fulfilled :
    ModsCollectionWriter.isOpen (writer sh0) = true ->
    is_Some (ModsCollectionWriter.stream (writer sh0)) ->
    exportsHaveMods w ->
    forall n r, (n, r) ∈ settled tr -> isFulfilled r = reachesWrite w n
}.

(** The state after one more level: the whole queue is taken as the level
    and its nodes are handled in order. *)
Definition afterLevel (w : World) (options : RecursiveOptions.t)
           (st : Traversal * Shared) : Traversal * Shared :=
  fold_left (stepNode w options) (queue (fst st)) (setQueue [] (fst st), snd st).

(** The writer once [open] has run, and what the tasks share when the
    traversal of [exportRecursive] starts. *)
Definition openedWriter (outputPath : string) : ModsCollectionWriter.t :=
  {| ModsCollectionWriter.stream :=
       Some {| ModsCollectionWriter.path := outputPath;
               ModsCollectionWriter.chunks := ModsCollectionWriter.header;
               ModsCollectionWriter.ended := false |};
     ModsCollectionWriter.isOpen := true |}.

Definition startShared (outputPath : string) : Shared :=
  {| writer := openedWriter outputPath;
     incompleteRecords := [];
     writeModsCalls := [] |}.

Definition closedShared (sh : Shared) : Shared :=
  {| writer := snd (ModsCollectionWriter.close (writer sh));
     incompleteRecords := incompleteRecords sh;
     writeModsCalls := writeModsCalls sh |}.

End TraversalSpec.

(** ** Sample inputs *)

Module Samples.
Import RecursiveModsExporter.

Definition manifestOf (pi : string) (pinax : bool) (kids : option (list string))
  : ArkeManifest.t :=
  {| ArkeManifest.pi := pi;
     ArkeManifest.ver := 1;
     ArkeManifest.ts := "2025-01-01T00:00:00Z";
     ArkeManifest.manifest_cid := "bafy-" +:+ pi;
     ArkeManifest.prev_cid := None;
     ArkeManifest.components :=
       if pinax then {[ "pinax.json" := "bafy-pinax-" +:+ pi ]} else ∅;
     ArkeManifest.children_pi := kids;
     ArkeManifest.parent_pi := None;
     ArkeManifest.note := None |}.

Definition sampleXml : string :=
  "<?xml version='1.0' encoding='UTF-8'?>" +:+ Str.nl
    +:+ "<mods xmlns='http://www.loc.gov/mods/v3'>" +:+ Str.nl
    +:+ "  <titleInfo/>" +:+ Str.nl +:+ "</mods>".

(** A root with two children that share a grandchild; one grandchild has
    no PINAX record, one cannot be fetched, and one lists the root as its
    child. *)
Definition sampleWorld : World :=
  {| fetchManifest := fun pi =>
       if bool_decide (pi = "R") then Fulfilled (manifestOf pi true (Some ["A"; "B"]))
       else if bool_decide (pi = "A") then Fulfilled (manifestOf pi true (Some ["C"; "D"]))
       else if bool_decide (pi = "B")
            then Fulfilled (manifestOf pi true (Some ["D"; "E"; "E"]))
       else if bool_decide (pi = "C") then Fulfilled (manifestOf pi false None)
       else if bool_decide (pi = "D") then Fulfilled (manifestOf pi true (Some ["R"]))
       else Rejected "Failed to fetch manifest: 404 Not Found";
     exportEntity := fun _ => Fulfilled sampleXml |}.

(** A root without a PINAX record that lists two children: one has no
    PINAX record either and lists a child of its own, the other cannot be
    fetched. *)
Definition incompleteWorld : World :=
  {| fetchManifest := fun pi =>
       if bool_decide (pi = "R") then Fulfilled (manifestOf pi false (Some ["A"; "B"]))
       else if bool_decide (pi = "A") then Fulfilled (manifestOf pi false (Some ["C"]))
       else if bool_decide (pi = "C") then Fulfilled (manifestOf pi true None)
       else Rejected "Failed to fetch manifest: 404 Not Found";
     exportEntity := fun _ => Fulfilled sampleXml |}.

(** A single entity without a PINAX record. *)
Definition loneWorld : World :=
  {| fetchManifest := fun pi => Fulfilled (manifestOf pi false None);
     exportEntity := fun _ => Fulfilled sampleXml |}.

Definition sampleOptions : RecursiveOptions.t :=
  {| RecursiveOptions.maxDepth := 5;
     RecursiveOptions.parallelBatchSize := 2;
     RecursiveOptions.includeParent := true;
     RecursiveOptions.traversalMode := RecursiveOptions.breadthFirst |}.

Definition samplePinax : PinaxMetadata.t :=
  {| PinaxMetadata.id := "01K9CRZD86";
     PinaxMetadata.title := "Field notes";
     PinaxMetadata.type := "Image";
     PinaxMetadata.creator := One "A. Author";
     PinaxMetadata.institution := "Arke Institute";
     PinaxMetadata.created := "1923-04-01";
     PinaxMetadata.access_url := "PLACEHOLDER";
     PinaxMetadata.language := Some "en";
     PinaxMetadata.subjects := Some ["botany"];
     PinaxMetadata.description := None;
     PinaxMetadata.source := None;
     PinaxMetadata.rights := None;
     PinaxMetadata.place := None |}.

Definition sampleConfig : ExportConfig.t :=
  {| ExportConfig.apiUrl := "https://api.arke.institute";
     ExportConfig.ipfsGateway := "https://ipfs.arke.institute";
     ExportConfig.cdnUrl := "https://cdn.arke.institute";
     ExportConfig.includeOcr := true;
     ExportConfig.cheimarrosMode := ExportConfig.full;
     ExportConfig.validate := false;
     ExportConfig.verbose := true |}.

(** Collaborators of a single-entity export in which no entity has a PINAX
    record. *)
Definition sampleCollaborators : ModsExporter.Collaborators :=
  {| ModsExporter.fetchManifest := fun pi => Fulfilled (manifestOf pi false None);
     ModsExporter.fetchIpfsPinax := fun _ => None;
     ModsExporter.fetchIpfsContent := fun _ => None;
     ModsExporter.processCheimarros := fun _ => None;
     ModsExporter.linkAll := fun _ =>
       {| ModsExporter.refJsonItems := [];
          ModsExporter.parentItem := None;
          ModsExporter.childItems := [];
          ModsExporter.childNote := None;
          ModsExporter.otherItems := [];
          ModsExporter.componentNote :=
            {| ModsNote.text := "Components: 0";
               ModsNote.type := "component-inventory";
               ModsNote.displayLabel := "Component Inventory" |} |};
     ModsExporter.generate := fun _ => sampleXml;
     ModsExporter.today := "2025-01-01" |}.

End Samples.

(** ** More text utilities ([estimateByteSize], [exceedsMaxLength],
    [normalizeText]) and their use on descriptions *)

Module TextUtilsMore.
Import TextUtils.

(** [estimateByteSize]: one to four bytes per code unit. *)
Definition unitBytes (code : N) : Z :=
  if (code <? 128)%N then 1
  else if (code <? 2048)%N then 2
  else if (code <? 55296)%N || (57344 <=? code)%N then 3
  else 4.

Definition estimateByteSize (t : jsstring) : Z :=
  fold_left (fun size code => size + unitBytes code) t 0.

(** [exceedsMaxLength]: [null], [undefined] and the empty string never
    exceed. *)
Definition exceedsMaxLength (t : option jsstring) (maxLength : Z) : bool :=
  match t with
  | None | Some [] => false
  | Some t => maxLength <? len t
  end.

(** [.replace(/\r\n/g, '\n')] *)
Fixpoint replaceCrLf (t : jsstring) : jsstring :=
  match t with
  | u :: rest =>
      match rest with
      | v :: rest' =>
          if (u =? 13)%N && (v =? 10)%N then 10%N :: replaceCrLf rest'
          else u :: replaceCrLf rest
      | [] => [u]
      end
  | [] => []
  end.

(** [.replace(/\r/g, '\n')] *)
Definition replaceCr (t : jsstring) : jsstring :=
  map (fun u => if (u =? 13)%N then 10%N else u) t.

(** [.replace(/\n{3,}/g, '\n\n')]: a run of three or more line feeds becomes
    two, a shorter run stays.  [run] is the number of line feeds of the
    current run that were let through. *)
Fixpoint collapseLineFeeds (run : nat) (t : jsstring) : jsstring :=
  match t with
  | u :: rest =>
      if (u =? 10)%N then
        if (run <? 2)%nat then u :: collapseLineFeeds (S run) rest
        else collapseLineFeeds run rest
      else u :: collapseLineFeeds 0 rest
  | [] => []
  end.

Definition normalizeText (t : jsstring) : jsstring :=
  match t with
  | [] => []
  | _ => trim (collapseLineFeeds 0 (replaceCr (replaceCrLf t)))
  end.

(** The description of [PinaxExporter.exportEntity]: truncated when it
    exceeds the limit, normalized otherwise; the flag is
    [description_truncated]. *)
Definition prepareDescription (description : option jsstring) (maxTextLength : Z)
  : option jsstring * bool :=
  match description with
  | None => (None, false)
  | Some [] => (Some [], false)
  | Some d =>
      if exceedsMaxLength (Some d) maxTextLength then
        let result := truncateText d maxTextLength in
        (Some (text result), truncated result)
      else (Some (normalizeText d), false)
  end.

End TextUtilsMore.

(** ** Component linker ([ComponentLinker]) and the [.ref.json] fetch *)

Module ArkeRefJson.
Record t := mk {
  url : string;
  ipfs_cid : string;
  type : string;
  size : Z;
  filename : string;
  ocr : option string
}.
End ArkeRefJson.

Module ComponentLinker.

(** [ArkeApiClient.getArkeUrl], [getIpfsUrl] and [getCatUrl]. *)
Definition getArkeUrl (pi : string) : string := "https://arke.institute/" +:+ pi.

Definition getIpfsUrl (config : ExportConfig.t) (cid : string) : string :=
  ExportConfig.ipfsGateway config +:+ "/ipfs/" +:+ cid.

Definition getCatUrl (config : ExportConfig.t) (cid : string) : string :=
  ExportConfig.apiUrl config +:+ "/cat/" +:+ cid.

(** [key.endsWith('.ref.json')] *)
Definition isRefJsonKey (key : string) : bool := Str.endsWith ".ref.json" key.

(** [ArkeApiClient.fetchRefJsonFiles]: the components whose key ends in
    [.ref.json] and whose content is fetched and parsed; a failure is
    caught and the key left out.  [fetchIpfsJson] is the gateway. *)
Definition fetchRefJsonFiles (fetchIpfsJson : string -> option ArkeRefJson.t)
           (manifest : ArkeManifest.t) : gmap string ArkeRefJson.t :=
  omap fetchIpfsJson
       (filter (fun kv => isRefJsonKey kv.1 = true) (ArkeManifest.components manifest)).

Definition linkParent (manifest : ArkeManifest.t) : option ModsRelatedItem.t :=
  match ArkeManifest.parent_pi manifest with
  | Some parent =>
      if truthyString parent then
        Some {| ModsRelatedItem.type := "host";
                ModsRelatedItem.displayLabel := Some "Parent Entity";
                ModsRelatedItem.titleInfo := None;
                ModsRelatedItem.identifiers :=
                  [ {| ModsIdentifier.value := parent;
                       ModsIdentifier.type := "arke-pi";
                       ModsIdentifier.displayLabel := "Parent PI" |} ];
                ModsRelatedItem.location :=
                  Some {| ModsLocation.physicalLocation := None;
                          ModsLocation.urls :=
                            [ {| ModsUrl.url := getArkeUrl parent;
                                 ModsUrl.usage := None;
                                 ModsUrl.access := None;
                                 ModsUrl.displayLabel := Some "View Parent in Arke" |} ] |};
                ModsRelatedItem.physicalDescription := None;
                ModsRelatedItem.notes := [] |}
      else None
  | None => None
  end.

(** The item [linkChildren] builds for the child at [index]. *)
Definition childItem (index : nat) (childPi : string) : ModsRelatedItem.t :=
  {| ModsRelatedItem.type := "constituent";
     ModsRelatedItem.displayLabel := Some ("Child Entity " +:+ pretty (index + 1)%nat);
     ModsRelatedItem.titleInfo := None;
     ModsRelatedItem.identifiers :=
       [ {| ModsIdentifier.value := childPi;
            ModsIdentifier.type := "arke-pi";
            ModsIdentifier.displayLabel := "Child PI" |} ];
     ModsRelatedItem.location :=
       Some {| ModsLocation.physicalLocation := None;
               ModsLocation.urls :=
                 [ {| ModsUrl.url := getArkeUrl childPi;
                      ModsUrl.usage := None;
                      ModsUrl.access := None;
                      ModsUrl.displayLabel := Some "View Child in Arke" |} ] |};
     ModsRelatedItem.physicalDescription := None;
     ModsRelatedItem.notes := [] |}.

Definition linkChildren (manifest : ArkeManifest.t) : list ModsRelatedItem.t :=
  match ArkeManifest.children_pi manifest with
  | None | Some [] => []
  | Some children => imap childItem children
  end.

Definition createChildInventoryNote (manifest : ArkeManifest.t) : option ModsNote.t :=
  match ArkeManifest.children_pi manifest with
  | None | Some [] => None
  | Some children =>
      Some {| ModsNote.text := pretty (length children) +:+ " child entities";
              ModsNote.type := "children-inventory";
              ModsNote.displayLabel := "Child Entities" |}
  end.

Definition skipKeys : gset string :=
  {[ "pinax.json"; "description.md"; "cheimarros.json"; "cheimarros-raw.txt";
     "reorganization-description.txt" ]}.

(** The item [linkOtherComponents] builds for one component. *)
Definition otherItem (config : ExportConfig.t) (key cid : string) : ModsRelatedItem.t :=
  {| ModsRelatedItem.type := "constituent";
     ModsRelatedItem.displayLabel := Some key;
     ModsRelatedItem.titleInfo := None;
     ModsRelatedItem.identifiers :=
       [ {| ModsIdentifier.value := cid;
            ModsIdentifier.type := "ipfs-cid";
            ModsIdentifier.displayLabel := "IPFS CID" |};
         {| ModsIdentifier.value := getIpfsUrl config cid;
            ModsIdentifier.type := "uri";
            ModsIdentifier.displayLabel := "IPFS Gateway URL" |};
         {| ModsIdentifier.value := getCatUrl config cid;
            ModsIdentifier.type := "uri";
            ModsIdentifier.displayLabel := "API URL" |} ];
     ModsRelatedItem.location := None;
     ModsRelatedItem.physicalDescription := None;
     ModsRelatedItem.notes := [] |}.

(** [linkOtherComponents].  [Object.entries] enumerates the components in
    property order; the map here keeps no such order and the entries come
    in the order of [map_to_list], so only what does not depend on the
    order is stated about the result. *)
Definition linkOtherComponents (config : ExportConfig.t) (manifest : ArkeManifest.t)
           (refJsonKeys : gset string) : list ModsRelatedItem.t :=
  map (fun kv => otherItem config kv.1 kv.2)
      (filter (fun kv => ~ (kv.1 ∈ refJsonKeys \/ kv.1 ∈ skipKeys))
              (map_to_list (ArkeManifest.components manifest))).

End ComponentLinker.

(** ** Batch utilities ([processBatch], [processBatchWithErrors])

    A processor is an asynchronous function of the item; what it settles to
    is given as a function of the item. *)

Module BatchUtils.

(** [Promise.all] over the outcomes of the tasks of a batch: the values in
    order when every task is fulfilled, a rejection otherwise.  The reason
    is that of the task that rejects first in time; the model takes the
    first in batch order. *)
Fixpoint promiseAll {R} (outcomes : list (Settled R)) : Settled (list R) :=
  match outcomes with
  | [] => Fulfilled []
  | Fulfilled value :: rest =>
      match promiseAll rest with
      | Fulfilled values => Fulfilled (value :: values)
      | Rejected e => Rejected e
      end
  | Rejected e :: _ => Rejected e
  end.

(** [for (let i = 0; i < items.length; i += batchSize)] of [processBatch];
    [fuel] counts the iterations allowed and [None] says they did not
    suffice. *)
Fixpoint processBatchLoop {T R} (fuel : nat) (items : list T) (batchSize : Z)
         (processor : T -> Settled R) (i : Z) (results : list R)
  : option (Settled (list R)) :=
  if i <? Z.of_nat (length items) then
    match fuel with
    | O => None
    | S fuel' =>
        let batch := jsSlice items i (i + batchSize) in
        match promiseAll (map processor batch) with
        | Fulfilled batchResults =>
            processBatchLoop fuel' items batchSize processor (i + batchSize)
                             (results ++ batchResults)
        | Rejected e => Some (Rejected e)
        end
    end
  else Some (Fulfilled results).

Definition processBatch {T R} (fuel : nat) (items : list T) (batchSize : Z)
           (processor : T -> Settled R) : option (Settled (list R)) :=
  processBatchLoop fuel items batchSize processor 0 [].

(** What [processBatchWithErrors] resolves to.  The [results] map is looked
    up by key; the order of its entries is not kept. *)
Record BatchOutcome (T K V : Type) `{Countable K} := mkBatchOutcome {
  results : gmap K V;
  errors : list (T * string)
}.
Arguments mkBatchOutcome {T K V _ _} results errors.
Arguments results {T K V _ _} _.
Arguments errors {T K V _ _} _.

(** [for (let j = 0; j < batchResults.length; j++)] with [batch[j]] *)
Fixpoint collect {T K V} `{Countable K} (batch : list T)
         (batchResults : list (Settled (K * V))) (acc : BatchOutcome T K V)
  : BatchOutcome T K V :=
  match batch, batchResults with
  | item :: batch', result :: batchResults' =>
      collect batch' batchResults'
              match result with
              | Fulfilled (key, value) =>
                  {| results := <[key := value]> (results acc);
                     errors := errors acc |}
              | Rejected reason =>
                  {| results := results acc;
                     errors := errors acc ++ [(item, reason)] |}
              end
  | _, _ => acc
  end.

Fixpoint processBatchWithErrorsLoop {T K V} `{Countable K} (fuel : nat)
         (items : list T) (batchSize : Z) (processor : T -> Settled (K * V))
         (i : Z) (acc : BatchOutcome T K V) : option (BatchOutcome T K V) :=
  if i <? Z.of_nat (length items) then
    match fuel with
    | O => None
    | S fuel' =>
        let batch := jsSlice items i (i + batchSize) in
        let batchResults := map processor batch in
        processBatchWithErrorsLoop fuel' items batchSize processor (i + batchSize)
                                   (collect batch batchResults acc)
    end
  else Some acc.

Definition processBatchWithErrors {T K V} `{Countable K} (fuel : nat)
           (items : list T) (batchSize : Z) (processor : T -> Settled (K * V))
  : option (BatchOutcome T K V) :=
  processBatchWithErrorsLoop fuel items batchSize processor 0
                             {| results := ∅; errors := [] |}.

End BatchUtils.

(** ** Tree export to JSON ([PinaxExporter])

    The tree of exported entities with what decides its shape: manifests,
    depths and children.  The linked entities and the component list of an
    entity are fetched by calls that catch their own failures and have no
    part in the shape of the tree; they are left out. *)

Module PinaxExporter.

Record Options := mkOptions {
  recursive : bool;
  maxDepth : Z;
  maxTextLength : Z;
  parallelBatchSize : Z
}.

(** The defaults of the constructor: [options.recursive ?? false],
    [Math.min(options.maxDepth ?? 10, 50)],
    [options.maxTextLength ?? 100000], [options.parallelBatchSize ?? 10]. *)
Definition resolveOptions (recursive : option bool)
           (maxDepth maxTextLength parallelBatchSize : option Z) : Options :=
  {| recursive := default false recursive;
     maxDepth := Z.min (default 10 maxDepth) 50;
     maxTextLength := default 100000 maxTextLength;
     parallelBatchSize := default 10 parallelBatchSize |}.

Local Unset Elimination Schemes.

Inductive ExportedEntity : Type :=
| mkExportedEntity (pi manifest_cid : string) (ver : Z) (ts : string) (depth : Z)
                   (pinax : option PinaxMetadata.t)
                   (description : option TextUtils.jsstring)
                   (description_truncated : bool)
                   (parent_pi : option string)
                   (children_count : nat)
                   (children : option (list ExportedEntity)).

Local Set Elimination Schemes.

Definition pi (e : ExportedEntity) : string :=
  match e with mkExportedEntity pi _ _ _ _ _ _ _ _ _ _ => pi end.

Definition depth (e : ExportedEntity) : Z :=
  match e with mkExportedEntity _ _ _ _ depth _ _ _ _ _ _ => depth end.

Definition pinax (e : ExportedEntity) : option PinaxMetadata.t :=
  match e with mkExportedEntity _ _ _ _ _ pinax _ _ _ _ _ => pinax end.

Definition description (e : ExportedEntity) : option TextUtils.jsstring :=
  match e with mkExportedEntity _ _ _ _ _ _ description _ _ _ _ => description end.

Definition description_truncated (e : ExportedEntity) : bool :=
  match e with mkExportedEntity _ _ _ _ _ _ _ truncated _ _ _ => truncated end.

Definition children_count (e : ExportedEntity) : nat :=
  match e with mkExportedEntity _ _ _ _ _ _ _ _ _ count _ => count end.

Definition children (e : ExportedEntity) : option (list ExportedEntity) :=
  match e with mkExportedEntity _ _ _ _ _ _ _ _ _ _ children => children end.

(** The entities of a tree, the root first. *)
Fixpoint nodes (e : ExportedEntity) : list ExportedEntity :=
  match e with
  | mkExportedEntity _ _ _ _ _ _ _ _ _ _ children =>
      e :: match children with
           | Some cs => flat_map nodes cs
           | None => []
           end
  end.

(** The calls of [ArkeApiClient] an entity export makes: [fetchManifest]
    may reject; [fetchPinax] and [fetchDescription] catch their failures
    and answer [null]. *)
Record Collaborators := mkCollaborators {
  fetchManifest : string -> Settled ArkeManifest.t;
  fetchPinax : ArkeManifest.t -> option PinaxMetadata.t;
  fetchDescription : ArkeManifest.t -> option TextUtils.jsstring
}.

(** [{ ...pinax, access_url: `https://arke.institute/${pi}` }] *)
Definition withAccessUrl (pi : string) (p : PinaxMetadata.t) : PinaxMetadata.t :=
  {| PinaxMetadata.id := PinaxMetadata.id p;
     PinaxMetadata.title := PinaxMetadata.title p;
     PinaxMetadata.type := PinaxMetadata.type p;
     PinaxMetadata.creator := PinaxMetadata.creator p;
     PinaxMetadata.institution := PinaxMetadata.institution p;
     PinaxMetadata.created := PinaxMetadata.created p;
     PinaxMetadata.access_url := "https://arke.institute/" +:+ pi;
     PinaxMetadata.language := PinaxMetadata.language p;
     PinaxMetadata.subjects := PinaxMetadata.subjects p;
     PinaxMetadata.description := PinaxMetadata.description p;
     PinaxMetadata.source := PinaxMetadata.source p;
     PinaxMetadata.rights := PinaxMetadata.rights p;
     PinaxMetadata.place := PinaxMetadata.place p |}.

(** [exportChildren]: the batches of children, each awaited with
    [Promise.all].  [exportOne] is the export of one child, [None] when it
    was not given iterations enough; [fuel] bounds the iterations of this
    loop. *)
Fixpoint exportChildren (fuel : nat)
         (exportOne : string -> option (Settled ExportedEntity))
         (childrenPis : list string) (batchSize : Z) (i : Z)
         (children : list ExportedEntity) : option (Settled (list ExportedEntity)) :=
  if i <? Z.of_nat (length childrenPis) then
    match fuel with
    | O => None
    | S fuel' =>
        let batch := jsSlice childrenPis i (i + batchSize) in
        match mapM exportOne batch with
        | None => None
        | Some outcomes =>
            match BatchUtils.promiseAll outcomes with
            | Fulfilled batchResults =>
                exportChildren fuel' exportOne childrenPis batchSize (i + batchSize)
                               (children ++ batchResults)
            | Rejected e => Some (Rejected e)
            end
        end
    end
  else Some (Fulfilled children).

(** [exportEntity]; [fuel] bounds the depth of the calls below this one
    and the iterations of each loop over children. *)
Fixpoint exportEntity (fuel : nat) (c : Collaborators) (options : Options)
         (pi : string) (depth : Z) : option (Settled ExportedEntity) :=
  match fetchManifest c pi with
  | Rejected e => Some (Rejected e)
  | Fulfilled manifest =>
      let pinax := withAccessUrl pi <$> fetchPinax c manifest in
      let '(description, descriptionTruncated) :=
        TextUtilsMore.prepareDescription (fetchDescription c manifest)
                                         (maxTextLength options) in
      let parent :=
        match ArkeManifest.parent_pi manifest with
        | Some p => if truthyString p then Some p else None
        | None => None
        end in
      let childrenPis := default [] (ArkeManifest.children_pi manifest) in
      let entity :=
        mkExportedEntity (ArkeManifest.pi manifest)
                         (ArkeManifest.manifest_cid manifest)
                         (ArkeManifest.ver manifest) (ArkeManifest.ts manifest)
                         depth pinax description descriptionTruncated parent
                         (length childrenPis) in
      if recursive options && (0 <? Z.of_nat (length childrenPis))
         && (depth <? maxDepth options) then
        match fuel with
        | O => None
        | S fuel' =>
            match exportChildren fuel'
                                 (fun childPi =>
                                    exportEntity fuel' c options childPi (depth + 1))
                                 childrenPis (parallelBatchSize options) 0 [] with
            | None => None
            | Some (Rejected e) => Some (Rejected e)
            | Some (Fulfilled children) => Some (Fulfilled (entity (Some children)))
            end
        end
      else Some (Fulfilled (entity None))
  end.

(** [export]: the tree from the root at depth 0. *)
Definition export (fuel : nat) (c : Collaborators) (options : Options) (pi : string)
  : option (Settled ExportedEntity) :=
  exportEntity fuel c options pi 0.

(** What holds at one entity of a tree: children are there only for a
    recursive export below [maxDepth], as many as the manifest listed, each
    one level further down. *)
Definition nodeOk (options : Options) (n : ExportedEntity) : Prop :=
  match children n with
  | Some cs =>
      recursive options = true
      /\ depth n < maxDepth options
      /\ cs <> []
      /\ children_count n = length cs
      /\ Forall (fun child => depth child = depth n + 1) cs
  | None => True
  end.

(** The entity was built from a manifest that was fetched. *)
Definition fromManifest (c : Collaborators) (n : ExportedEntity) : Prop :=
  exists requested manifest,
    fetchManifest c requested = Fulfilled manifest
    /\ pi n = ArkeManifest.pi manifest
    /\ children_count n = length (default [] (ArkeManifest.children_pi manifest))
    /\ pinax n = withAccessUrl requested <$> fetchPinax c manifest.

End PinaxExporter.

(** ** Further vocabulary of the traversal properties *)

Module TraversalMore.
Import RecursiveModsExporter TraversalSpec.

(** The chunk [writeMods] hands to the sink for a node: the [<mods]
    element of the node's export with the hierarchy metadata, and a line
    feed. *)
Definition recordOf (w : World) (node : EntityNode.t) : option string :=
  match exportEntity w (EntityNode.pi node) with
  | Fulfilled modsXml =>
      match ModsCollectionWriter.extractModsElement modsXml with
      | Fulfilled modsElement =>
          Some (ModsCollectionWriter.addHierarchyMetadata modsElement node +:+ Str.nl)
      | Rejected _ => None
      end
  | Rejected _ => None
  end.

(** The records of the nodes of a log whose task was fulfilled. *)
Definition records (w : World) (log : list (EntityNode.t * Settled ProcessResult))
  : list string :=
  omap (fun x => if isFulfilled (snd x) then recordOf w (fst x) else None) log.

(** The [incompleteRecords] entries a log of outcomes gives rise to. *)
Definition incompleteEntries (log : list (EntityNode.t * Settled ProcessResult))
  : list (string * string) :=
  omap (fun x =>
          if decide (classify (snd x) = incomplete)
          then Some (EntityNode.pi (fst x),
                     "Missing PINAX metadata (pinax.json component not found)")
          else None) log.

(** The path of a node leads from the root to the node and has one entry
    per level. *)
Definition pathFromRootOk (rootPI : string) (n : EntityNode.t) : Prop :=
  head (EntityNode.pathFromRoot n) = Some rootPI
  /\ last (EntityNode.pathFromRoot n) = Some (EntityNode.pi n)
  /\ Z.of_nat (length (EntityNode.pathFromRoot n)) = EntityNode.depth n + 1.

(** Nodes in level order: no node comes before a node of a smaller
    depth. *)
Definition levelOrder (l : list EntityNode.t) : Prop :=
  StronglySorted (fun a b => EntityNode.depth a <= EntityNode.depth b) l.

(** Every node pushed on the queue has a path from the root without a
    repeated entry, made of identifiers seen, and a depth of at least 0. *)
Definition pathsOk (rootPI : string) (tr : Traversal) : Prop :=
  forall n, n ∈ enqueued tr ->
    pathFromRootOk rootPI n
    /\ NoDup (EntityNode.pathFromRoot n)
    /\ (forall x, x ∈ EntityNode.pathFromRoot n -> x ∈ visited tr)
    /\ 0 <= EntityNode.depth n.

End TraversalMore.

(** ** Further sample inputs *)

Module MoreSamples.

(** A PINAX record with a description of its own and a language tag the
    crosswalk's table does not list. *)
Definition describedPinax : PinaxMetadata.t :=
  {| PinaxMetadata.id := "01K9CRZD87";
     PinaxMetadata.title := "Field notes, volume 2";
     PinaxMetadata.type := "Text";
     PinaxMetadata.creator := Many ["A. Author"; "B. Author"];
     PinaxMetadata.institution := "Arke Institute";
     PinaxMetadata.created := "1924-04-01";
     PinaxMetadata.access_url := "PLACEHOLDER";
     PinaxMetadata.language := Some "en-AU";
     PinaxMetadata.subjects := Some ["botany"; "travel"];
     PinaxMetadata.description := Some "Notes from the field.";
     PinaxMetadata.source := Some "archive";
     PinaxMetadata.rights := None;
     PinaxMetadata.place := Some (One "Sydney") |}.

Definition noLinks : ModsExporter.ComponentLinks :=
  {| ModsExporter.refJsonItems := [];
     ModsExporter.parentItem := None;
     ModsExporter.childItems := [];
     ModsExporter.childNote := None;
     ModsExporter.otherItems := [];
     ModsExporter.componentNote :=
       {| ModsNote.text := "Component inventory (1 files):" +:+ Str.nl +:+ "pinax.json";
          ModsNote.type := "component-inventory";
          ModsNote.displayLabel := "Component Files" |} |}.

(** Collaborators whose manifests list a [pinax.json] component; the
    gateway serves [describedPinax] for it when [readable] and fails
    otherwise. *)
Definition collaboratorsWithPinax (readable : bool) : ModsExporter.Collaborators :=
  {| ModsExporter.fetchManifest := fun pi => Fulfilled (Samples.manifestOf pi true None);
     ModsExporter.fetchIpfsPinax := fun _ =>
       if readable then Some describedPinax else None;
     ModsExporter.fetchIpfsContent := fun _ => None;
     ModsExporter.processCheimarros := fun _ => None;
     ModsExporter.linkAll := fun _ => noLinks;
     ModsExporter.generate := fun _ => Samples.sampleXml;
     ModsExporter.today := "2025-01-01" |}.

(** Options that stop the traversal at the root. *)
Definition rootOnlyOptions : RecursiveOptions.t :=
  {| RecursiveOptions.maxDepth := 0;
     RecursiveOptions.parallelBatchSize := 3;
     RecursiveOptions.includeParent := true;
     RecursiveOptions.traversalMode := RecursiveOptions.breadthFirst |}.

(** A processor that fetches the manifest of an identifier from the sample
    world and keys it by the identifier. *)
Definition keyedManifest (pi : string) : Settled (string * ArkeManifest.t) :=
  match RecursiveModsExporter.fetchManifest Samples.sampleWorld pi with
  | Fulfilled manifest => Fulfilled (pi, manifest)
  | Rejected e => Rejected e
  end.

(** A world whose exports carry no [<mods] element. *)
Definition emptyExportWorld : RecursiveModsExporter.World :=
  {| RecursiveModsExporter.fetchManifest := fun pi =>
       Fulfilled (Samples.manifestOf pi false (Some ["A"]));
     RecursiveModsExporter.exportEntity := fun _ => Fulfilled "<collection/>" |}.

(** A world in which every entity lists itself and the root as its
    children. *)
Definition cyclicCollaborators : PinaxExporter.Collaborators :=
  {| PinaxExporter.fetchManifest := fun pi =>
       Fulfilled (Samples.manifestOf pi true (Some [pi; "R"]));
     PinaxExporter.fetchPinax := fun _ => Some describedPinax;
     PinaxExporter.fetchDescription := fun _ =>
       Some (TextUtils.lit "hello brave new world") |}.

Definition treeOptions : PinaxExporter.Options :=
  PinaxExporter.resolveOptions (Some true) (Some 3) (Some 13) (Some 2).

(** Options with a batch size of 0. *)
Definition stuckOptions : RecursiveOptions.t :=
  {| RecursiveOptions.maxDepth := 5;
     RecursiveOptions.parallelBatchSize := 0;
     RecursiveOptions.includeParent := true;
     RecursiveOptions.traversalMode := RecursiveOptions.breadthFirst |}.

End MoreSamples.

(** * Properties *)

(** ** [truncateText] *)

Section TruncateFacts.
Import TextUtils.

Lemma trimStart_length t : (length (trimStart t) <= length t)%nat.
Proof.
  induction t as [|u t IH]; simpl; [lia|].
  destruct (isTrimmed u); simpl; lia.
Qed.

Lemma trim_length t : (length (trim t) <= length t)%nat.
Proof.
  unfold trim, trimEnd. rewrite length_rev.
  etransitivity; [apply trimStart_length|].
  rewrite length_rev. apply trimStart_length.
Qed.

Lemma slice_prefix t e :
  0 <= e <= len t -> slice t 0 e = take (Z.to_nat e) t.
Proof.
  intros He. unfold slice, jsSlice, clampIndex, len in *.
  destruct (0 <? 0) eqn:E0; [lia|].
  destruct (e <? 0) eqn:E1; [lia|].
  rewrite (Z.min_l e) by lia. rewrite (Z.min_l 0) by lia.
  rewrite Z.sub_0_r. reflexivity.
Qed.

(** What the look-back loop returns: the largest boundary index of the
    window, or the default when the window holds none. *)
Lemma lookBack_spec n t lim i d :
  Z.of_nat n = Z.max 0 (i - lim) ->
  (lim < lookBack n t lim i d <= i
   /\ isWordBoundary (charAt t (lookBack n t lim i d)) = true
   /\ forall j, lookBack n t lim i d < j <= i ->
                isWordBoundary (charAt t j) = false)
  \/ (lookBack n t lim i d = d
      /\ forall j, lim < j <= i -> isWordBoundary (charAt t j) = false).
Proof.
  revert i. induction n as [|n IH]; intros i Hn; simpl.
  - destruct (i >? lim) eqn:E; right; split; auto; intros j Hj; lia.
  - destruct (i >? lim) eqn:E; [|lia].
    destruct (isWordBoundary (charAt t i)) eqn:Hb.
    + left. split; [lia|]. split; [exact Hb|]. intros j Hj; lia.
    + destruct (IH (i - 1)) as [(H1 & H2 & H3)|(H1 & H2)]; [lia| |].
      * left. split; [lia|]. split; [exact H2|].
        intros j Hj. destruct (decide (j = i)) as [->|]; auto. apply H3; lia.
      * right. split; auto.
        intros j Hj. destruct (decide (j = i)) as [->|]; auto. apply H2; lia.
Qed.


Lemma truncateText_long t maxLength :
  0 <= maxLength -> maxLength < len t ->
  truncateText t maxLength =
    {| text :=
         trim (take (Z.to_nat
                 (lookBack (Z.to_nat (maxLength - Z.max 0 (maxLength - 100))) t
                           (Z.max 0 (maxLength - 100)) maxLength maxLength)) t)
           ++ truncationMarker;
       truncated := true |}
  /\ Z.max 0 (maxLength - 100)
       <= lookBack (Z.to_nat (maxLength - Z.max 0 (maxLength - 100))) t
                   (Z.max 0 (maxLength - 100)) maxLength maxLength
       <= maxLength.
Proof.
  intros H0 Hlen. unfold truncateText.
  destruct (len t <=? maxLength) eqn:E; [lia|].
  assert (t <> []) as Hne by (intros ->; unfold len in Hlen; simpl in Hlen; lia).
  rewrite bool_decide_eq_false_2 by exact Hne. simpl.
  set (lim := Z.max 0 (maxLength - 100)).
  set (bp := lookBack _ _ _ _ _).
  assert (lim <= bp <= maxLength) as Hbp.
  { subst bp.
    destruct (lookBack_spec (Z.to_nat (maxLength - lim)) t lim maxLength maxLength)
      as [(H1 & _)|(H1 & _)]; subst lim; lia. }
  split; [|exact Hbp].
  rewrite slice_prefix by (subst lim; lia). reflexivity.
Qed.

End TruncateFacts.



(** The limit is a length.  With a negative [maxLength] the slice counts
    from the end of the text, and the empty text comes back as it is. *)
Example truncateText_negative_limit :
  TextUtils.truncateText (TextUtils.lit "hello brave new world") (-6)
  = {| TextUtils.text := TextUtils.lit "hello brave new" ++ TextUtils.truncationMarker;
       TextUtils.truncated := true |}
  /\ TextUtils.truncateText [] (-6)
     = {| TextUtils.text := []; TextUtils.truncated := false |}.
Proof. split; vm_compute; reflexivity. Qed.

(** ** The traversal: loops, invariants, termination *)

Lemma map_fmap {A B} (f : A -> B) (l : list A) : map f l = f <$> l.
Proof. reflexivity. Qed.

Section WriterFacts.
Import ModsCollectionWriter.

Lemma write_stream data wr s :
  stream wr = Some s ->
  write data wr =
    (Fulfilled tt,
     {| stream := Some {| path := path s; chunks := chunks s ++ [data];
                          ended := ended s |};
        isOpen := isOpen wr |}).
Proof. intros H. unfold write. rewrite H. reflexivity. Qed.

(** The two ways a [writeMods] call can end. *)
Lemma writeMods_cases modsXml node wr :
  (exists s modsElement,
      isOpen wr = true /\ stream wr = Some s
      /\ extractModsElement modsXml = Fulfilled modsElement
      /\ writeMods modsXml node wr =
           (Fulfilled tt,
            {| stream :=
                 Some {| path := path s;
                         chunks := chunks s
                                     ++ [addHierarchyMetadata modsElement node
                                           +:+ Str.nl];
                         ended := ended s |};
               isOpen := isOpen wr |}))
  \/ (exists e,
         writeMods modsXml node wr = (Rejected e, wr)
         /\ (isOpen wr = false \/ stream wr = None
             \/ isFulfilled (extractModsElement modsXml) = false)).
Proof.
  unfold writeMods.
  destruct (isOpen wr) eqn:Ho; simpl; [|right; eauto].
  destruct (stream wr) as [s|] eqn:Hs.
  - rewrite bool_decide_eq_true_2 by eauto. simpl.
    destruct (extractModsElement modsXml) as [el|e] eqn:He.
    + left. exists s, el. rewrite (write_stream _ _ s Hs), Ho. auto.
    + right. exists e. auto.
  - rewrite bool_decide_eq_false_2 by (intros [? ?]; discriminate). simpl.
    right. eauto.
Qed.

Lemma open_result outputPath wr :
  open outputPath wr =
    (Fulfilled tt,
     {| stream := Some {| path := outputPath; chunks := header; ended := false |};
        isOpen := true |}).
Proof. reflexivity. Qed.

Lemma close_fulfilled wr : fst (close wr) = Fulfilled tt.
Proof. unfold close. destruct (stream wr) eqn:E; [|reflexivity].
       unfold mbind, Task_bind, bind. rewrite (write_stream _ _ _ E). reflexivity.
Qed.

End WriterFacts.

Section StepFacts.
Import RecursiveModsExporter TraversalSpec.
Context (w : World) (options : RecursiveOptions.t).

Lemma countClass_snoc c log x :
  countClass c (log ++ [x])
  = (countClass c log + if decide (classify (snd x) = c) then 1 else 0)%nat.
Proof.
  unfold countClass. rewrite filter_app, length_app. f_equal.
  rewrite filter_cons, filter_nil. destruct (decide _); reflexivity.
Qed.

Lemma errorEntries_snoc log x :
  errorEntries (log ++ [x])
  = errorEntries log ++ match snd x with
                        | Rejected e => [(EntityNode.pi (fst x), e)]
                        | Fulfilled _ => []
                        end.
Proof.
  unfold errorEntries. rewrite omap_app. f_equal. simpl.
  destruct (snd x); reflexivity.
Qed.

Lemma enqueueChild_visited node tr c :
  c ∈ visited tr -> enqueueChild node tr c = tr.
Proof. intros H. unfold enqueueChild. by rewrite bool_decide_eq_true_2. Qed.

Lemma enqueueChild_fresh node tr c :
  c ∉ visited tr ->
  enqueueChild node tr c =
    {| queue := queue tr ++ [childNode node c];
       visited := visited tr ∪ {[ c ]};
       entityCount := entityCount tr;
       successCount := successCount tr;
       incompleteCount := incompleteCount tr;
       errors := errors tr;
       enqueued := enqueued tr ++ [childNode node c];
       settled := settled tr |}.
Proof. intros H. unfold enqueueChild. by rewrite bool_decide_eq_false_2. Qed.

(** The effect of offering the children [cs] of [node] to the queue. *)
Lemma fold_enqueueChild node cs tr :
  exists new,
    queue (fold_left (enqueueChild node) cs tr) = queue tr ++ new
    /\ enqueued (fold_left (enqueueChild node) cs tr) = enqueued tr ++ new
    /\ settled (fold_left (enqueueChild node) cs tr) = settled tr
    /\ entityCount (fold_left (enqueueChild node) cs tr) = entityCount tr
    /\ successCount (fold_left (enqueueChild node) cs tr) = successCount tr
    /\ incompleteCount (fold_left (enqueueChild node) cs tr) = incompleteCount tr
    /\ errors (fold_left (enqueueChild node) cs tr) = errors tr
    /\ (forall x, x ∈ visited (fold_left (enqueueChild node) cs tr)
                  <-> (x ∈ visited tr \/ x ∈ map EntityNode.pi new))
    /\ NoDup (map EntityNode.pi new)
    /\ (forall m, m ∈ new ->
          (EntityNode.pi m ∉ visited tr) /\ EntityNode.pi m ∈ cs
          /\ m = childNode node (EntityNode.pi m))
    /\ (forall c, c ∈ cs -> c ∈ visited (fold_left (enqueueChild node) cs tr)).
Proof.
  revert tr. induction cs as [|c cs IH]; intros tr; simpl.
  - exists []. rewrite !app_nil_r. simpl.
    split; [done|]. split; [done|]. split; [done|]. split; [done|].
    split; [done|]. split; [done|]. split; [done|].
    split; [intros x; split; [by left|intros [?|H]; [done|inversion H]]|].
    split; [constructor|].
    split; intros ? H; inversion H.
  - destruct (decide (c ∈ visited tr)) as [Hin|Hin].
    + rewrite (enqueueChild_visited _ _ _ Hin).
      destruct (IH tr)
        as (new & Hq & He & Hs & Hc1 & Hc2 & Hc3 & Her & Hv & Hnd & Hnew & Hcs).
      exists new.
      split; [done|]. split; [done|]. split; [done|]. split; [done|].
      split; [done|]. split; [done|]. split; [done|]. split; [done|].
      split; [done|]. split.
      * intros m Hm. destruct (Hnew m Hm) as (? & ? & ?).
        split; [done|]. split; [by apply elem_of_cons; right|done].
      * intros c' [->|H]%elem_of_cons; [|by apply Hcs].
        apply Hv. by left.
    + destruct (IH (enqueueChild node tr c))
        as (new & Hq & He & Hs & Hc1 & Hc2 & Hc3 & Her & Hv & Hnd & Hnew & Hcs).
      rewrite (enqueueChild_fresh _ _ _ Hin) in *. simpl in *.
      exists (childNode node c :: new).
      rewrite Hq, He, <- !app_assoc. simpl.
      split; [done|]. split; [done|]. split; [done|]. split; [done|].
      split; [done|]. split; [done|]. split; [done|]. split.
      { intros x. rewrite Hv, elem_of_union, elem_of_singleton, elem_of_cons.
        tauto. }
      split.
      { constructor; [|done].
        intros Hc. rewrite map_fmap in Hc.
        apply list_elem_of_fmap in Hc as (m & Hm1 & Hm2).
        destruct (Hnew m Hm2) as (Hm3 & _). apply Hm3.
        apply elem_of_union. right. apply elem_of_singleton. done. }
      split.
      { intros m [->|H]%elem_of_cons.
        - split; [done|]. split; [by left|done].
        - destruct (Hnew m H) as (Hm & ? & ?).
          split; [|split; [by right|done]].
          intros Hx. apply Hm. apply elem_of_union. by left. }
      intros c' [->|H]%elem_of_cons; [|by apply Hcs].
      apply Hv. left. apply elem_of_union. right. by apply elem_of_singleton.
Qed.

(** The effect of handling one outcome. *)
Lemma handleResult_shape node r tr :
  exists new,
    queue (handleResult options node r tr) = queue tr ++ new
    /\ enqueued (handleResult options node r tr) = enqueued tr ++ new
    /\ settled (handleResult options node r tr) = settled tr ++ [(node, r)]
    /\ entityCount (handleResult options node r tr) = S (entityCount tr)
    /\ successCount (handleResult options node r tr)
       = (successCount tr + if isFulfilled r then 1 else 0)%nat
    /\ incompleteCount (handleResult options node r tr)
       = (incompleteCount tr
          + if decide (classify r = incomplete) then 1 else 0)%nat
    /\ errors (handleResult options node r tr)
       = errors tr ++ match r with
                      | Rejected e => [(EntityNode.pi node, e)]
                      | Fulfilled _ => []
                      end
    /\ (forall x, x ∈ visited (handleResult options node r tr)
                  <-> (x ∈ visited tr \/ x ∈ map EntityNode.pi new))
    /\ NoDup (map EntityNode.pi new)
    /\ (forall m, m ∈ new ->
          (EntityNode.pi m ∉ visited tr)
          /\ m = childNode node (EntityNode.pi m)
          /\ EntityNode.depth node < RecursiveOptions.maxDepth options
          /\ exists v cs, r = Fulfilled v /\ children v = Some cs
                          /\ EntityNode.pi m ∈ cs)
    /\ (forall v cs c,
          r = Fulfilled v -> children v = Some cs ->
          EntityNode.depth node < RecursiveOptions.maxDepth options ->
          c ∈ cs -> c ∈ visited (handleResult options node r tr)).
Proof.
  assert (forall (tr0 : Traversal),
             exists new : list EntityNode.t,
               queue tr0 = queue tr0 ++ new /\ enqueued tr0 = enqueued tr0 ++ new
               /\ (forall x, x ∈ visited tr0
                             <-> (x ∈ visited tr0 \/ x ∈ map EntityNode.pi new))
               /\ NoDup (map EntityNode.pi new)
               /\ new = []) as Hnone.
  { intros tr0. exists []. rewrite !app_nil_r. simpl.
    split; [done|]. split; [done|].
    split; [intros x; split; [by left|intros [?|H]; [done|inversion H]]|].
    split; [constructor|done]. }
  destruct r as [v|e]; unfold handleResult, enqueueChildren; simpl.
  - destruct (children v) as [cs|] eqn:Hcs.
    + destruct (EntityNode.depth node <? RecursiveOptions.maxDepth options) eqn:Hd.
      * match goal with
        | |- context [fold_left (enqueueChild node) cs ?t] =>
            destruct (fold_enqueueChild node cs t)
              as (new & Hq & He & Hs & Hc1 & Hc2 & Hc3 & Her & Hv & Hnd & Hnew & Hin)
        end.
        simpl in *. exists new.
        rewrite Hq, He, Hs, Hc1, Hc2, Hc3, Her, app_nil_r.
        split; [done|]. split; [done|]. split; [done|]. split; [done|].
        split; [lia|].
        split; [destruct (isIncomplete v); simpl; lia|].
        split; [done|]. split; [done|]. split; [done|]. split.
        -- intros m Hm. destruct (Hnew m Hm) as (? & ? & ?).
           split; [done|]. split; [done|]. split; [lia|]. eauto.
        -- intros v' cs' c Hv' Hcs' _ Hc. inversion Hv'; subst v'.
           rewrite Hcs in Hcs'. inversion Hcs'; subst cs'. by apply Hin.
      * destruct (Hnone tr) as (new & Hq & He & Hv & Hnd & ->).
        exists []. simpl. rewrite !app_nil_r.
        split; [done|]. split; [done|]. split; [done|]. split; [done|].
        split; [lia|].
        split; [destruct (isIncomplete v); simpl; lia|].
        split; [done|]. split; [exact Hv|]. split; [constructor|]. split.
        -- intros ? H; inversion H.
        -- intros; lia.
    + destruct (Hnone tr) as (new & Hq & He & Hv & Hnd & ->).
      exists []. simpl. rewrite !app_nil_r.
      split; [done|]. split; [done|]. split; [done|]. split; [done|].
      split; [lia|].
      split; [destruct (isIncomplete v); simpl; lia|].
      split; [done|]. split; [exact Hv|]. split; [constructor|]. split.
      * intros ? H; inversion H.
      * intros v' cs' c Hv' Hcs' _ Hc. inversion Hv'; subst v'. congruence.
  - destruct (Hnone tr) as (new & Hq & He & Hv & Hnd & ->).
    exists []. simpl. rewrite !app_nil_r.
    split; [done|]. split; [done|]. split; [done|]. split; [done|].
    split; [lia|]. split; [lia|].
    split; [done|]. split; [exact Hv|]. split; [constructor|]. split.
    + intros ? H; inversion H.
    + intros; discriminate.
Qed.

Lemma classify_fulfilled r :
  (if isFulfilled r then 1 else 0)%nat
  = ((if decide (classify r = success) then 1 else 0)
     + (if decide (classify r = incomplete) then 1 else 0))%nat.
Proof.
  destruct r as [v|e]; simpl; [|reflexivity].
  destruct (isIncomplete v); reflexivity.
Qed.

(** Handling the outcome of the first pending node keeps the invariant. *)
Lemma handleResult_Inv rootPI errors0 tr node pending d r :
  Inv w options rootPI errors0 tr (node :: pending) d ->
  (exists sh sh', processEntity w node sh = (r, sh')) ->
  Inv w options rootPI errors0 (handleResult options node r tr) pending d.
Proof.
  intros [Hroot Hlog Hnd Hvis Hec Hsc Hic Herr Hpar Hout Hch Hdp Hdq Hdb] Hr.
  destruct (handleResult_shape node r tr)
    as (new & Hq & He & Hs & Hc1 & Hc2 & Hc3 & Her & Hv & Hndn & Hnew & Hin).
  assert (EntityNode.depth node = d) as Hdn by (apply Hdp; by left).
  constructor.
  - destruct Hroot as [rest Hrest]. exists (rest ++ new). by rewrite He, Hrest.
  - rewrite He, Hs, Hq, Hlog, map_app. simpl.
    rewrite <- ?app_assoc. simpl. rewrite <- ?app_assoc. reflexivity.
  - rewrite He, map_app. apply NoDup_app. split; [done|]. split; [|done].
    intros x Hx Hx'. rewrite map_fmap in Hx'.
    apply list_elem_of_fmap in Hx' as (m & -> & Hm).
    destruct (Hnew m Hm) as (Hfresh & _). apply Hfresh. by apply Hvis.
  - intros x. rewrite Hv, He, map_app, elem_of_app, Hvis. reflexivity.
  - rewrite Hc1, Hs, length_app, Hec. simpl. lia.
  - rewrite Hc2, Hs, !countClass_snoc, Hsc. simpl.
    rewrite (classify_fulfilled r). lia.
  - rewrite Hc3, Hs, countClass_snoc, Hic. reflexivity.
  - rewrite Her, Hs, errorEntries_snoc, Herr, <- app_assoc. reflexivity.
  - intros n Hn. rewrite He in Hn. apply elem_of_app in Hn as [Hn|Hn].
    + destruct (Hpar n Hn) as [->|(p & v & cs & H1 & H2 & H3 & H4 & H5)];
        [by left|].
      right. exists p, v, cs. rewrite Hs.
      split; [apply elem_of_app; by left|done].
    + right. destruct (Hnew n Hn) as (_ & H2 & H3 & v & cs & -> & H4 & H5).
      exists node, v, cs. rewrite Hs.
      split; [apply elem_of_app; right; by left|done].
  - intros n r' Hn. rewrite Hs in Hn. apply elem_of_app in Hn as [Hn|Hn].
    + by apply Hout.
    + apply list_elem_of_singleton in Hn. inversion Hn; subst. exact Hr.
  - intros p v cs c Hp Hcs Hd Hc. rewrite Hs in Hp.
    apply elem_of_app in Hp as [Hp|Hp].
    + apply Hv. left. by eapply Hch.
    + apply list_elem_of_singleton in Hp. inversion Hp; subst.
      by eapply Hin.
  - intros n Hn. apply Hdp. by right.
  - intros n Hn. rewrite Hq in Hn. apply elem_of_app in Hn as [Hn|Hn].
    + by apply Hdq.
    + destruct (Hnew n Hn) as (_ & -> & _). simpl. lia.
  - destruct Hdb as [Hd1 Hd2]. split; [done|].
    intros Hne. destruct new as [|m new'].
    + rewrite Hq, app_nil_r in Hne. by apply Hd2.
    + destruct (Hnew m) as (_ & _ & Hlt & _); [by left|]. lia.
Qed.

Lemma stepNode_Inv rootPI errors0 tr sh node pending d :
  Inv w options rootPI errors0 tr (node :: pending) d ->
  Inv w options rootPI errors0 (fst (stepNode w options (tr, sh) node)) pending d.
Proof.
  intros H. unfold stepNode. simpl.
  destruct (processEntity w node sh) as [r sh'] eqn:E. simpl.
  eapply handleResult_Inv; eauto.
Qed.

Lemma fold_stepNode_Inv rootPI errors0 level :
  forall tr sh pending d,
    Inv w options rootPI errors0 tr (level ++ pending) d ->
    Inv w options rootPI errors0
        (fst (fold_left (stepNode w options) level (tr, sh))) pending d.
Proof.
  induction level as [|n level IH]; intros tr sh pending d H; simpl; [done|].
  destruct (stepNode w options (tr, sh) n) as [tr1 sh1] eqn:E.
  apply IH. change tr1 with (fst (tr1, sh1)). rewrite <- E.
  by apply stepNode_Inv.
Qed.

(** What one entity task does to the shared state. *)
Lemma processEntity_shape node sh :
  exists r sh',
    processEntity w node sh = (r, sh')
    /\ writeModsCalls sh'
       = writeModsCalls sh ++ (if reachesWrite w node then [EntityNode.pi node] else [])
    /\ ModsCollectionWriter.isOpen (writer sh')
       = ModsCollectionWriter.isOpen (writer sh)
    /\ (forall s, ModsCollectionWriter.stream (writer sh) = Some s ->
          exists s' rec,
            ModsCollectionWriter.stream (writer sh') = Some s'
            /\ ModsCollectionWriter.chunks s' = ModsCollectionWriter.chunks s ++ rec
            /\ length rec = if isFulfilled r then 1%nat else 0%nat)
    /\ (isFulfilled r = true -> reachesWrite w node = true)
    /\ (ModsCollectionWriter.isOpen (writer sh) = true ->
        is_Some (ModsCollectionWriter.stream (writer sh)) ->
        exportsHaveMods w ->
        isFulfilled r = reachesWrite w node).
Proof.
  unfold processEntity, reachesWrite.
  assert (forall s, ModsCollectionWriter.stream (writer sh) = Some s ->
            exists s' rec,
              ModsCollectionWriter.stream (writer sh) = Some s'
              /\ ModsCollectionWriter.chunks s' = ModsCollectionWriter.chunks s ++ rec
              /\ length rec = 0%nat) as Hsame.
  { intros s Hs. exists s, []. rewrite app_nil_r. auto. }
  destruct (fetchManifest w (EntityNode.pi node)) as [manifest|e] eqn:Hf; simpl.
  2:{ eexists _, _. split; [reflexivity|]. rewrite app_nil_r.
      repeat split; auto; discriminate. }
  destruct (exportEntity w (EntityNode.pi node)) as [xml|e] eqn:He; simpl.
  2:{ eexists _, _. split; [reflexivity|]. rewrite app_nil_r.
      repeat split; auto; discriminate. }
  destruct (writeMods_cases xml node (writer sh))
    as [(s & el & Ho & Hs & Hel & ->)|(e & -> & Hwhy)].
  - eexists _, _. split; [reflexivity|]. simpl.
    split; [done|]. split; [done|]. split.
    { intros s0 Hs0. rewrite Hs in Hs0. inversion Hs0; subst s0.
      eexists _, [_]. simpl. split; [reflexivity|]. auto. }
    split; [done|]. done.
  - eexists _, _. split; [reflexivity|]. simpl.
    split; [done|]. split; [done|]. split; [by apply Hsame|].
    split; [discriminate|].
    intros Ho [s Hs] Hmods. specialize (Hmods _ _ He).
    destruct Hwhy as [Hwhy|[Hwhy|Hwhy]]; congruence.
Qed.

Lemma stepNode_SharedInv sh0 tr sh node :
  SharedInv w sh0 tr sh ->
  SharedInv w sh0 (fst (stepNode w options (tr, sh) node))
            (snd (stepNode w options (tr, sh) node)).
Proof.
  intros [Hopen Hcalls Hchunks Hful].
  unfold stepNode. simpl.
  destruct (processEntity_shape node sh)
    as (r & sh' & -> & Hc & Ho & Hs & Hr1 & Hr2). simpl.
  destruct (handleResult_shape node r tr)
    as (new & _ & _ & Hset & _).
  constructor; rewrite ?Hset.
  - intros H1 H2. destruct (Hopen H1 H2) as [H3 [s H4]].
    split; [congruence|]. destruct (Hs s H4) as (s' & ? & ? & _). eauto.
  - rewrite Hc, Hcalls, map_app, filter_app, map_app, <- app_assoc.
    f_equal. simpl. rewrite filter_cons, filter_nil.
    destruct (reachesWrite w node); reflexivity.
  - intros s0 Hs0. destruct (Hchunks s0 Hs0) as (s & records & H1 & H2 & H3).
    destruct (Hs s H1) as (s' & rec & H4 & H5 & H6).
    exists s', (records ++ rec). split; [done|].
    split; [by rewrite H5, H2, app_assoc|].
    rewrite length_app, H3, H6, !countClass_snoc. simpl.
    rewrite (classify_fulfilled r). lia.
  - intros H1 H2 H3 n r' Hn. apply elem_of_app in Hn as [Hn|Hn].
    + by apply Hful.
    + apply list_elem_of_singleton in Hn. inversion Hn; subst.
      destruct (Hopen H1 H2). by apply Hr2.
Qed.

Lemma fold_stepNode_SharedInv sh0 level :
  forall tr sh,
    SharedInv w sh0 tr sh ->
    SharedInv w sh0 (fst (fold_left (stepNode w options) level (tr, sh)))
              (snd (fold_left (stepNode w options) level (tr, sh))).
Proof.
  induction level as [|n level IH]; intros tr sh H; simpl; [done|].
  pose proof (stepNode_SharedInv sh0 tr sh n H) as H'.
  destruct (stepNode w options (tr, sh) n) as [tr1 sh1]. by apply IH.
Qed.

Lemma allSettled_handleResults batch tr sh :
  (let '(rs, sh') := allSettled w batch sh in
   (handleResults options batch rs tr, sh'))
  = fold_left (stepNode w options) batch (tr, sh).
Proof.
  revert tr sh. induction batch as [|n b IH]; intros tr sh; simpl; [done|].
  unfold stepNode at 2. simpl.
  destruct (processEntity w n sh) as [r sh1] eqn:E.
  specialize (IH (handleResult options n r tr) sh1).
  destruct (allSettled w b sh1) as [rs sh2]. simpl. exact IH.
Qed.

Lemma jsSlice_batch {A} (l : list A) (i k : Z) :
  0 <= i -> 1 <= k -> i < Z.of_nat (length l) ->
  jsSlice l i (i + k) = take (Z.to_nat k) (drop (Z.to_nat i) l).
Proof.
  intros Hi Hk Hlt. unfold jsSlice, clampIndex.
  destruct (i <? 0) eqn:E1; [lia|].
  destruct (i + k <? 0) eqn:E2; [lia|].
  rewrite (Z.min_l i) by lia.
  destruct (Z.le_gt_cases (i + k) (Z.of_nat (length l))) as [Hle|Hgt].
  - rewrite Z.min_l by lia. f_equal. lia.
  - rewrite Z.min_r by lia.
    rewrite !take_ge; [done| |]; rewrite length_drop; lia.
Qed.

Lemma batchLoop_some fuel level i st st' :
  1 <= RecursiveOptions.parallelBatchSize options -> 0 <= i ->
  batchLoop fuel w options level i st = Some st' ->
  st' = fold_left (stepNode w options) (drop (Z.to_nat i) level) st.
Proof.
  intros Hbs. revert i st. induction fuel as [|fuel IH]; intros i st Hi H; simpl in H.
  - destruct (i <? Z.of_nat (length level)) eqn:E; [done|].
    rewrite drop_ge by lia. simpl. congruence.
  - destruct (i <? Z.of_nat (length level)) eqn:E.
    + rewrite jsSlice_batch in H by lia.
      assert (drop (Z.to_nat i) level
              = take (Z.to_nat (RecursiveOptions.parallelBatchSize options))
                     (drop (Z.to_nat i) level)
                  ++ drop (Z.to_nat (i + RecursiveOptions.parallelBatchSize options))
                          level) as Hsplit.
      { rewrite <- (take_drop (Z.to_nat (RecursiveOptions.parallelBatchSize options))
                              (drop (Z.to_nat i) level)) at 1.
        f_equal. rewrite drop_drop. f_equal. lia. }
      remember (take (Z.to_nat (RecursiveOptions.parallelBatchSize options))
                     (drop (Z.to_nat i) level)) as b eqn:Hb'. clear Hb'.
      pose proof (allSettled_handleResults b (fst st) (snd st)) as Hb.
      destruct (allSettled w b (snd st)) as [rs sh].
      apply IH in H; [|lia]. rewrite H, Hb, Hsplit, fold_left_app.
      destruct st as [tr0 sh0]. reflexivity.
    + rewrite drop_ge by lia. simpl. congruence.
Qed.

Lemma batchLoop_enough fuel level i st :
  1 <= RecursiveOptions.parallelBatchSize options -> 0 <= i ->
  Z.of_nat (length level) <= i + Z.of_nat fuel ->
  exists st', batchLoop fuel w options level i st = Some st'.
Proof.
  intros Hbs. revert i st. induction fuel as [|fuel IH]; intros i st Hi H; simpl.
  - destruct (i <? Z.of_nat (length level)) eqn:E; [lia|]. eauto.
  - destruct (i <? Z.of_nat (length level)) eqn:E; [|eauto].
    destruct (allSettled w _ (snd st)) as [rs sh].
    apply IH; lia.
Qed.

Lemma batchLoop_diverges fuel level i st :
  RecursiveOptions.parallelBatchSize options <= 0 ->
  i < Z.of_nat (length level) ->
  batchLoop fuel w options level i st = None.
Proof.
  intros Hbs. revert i st. induction fuel as [|fuel IH]; intros i st Hi; simpl.
  - destruct (i <? Z.of_nat (length level)) eqn:E; [done|lia].
  - destruct (i <? Z.of_nat (length level)) eqn:E; [|lia].
    destruct (allSettled w _ (snd st)) as [rs sh].
    apply IH; lia.
Qed.

Lemma takeDepth_all d q :
  (forall n, n ∈ q -> EntityNode.depth n = d) -> takeDepth d q = (q, []).
Proof.
  induction q as [|n q IH]; intros H; simpl; [done|].
  rewrite bool_decide_eq_true_2 by (apply H; by left).
  rewrite IH; [done|]. intros m Hm. apply H. by right.
Qed.

Lemma extractCurrentLevel_all d q :
  (forall n, n ∈ q -> EntityNode.depth n = d) -> extractCurrentLevel q = (q, []).
Proof.
  intros H. destruct q as [|n q]; [done|]. unfold extractCurrentLevel.
  rewrite (H n) by (by left). by apply takeDepth_all.
Qed.

(** Taking the whole queue as the next level. *)
Lemma Inv_next_level rootPI errors0 tr d :
  Inv w options rootPI errors0 tr [] d ->
  Inv w options rootPI errors0 (setQueue [] tr) (queue tr ++ []) (d + 1).
Proof.
  intros [Hroot Hlog Hnd Hvis Hec Hsc Hic Herr Hpar Hout Hch Hdp Hdq Hdb].
  constructor; simpl; try done.
  - rewrite Hlog. simpl. by rewrite !app_nil_r.
  - intros n Hn. rewrite app_nil_r in Hn. by apply Hdq.
  - intros n Hn. inversion Hn.
  - split; [lia|done].
Qed.

Lemma SharedInv_setQueue sh0 q tr sh :
  SharedInv w sh0 tr sh -> SharedInv w sh0 (setQueue q tr) sh.
Proof. intros [H1 H2 H3 H4]. constructor; done. Qed.

Lemma afterLevel_Inv rootPI errors0 sh0 st d :
  Inv w options rootPI errors0 (fst st) [] d ->
  SharedInv w sh0 (fst st) (snd st) ->
  Inv w options rootPI errors0 (fst (afterLevel w options st)) [] (d + 1)
  /\ SharedInv w sh0 (fst (afterLevel w options st)) (snd (afterLevel w options st)).
Proof.
  intros HI HS. unfold afterLevel. split.
  - apply fold_stepNode_Inv. by apply Inv_next_level.
  - apply fold_stepNode_SharedInv. by apply SharedInv_setQueue.
Qed.

Lemma levelLoop_step rootPI errors0 fuel batchFuel st d :
  1 <= RecursiveOptions.parallelBatchSize options ->
  Inv w options rootPI errors0 (fst st) [] d ->
  queue (fst st) <> [] ->
  levelLoop (S fuel) batchFuel w options st
  = match batchLoop batchFuel w options (queue (fst st)) 0
                    (setQueue [] (fst st), snd st) with
    | None => None
    | Some _ => levelLoop fuel batchFuel w options (afterLevel w options st)
    end.
Proof.
  intros Hbs HI Hne. simpl.
  destruct (queue (fst st)) as [|n q] eqn:Hq; [done|].
  rewrite <- Hq.
  rewrite (extractCurrentLevel_all (d + 1)) by apply HI.
  destruct (batchLoop batchFuel w options (queue (fst st)) 0
                      (setQueue [] (fst st), snd st)) as [st1|] eqn:Hb; [|done].
  apply batchLoop_some in Hb; [|done|lia]. simpl in Hb. by rewrite Hb.
Qed.

Lemma levelLoop_Inv rootPI errors0 sh0 fuel batchFuel :
  1 <= RecursiveOptions.parallelBatchSize options ->
  forall st st' d,
    Inv w options rootPI errors0 (fst st) [] d ->
    SharedInv w sh0 (fst st) (snd st) ->
    levelLoop fuel batchFuel w options st = Some st' ->
    exists d',
      Inv w options rootPI errors0 (fst st') [] d'
      /\ SharedInv w sh0 (fst st') (snd st')
      /\ queue (fst st') = [].
Proof.
  intros Hbs. induction fuel as [|fuel IH]; intros st st' d HI HS H.
  - simpl in H. destruct (queue (fst st)) eqn:Hq; [|done].
    inversion H; subst. eauto.
  - destruct (queue (fst st)) as [|n q] eqn:Hq.
    + simpl in H. rewrite Hq in H. inversion H; subst. eauto.
    + rewrite (levelLoop_step rootPI errors0 _ _ _ d) in H; [|done..|by rewrite Hq].
      destruct (batchLoop _ _ _ _ _ _); [|done].
      destruct (afterLevel_Inv rootPI errors0 sh0 st d HI HS) as [HI' HS'].
      by eapply IH.
Qed.

Lemma levelLoop_terminates rootPI errors0 sh0 :
  1 <= RecursiveOptions.parallelBatchSize options ->
  forall (k : nat) st d,
    Inv w options rootPI errors0 (fst st) [] d ->
    SharedInv w sh0 (fst st) (snd st) ->
    (queue (fst st) <> [] ->
     Z.max 0 (RecursiveOptions.maxDepth options) - (d + 1) < Z.of_nat k) ->
    exists N : nat,
      forall fuel batchFuel, (N <= fuel)%nat -> (N <= batchFuel)%nat ->
        exists st', levelLoop fuel batchFuel w options st = Some st'.
Proof.
  intros Hbs. induction k as [|k IH]; intros st d HI HS Hk.
  - exists 0%nat. intros fuel bf _ _.
    destruct (queue (fst st)) as [|n q] eqn:Hq.
    + exists st. destruct fuel; simpl; by rewrite Hq.
    + pose proof (inv_depth_bound _ _ _ _ _ _ _ HI) as [_ Hb].
      rewrite Hq in Hb. specialize (Hk ltac:(done)). specialize (Hb ltac:(done)).
      lia.
  - destruct (queue (fst st)) as [|n q] eqn:Hq.
    + exists 0%nat. intros fuel bf _ _.
      exists st. destruct fuel; simpl; by rewrite Hq.
    + destruct (afterLevel_Inv rootPI errors0 sh0 st d HI HS) as [HI' HS'].
      destruct (IH (afterLevel w options st) (d + 1) HI' HS') as [N HN].
      { intros Hne. pose proof (inv_depth_bound _ _ _ _ _ _ _ HI') as [_ Hb].
        specialize (Hb Hne). specialize (Hk ltac:(done)). lia. }
      exists (S N `max` length (queue (fst st)))%nat.
      intros fuel bf Hf Hbf. destruct fuel as [|fuel]; [lia|].
      rewrite (levelLoop_step rootPI errors0 _ _ _ d); [|done..|by rewrite Hq].
      destruct (batchLoop_enough bf (queue (fst st)) 0
                                 (setQueue [] (fst st), snd st)) as [st1 ->];
        [done|lia|lia|].
      apply HN; lia.
Qed.

Lemma initial_Inv rootPI errors0 :
  Inv w options rootPI errors0 (initialTraversal rootPI errors0) [] (-1).
Proof.
  constructor; simpl; try done.
  - by exists [].
  - repeat constructor. intros H. inversion H.
  - intros x. rewrite elem_of_singleton, list_elem_of_singleton. done.
  - by rewrite app_nil_r.
  - intros n Hn. apply list_elem_of_singleton in Hn. by left.
  - intros n r H. inversion H.
  - intros p v cs c H. inversion H.
  - intros n H. inversion H.
  - intros n Hn. apply list_elem_of_singleton in Hn. by subst.
  - split; [lia|]. intros _. lia.
Qed.

Lemma initial_SharedInv rootPI errors0 sh0 :
  SharedInv w sh0 (initialTraversal rootPI errors0) sh0.
Proof.
  constructor; simpl.
  - auto.
  - by rewrite app_nil_r.
  - intros s0 H. exists s0, []. by rewrite app_nil_r.
  - intros _ _ _ n r H. inversion H.
Qed.

(** For a batch size of at least 1 the traversal ends, with an empty queue
    and the invariants. *)
Lemma traverseBFS_total rootPI errors0 sh0 :
  1 <= RecursiveOptions.parallelBatchSize options ->
  exists N : nat,
    forall fuel, (N <= fuel)%nat ->
      exists tr sh d,
        traverseBFS fuel w rootPI options errors0 sh0 = Some (tr, sh)
        /\ Inv w options rootPI errors0 tr [] d
        /\ SharedInv w sh0 tr sh
        /\ queue tr = [].
Proof.
  intros Hbs.
  destruct (levelLoop_terminates rootPI errors0 sh0 Hbs
              (S (Z.to_nat (Z.max 0 (RecursiveOptions.maxDepth options))))
              (initialTraversal rootPI errors0, sh0) (-1)) as [N HN].
  { apply initial_Inv. }
  { apply initial_SharedInv. }
  { intros _. lia. }
  exists N. intros fuel Hf. unfold traverseBFS.
  destruct (HN fuel fuel Hf Hf) as [[tr sh] Hrun].
  destruct (levelLoop_Inv rootPI errors0 sh0 fuel fuel Hbs
              (initialTraversal rootPI errors0, sh0) (tr, sh) (-1)
              (initial_Inv rootPI errors0) (initial_SharedInv rootPI errors0 sh0) Hrun)
    as (d & HI & HS & Hq).
  exists tr, sh, d. done.
Qed.

(** With a batch size of 0 or less the batch loop never leaves the first
    level. *)
Lemma traverseBFS_diverges rootPI errors0 sh0 fuel :
  RecursiveOptions.parallelBatchSize options <= 0 ->
  traverseBFS fuel w rootPI options errors0 sh0 = None.
Proof.
  intros Hbs. unfold traverseBFS. destruct fuel as [|fuel]; [done|].
  change (levelLoop (S fuel) (S fuel) w options
                    (initialTraversal rootPI errors0, sh0))
    with (match batchLoop (S fuel) w options [rootNode rootPI] 0
                          (setQueue [] (initialTraversal rootPI errors0), sh0) with
          | None => None
          | Some st' => levelLoop fuel (S fuel) w options st'
          end).
  rewrite batchLoop_diverges; [done|done|simpl; lia].
Qed.

(** Whatever the batch size, a traversal that ends does so with an empty
    queue and the invariants. *)
Lemma traverseBFS_sound fuel rootPI errors0 sh0 tr sh :
  traverseBFS fuel w rootPI options errors0 sh0 = Some (tr, sh) ->
  exists d,
    Inv w options rootPI errors0 tr [] d
    /\ SharedInv w sh0 tr sh
    /\ queue tr = [].
Proof.
  intros Hrun.
  destruct (Z_le_gt_dec 1 (RecursiveOptions.parallelBatchSize options)) as [Hbs|Hbs].
  - apply (levelLoop_Inv rootPI errors0 sh0 fuel fuel Hbs
             (initialTraversal rootPI errors0, sh0) (tr, sh) (-1)
             (initial_Inv rootPI errors0) (initial_SharedInv rootPI errors0 sh0) Hrun).
  - rewrite traverseBFS_diverges in Hrun by lia. discriminate.
Qed.

End StepFacts.

(** The exports of [worldOf] carry a [<mods] element as soon as the
    serializer's documents do. *)
Lemma worldOf_exportsHaveMods config fetch (c : ModsExporter.Collaborators) :
  (forall mods,
      isFulfilled (ModsCollectionWriter.extractModsElement
                     (ModsExporter.generate c mods)) = true) ->
  TraversalSpec.exportsHaveMods (RecursiveModsExporter.worldOf config fetch c).
Proof.
  intros H pi xml E. simpl in E. unfold ModsExporter.export in E.
  destruct (ModsExporter.fetchManifest c pi); inversion E. apply H.
Qed.

(** ** Counting and uniqueness helpers *)

Section LogFacts.
Import RecursiveModsExporter TraversalSpec.

Lemma countClass_total log :
  (countClass success log + countClass incomplete log + countClass error log
   = length log)%nat.
Proof.
  induction log as [|x log IH]; [reflexivity|].
  unfold countClass in *. rewrite !filter_cons. simpl.
  destruct (classify (snd x));
    repeat (destruct (decide _); try discriminate; try congruence);
    simpl; lia.
Qed.

Lemma errorEntries_length log : length (errorEntries log) = countClass error log.
Proof.
  induction log as [|[n [v|e]] log IH]; [reflexivity| |].
  - unfold countClass in *. rewrite filter_cons. simpl.
    destruct (isIncomplete v); exact IH.
  - unfold countClass in *. rewrite filter_cons. simpl. by rewrite <- IH.
Qed.

Lemma errorEntries_elem log n e :
  (n, Rejected e) ∈ log -> (EntityNode.pi n, e) ∈ errorEntries log.
Proof.
  intros H. unfold errorEntries. apply list_elem_of_omap.
  exists (n, Rejected e). split; [done|reflexivity].
Qed.

Lemma NoDup_map_inj_on {A B} (f : A -> B) (l : list A) x y :
  NoDup (map f l) -> x ∈ l -> y ∈ l -> f x = f y -> x = y.
Proof.
  induction l as [|a l IH]; intros Hnd Hx Hy Hf; [inversion Hx|].
  simpl in Hnd. apply NoDup_cons in Hnd as [Ha Hnd].
  apply elem_of_cons in Hx as [->|Hx]; apply elem_of_cons in Hy as [->|Hy].
  - reflexivity.
  - exfalso. apply Ha. rewrite Hf, map_fmap. by apply list_elem_of_fmap_2.
  - exfalso. apply Ha. rewrite <- Hf, map_fmap. by apply list_elem_of_fmap_2.
  - by apply IH.
Qed.

Lemma NoDup_fst_functional {A B} (l : list (A * B)) a b1 b2 :
  NoDup (map fst l) -> (a, b1) ∈ l -> (a, b2) ∈ l -> b1 = b2.
Proof.
  intros Hnd H1 H2.
  assert ((a, b1) = (a, b2)) as Heq
    by (eapply (NoDup_map_inj_on fst); eauto).
  by inversion Heq.
Qed.

(** Once the queue is empty every node that was enqueued has been
    handled, once. *)
Lemma Inv_complete w options rootPI errors0 tr d :
  Inv w options rootPI errors0 tr [] d -> queue tr = [] ->
  enqueued tr = map fst (settled tr)
  /\ NoDup (map fst (settled tr)).
Proof.
  intros HI Hq. pose proof (inv_log _ _ _ _ _ _ _ HI) as Hlog.
  rewrite Hq in Hlog. simpl in Hlog. rewrite app_nil_r in Hlog.
  split; [done|]. rewrite <- Hlog.
  pose proof (inv_nodup _ _ _ _ _ _ _ HI) as Hnd.
  rewrite map_fmap in Hnd. by apply NoDup_fmap_1 in Hnd.
Qed.

Lemma exportRecursive_run fuel w wr rootPI outputPath options tr sh :
  traverseBFS fuel w rootPI options [] (startShared outputPath) = Some (tr, sh) ->
  exportRecursive fuel w wr rootPI outputPath options
  = Some (Fulfilled (summary outputPath tr sh), closedShared sh).
Proof.
  intros H. unfold exportRecursive. rewrite open_result.
  change {| writer := _; incompleteRecords := []; writeModsCalls := [] |}
    with (startShared outputPath).
  rewrite H. pose proof (close_fulfilled (writer sh)) as Hc.
  unfold closedShared.
  destruct (ModsCollectionWriter.close (writer sh)) as [[u|e] wr2];
    [|discriminate].
  destruct u. reflexivity.
Qed.

End LogFacts.

(** ** The crosswalk *)

(** Every entry of the lookup table maps to its target value. *)
Lemma mapResourceType_table :
  Forall (fun kv => Crosswalk.mapResourceType (fst kv) = JString (snd kv))
         [ ("Text", "text"); ("Image", "still image");
           ("StillImage", "still image"); ("MovingImage", "moving image");
           ("Sound", "sound recording"); ("Dataset", "software, multimedia");
           ("InteractiveResource", "software, multimedia");
           ("Software", "software, multimedia"); ("Collection", "mixed material");
           ("PhysicalObject", "three dimensional object"); ("Event", "text");
           ("Service", "text") ].
Proof. repeat constructor. Qed.

(** A string that is neither a key of the table nor the name of a member of
    [Object.prototype] maps to the default. *)
Lemma mapResourceType_default (dcmiType : string) :
  Crosswalk.typeMap !! dcmiType = None ->
  dcmiType ∉ "__proto__" :: objectPrototypeMethods ->
  Crosswalk.mapResourceType dcmiType = JString "text".
Proof.
  intros Hown Hproto.
  assert (dcmiType <> "__proto__") as H2 by (intros ->; apply Hproto; by left).
  assert (dcmiType ∉ objectPrototypeMethods) as H3
    by (intros H; apply Hproto; by right).
  assert (dcmiType <> "constructor") as H1 by (intros ->; apply H3; by left).
  unfold Crosswalk.mapResourceType, objectGet, objectPrototypeGet.
  rewrite Hown.
  rewrite (bool_decide_eq_false_2 _ H1), (bool_decide_eq_false_2 _ H2),
    (bool_decide_eq_false_2 _ H3).
  reflexivity.
Qed.

(** C2. The type ["constructor"] is not a key of the lookup table, and
    [mapResourceType] does not answer with the default ["text"] for it: the
    lookup finds the [constructor] member that the table object inherits,
    which is truthy, so the result is that function. *)
Theorem mapResourceType_inherited_key :
  Crosswalk.typeMap !! "constructor" = None
  /\ Crosswalk.mapResourceType "constructor" = JFunction "Object"
  /\ Crosswalk.mapResourceType "constructor" <> JString "text".
Proof.
  split; [reflexivity|]. split; [reflexivity|]. discriminate.
Qed.

(** The same holds for every other member name of [Object.prototype]. *)
Lemma mapResourceType_inherited_members :
  Forall (fun key => Crosswalk.typeMap !! key = None
                     /\ Crosswalk.mapResourceType key <> JString "text")
         ("__proto__" :: objectPrototypeMethods).
Proof. repeat constructor; discriminate. Qed.

(** C9. For a present PINAX record the crosswalk emits exactly three
    identifiers, in this order: the PINAX id as [local], the manifest's
    persistent identifier as [arke-pi], and the access URI as [uri]; the
    access URI is ["https://arke.institute/" + pi] when [access_url] is
    ["PLACEHOLDER"] and [access_url] itself otherwise. *)
Theorem crosswalk_identifiers (config : ExportConfig.t) (pinax : PinaxMetadata.t)
        (manifest : ArkeManifest.t) (description : option string) :
  (exists uri,
      ModsDocument.identifiers (Crosswalk.crosswalk config pinax manifest description)
      = [ {| ModsIdentifier.value := PinaxMetadata.id pinax;
             ModsIdentifier.type := "local";
             ModsIdentifier.displayLabel := "PINAX ID" |};
          {| ModsIdentifier.value := ArkeManifest.pi manifest;
             ModsIdentifier.type := "arke-pi";
             ModsIdentifier.displayLabel := "Arke Persistent Identifier" |};
          {| ModsIdentifier.value := uri;
             ModsIdentifier.type := "uri";
             ModsIdentifier.displayLabel := "Arke URI" |} ]
      /\ (PinaxMetadata.access_url pinax = "PLACEHOLDER" ->
          uri = "https://arke.institute/" +:+ ArkeManifest.pi manifest)
      /\ (PinaxMetadata.access_url pinax <> "PLACEHOLDER" ->
          uri = PinaxMetadata.access_url pinax))
  /\ length (ModsDocument.identifiers
               (Crosswalk.crosswalk config pinax manifest description)) = 3%nat.
Proof.
  split; [|reflexivity].
  exists (Crosswalk.accessUri pinax manifest).
  split; [reflexivity|]. unfold Crosswalk.accessUri.
  split; intros H.
  - by rewrite bool_decide_eq_true_2.
  - by rewrite bool_decide_eq_false_2.
Qed.

(** The sample record has the placeholder as its access URL. *)
Lemma crosswalk_identifiers_witness :
  exists uri,
    ModsDocument.identifiers
      (Crosswalk.crosswalk Samples.sampleConfig Samples.samplePinax
         (Samples.manifestOf "R" true None) None)
    = [ {| ModsIdentifier.value := "01K9CRZD86";
           ModsIdentifier.type := "local";
           ModsIdentifier.displayLabel := "PINAX ID" |};
        {| ModsIdentifier.value := "R";
           ModsIdentifier.type := "arke-pi";
           ModsIdentifier.displayLabel := "Arke Persistent Identifier" |};
        {| ModsIdentifier.value := uri;
           ModsIdentifier.type := "uri";
           ModsIdentifier.displayLabel := "Arke URI" |} ]
    /\ uri = "https://arke.institute/R".
Proof.
  destruct (crosswalk_identifiers Samples.sampleConfig Samples.samplePinax
              (Samples.manifestOf "R" true None) None)
    as [(uri & Hids & Hplaceholder & _) _].
  exists uri. split; [exact Hids|].
  apply Hplaceholder. reflexivity.
Defined.

(** ** The single-entity exporter *)

Section ExporterFacts.
Import ModsExporter.

Lemma pushNotes_fields extra m :
  ModsDocument.titleInfo (pushNotes extra m) = ModsDocument.titleInfo m
  /\ ModsDocument.identifiers (pushNotes extra m) = ModsDocument.identifiers m
  /\ ModsDocument.location (pushNotes extra m) = ModsDocument.location m
  /\ ModsDocument.recordInfo (pushNotes extra m) = ModsDocument.recordInfo m.
Proof. destruct m; simpl; auto. Qed.

Lemma pushSubjects_fields extra m :
  ModsDocument.titleInfo (pushSubjects extra m) = ModsDocument.titleInfo m
  /\ ModsDocument.identifiers (pushSubjects extra m) = ModsDocument.identifiers m
  /\ ModsDocument.location (pushSubjects extra m) = ModsDocument.location m
  /\ ModsDocument.recordInfo (pushSubjects extra m) = ModsDocument.recordInfo m.
Proof. destruct m; simpl; auto. Qed.

Lemma pushRelatedItems_fields extra m :
  ModsDocument.titleInfo (pushRelatedItems extra m) = ModsDocument.titleInfo m
  /\ ModsDocument.identifiers (pushRelatedItems extra m) = ModsDocument.identifiers m
  /\ ModsDocument.location (pushRelatedItems extra m) = ModsDocument.location m
  /\ ModsDocument.recordInfo (pushRelatedItems extra m) = ModsDocument.recordInfo m.
Proof. destruct m; simpl; auto. Qed.

(** Steps 4 and 5 leave titles, identifiers, location and record info as
    step 3 made them. *)
Lemma mergeCheimarros_fields cheirResult m :
  ModsDocument.titleInfo (mergeCheimarros cheirResult m) = ModsDocument.titleInfo m
  /\ ModsDocument.identifiers (mergeCheimarros cheirResult m)
     = ModsDocument.identifiers m
  /\ ModsDocument.location (mergeCheimarros cheirResult m) = ModsDocument.location m
  /\ ModsDocument.recordInfo (mergeCheimarros cheirResult m)
     = ModsDocument.recordInfo m.
Proof.
  unfold mergeCheimarros.
  repeat match goal with
         | |- context [pushNotes ?e ?x] =>
             destruct (pushNotes_fields e x) as (-> & -> & -> & ->)
         | |- context [pushSubjects ?e ?x] =>
             destruct (pushSubjects_fields e x) as (-> & -> & -> & ->)
         end.
  auto.
Qed.

Lemma linkComponents_fields links m :
  ModsDocument.titleInfo (linkComponents links m) = ModsDocument.titleInfo m
  /\ ModsDocument.identifiers (linkComponents links m) = ModsDocument.identifiers m
  /\ ModsDocument.location (linkComponents links m) = ModsDocument.location m
  /\ ModsDocument.recordInfo (linkComponents links m) = ModsDocument.recordInfo m.
Proof.
  unfold linkComponents.
  repeat match goal with
         | |- context [pushNotes ?e ?x] =>
             destruct (pushNotes_fields e x) as (-> & -> & -> & ->)
         | |- context [pushRelatedItems ?e ?x] =>
             destruct (pushRelatedItems_fields e x) as (-> & -> & -> & ->)
         end.
  auto.
Qed.

End ExporterFacts.

(** A manifest without a [pinax.json] component has no PINAX record. *)
Lemma fetchPinax_missing_component (c : ModsExporter.Collaborators)
      (manifest : ArkeManifest.t) :
  RecursiveModsExporter.hasPinax manifest = false ->
  ModsExporter.fetchPinax c manifest = None.
Proof.
  unfold RecursiveModsExporter.hasPinax, ModsExporter.fetchPinax,
    ModsExporter.componentCid.
  destruct (ArkeManifest.components manifest !! "pinax.json") as [cid|];
    [|reflexivity].
  intros ->. reflexivity.
Qed.

(** C4. When an entity's manifest is fetched and its PINAX record is absent
    (no [pinax.json] component, or one that cannot be fetched or parsed), the
    export does not reject: it serializes a document flagged incomplete that
    has one title, of type [alternative], whose text contains the entity's
    identifier; exactly two identifiers, the persistent identifier and the
    manifest CID; one location URL, the manifest endpoint for that
    identifier; and a record origin that is not empty. *)
Theorem export_without_pinax (config : ExportConfig.t)
        (c : ModsExporter.Collaborators) (pi : string) (manifest : ArkeManifest.t) :
  ModsExporter.fetchManifest c pi = Fulfilled manifest ->
  ModsExporter.fetchPinax c manifest = None ->
  exists mods origin,
    ModsExporter.exportDocument config c manifest = (mods, true)
    /\ ModsExporter.export config c pi = Fulfilled (ModsExporter.generate c mods)
    /\ ModsDocument.titleInfo mods
       = [ {| ModsTitleInfo.title :=
                "[Incomplete Record: " +:+ ArkeManifest.pi manifest +:+ "]";
              ModsTitleInfo.type := Some "alternative" |} ]
    /\ ModsDocument.identifiers mods
       = [ {| ModsIdentifier.value := ArkeManifest.pi manifest;
              ModsIdentifier.type := "arke-pi";
              ModsIdentifier.displayLabel := "Arke Persistent Identifier" |};
           {| ModsIdentifier.value := ArkeManifest.manifest_cid manifest;
              ModsIdentifier.type := "arke-manifest-cid";
              ModsIdentifier.displayLabel := "Manifest CID" |} ]
    /\ ModsDocument.location mods
       = Some {| ModsLocation.physicalLocation := None;
                 ModsLocation.urls :=
                   [ {| ModsUrl.url :=
                          "https://api.arke.institute/manifest/"
                            +:+ ArkeManifest.pi manifest;
                        ModsUrl.usage := Some "primary";
                        ModsUrl.access := None;
                        ModsUrl.displayLabel := Some "Arke Manifest API" |} ] |}
    /\ ModsRecordInfo.recordOrigin (ModsDocument.recordInfo mods) = Some origin
    /\ origin <> "".
Proof.
  intros Hman Hpinax.
  unfold ModsExporter.export, ModsExporter.exportDocument. rewrite Hman, Hpinax.
  simpl.
  eexists _, _. split; [reflexivity|]. split; [reflexivity|].
  match goal with
  | |- context [ModsExporter.linkComponents ?l ?m] =>
      destruct (linkComponents_fields l m) as (-> & -> & -> & ->)
  end.
  destruct (ModsExporter.processCheimarros c manifest) as [cheir|];
    [destruct (ExportConfig.cheimarrosMode config)|];
    try match goal with
        | |- context [ModsExporter.mergeCheimarros ?r ?m] =>
            destruct (mergeCheimarros_fields r m) as (-> & -> & -> & ->)
        end;
    (split; [reflexivity|]); (split; [reflexivity|]); (split; [reflexivity|]);
    (split; [reflexivity|discriminate]).
Qed.

(** The sample collaborators serve manifests without a PINAX component. *)
Lemma export_without_pinax_witness :
  exists mods origin,
    ModsExporter.exportDocument Samples.sampleConfig Samples.sampleCollaborators
      (Samples.manifestOf "R" false None) = (mods, true)
    /\ ModsExporter.export Samples.sampleConfig Samples.sampleCollaborators "R"
       = Fulfilled (ModsExporter.generate Samples.sampleCollaborators mods)
    /\ ModsDocument.titleInfo mods
       = [ {| ModsTitleInfo.title := "[Incomplete Record: R]";
              ModsTitleInfo.type := Some "alternative" |} ]
    /\ length (ModsDocument.identifiers mods) = 2%nat
    /\ ModsRecordInfo.recordOrigin (ModsDocument.recordInfo mods) = Some origin
    /\ origin <> "".
Proof.
  destruct (export_without_pinax Samples.sampleConfig Samples.sampleCollaborators
              "R" (Samples.manifestOf "R" false None))
    as (mods & origin & H1 & H2 & H3 & H4 & H5 & H6 & H7);
    [reflexivity|reflexivity|].
  exists mods, origin.
  split; [exact H1|]. split; [exact H2|]. split; [exact H3|].
  split; [by rewrite H4|]. split; [exact H6|exact H7].
Defined.

(** ** The collection writer *)

(** C10. A [writeMods] call on a writer that is not open, or that has no
    stream, rejects and leaves the writer, its sink included, as it was.  A
    call that is fulfilled found the writer open with a stream and appended
    one chunk to it.  [isOpen] is false in a new writer, true after [open],
    and no other method changes it. *)
Theorem writeMods_requires_open (modsXml : string) (node : EntityNode.t)
        (wr : ModsCollectionWriter.t) :
  ((ModsCollectionWriter.isOpen wr = false \/ ModsCollectionWriter.stream wr = None) ->
   ModsCollectionWriter.writeMods modsXml node wr
   = (Rejected "Writer not open - call open() first", wr))
  /\ (forall u wr',
         ModsCollectionWriter.writeMods modsXml node wr = (Fulfilled u, wr') ->
         ModsCollectionWriter.isOpen wr = true
         /\ exists s record,
              ModsCollectionWriter.stream wr = Some s
              /\ ModsCollectionWriter.stream wr'
                 = Some {| ModsCollectionWriter.path := ModsCollectionWriter.path s;
                           ModsCollectionWriter.chunks :=
                             ModsCollectionWriter.chunks s ++ [record];
                           ModsCollectionWriter.ended := ModsCollectionWriter.ended s |})
  /\ ModsCollectionWriter.isOpen (snd (ModsCollectionWriter.writeMods modsXml node wr))
     = ModsCollectionWriter.isOpen wr
  /\ (forall data,
         ModsCollectionWriter.isOpen (snd (ModsCollectionWriter.write data wr))
         = ModsCollectionWriter.isOpen wr)
  /\ ModsCollectionWriter.isOpen (snd (ModsCollectionWriter.close wr))
     = ModsCollectionWriter.isOpen wr
  /\ ModsCollectionWriter.isOpen ModsCollectionWriter.new = false
  /\ ModsCollectionWriter.stream ModsCollectionWriter.new = None
  /\ (forall outputPath,
         ModsCollectionWriter.isOpen (snd (ModsCollectionWriter.open outputPath wr))
         = true).
Proof.
  split.
  { intros [H|H]; unfold ModsCollectionWriter.writeMods; rewrite H; simpl;
      [reflexivity|]. by rewrite orb_true_r. }
  split.
  { intros u wr' H.
    destruct (writeMods_cases modsXml node wr)
      as [(s & el & Ho & Hs & Hel & Hw)|(e & Hw & _)]; rewrite Hw in H;
      [|discriminate].
    inversion H; subst. split; [done|]. eauto. }
  split.
  { destruct (writeMods_cases modsXml node wr)
      as [(s & el & Ho & Hs & Hel & ->)|(e & -> & _)]; reflexivity. }
  split.
  { intros data. unfold ModsCollectionWriter.write.
    destruct (ModsCollectionWriter.stream wr); reflexivity. }
  split.
  { unfold ModsCollectionWriter.close.
    destruct (ModsCollectionWriter.stream wr) eqn:E; [|reflexivity].
    unfold mbind, ModsCollectionWriter.Task_bind, ModsCollectionWriter.bind.
    rewrite (write_stream _ _ _ E). reflexivity. }
  split; [reflexivity|]. split; [reflexivity|].
  intros outputPath. by rewrite open_result.
Qed.

(** A writer on which [open] was never called. *)
Lemma writeMods_requires_open_witness :
  ModsCollectionWriter.writeMods Samples.sampleXml
    (RecursiveModsExporter.rootNode "R") ModsCollectionWriter.new
  = (Rejected "Writer not open - call open() first", ModsCollectionWriter.new).
Proof.
  apply (proj1 (writeMods_requires_open Samples.sampleXml
                  (RecursiveModsExporter.rootNode "R") ModsCollectionWriter.new)).
  left. reflexivity.
Defined.

(** ** The recursive export *)

(** C1 as the specification words it fails: in the export of a single entity
    without a PINAX record the entity counts as a success and as incomplete,
    so the three counts add up to 2 for 1 entity. *)
Lemma summary_sum_counterexample :
  exists r sh,
    RecursiveModsExporter.exportRecursive 2 Samples.loneWorld
      ModsCollectionWriter.new "R" "out.xml" DEFAULT_RECURSIVE_OPTIONS
    = Some (Fulfilled r, sh)
    /\ (RecursiveExportResult.successCount r
        + RecursiveExportResult.incompleteCount r
        + RecursiveExportResult.errorCount r
        <> RecursiveExportResult.totalEntities r)%nat.
Proof.
  eexists _, _. split; [vm_compute; reflexivity|].
  vm_compute. discriminate.
Qed.

(** C1, amended.  For a batch size of at least 1 the recursive export ends
    with a summary in which [successCount + errorCount = totalEntities] and
    [incompleteCount <= successCount]: [successCount] counts every fulfilled
    node, the incomplete ones among them, so that the fully successful
    ([successCount - incompleteCount]), the incomplete and the failed nodes
    together are all the nodes visited. *)
Theorem summary_counts (w : RecursiveModsExporter.World)
        (wr : ModsCollectionWriter.t) (rootPI outputPath : string)
        (options : RecursiveOptions.t) :
  1 <= RecursiveOptions.parallelBatchSize options ->
  exists N : nat,
    forall fuel, (N <= fuel)%nat ->
      exists r sh,
        RecursiveModsExporter.exportRecursive fuel w wr rootPI outputPath options
        = Some (Fulfilled r, sh)
        /\ (RecursiveExportResult.successCount r + RecursiveExportResult.errorCount r
            = RecursiveExportResult.totalEntities r)%nat
        /\ (RecursiveExportResult.incompleteCount r
            <= RecursiveExportResult.successCount r)%nat
        /\ ((RecursiveExportResult.successCount r
             - RecursiveExportResult.incompleteCount r)
            + RecursiveExportResult.incompleteCount r
            + RecursiveExportResult.errorCount r
            = RecursiveExportResult.totalEntities r)%nat.
Proof.
  intros Hbs.
  destruct (traverseBFS_total w options rootPI []
              (TraversalSpec.startShared outputPath) Hbs) as [N HN].
  exists N. intros fuel Hf.
  destruct (HN fuel Hf) as (tr & sh & d & Hrun & HI & HS & Hq).
  eexists _, _. split; [by apply exportRecursive_run|]. simpl.
  rewrite (TraversalSpec.inv_errors _ _ _ _ _ _ _ HI),
    (TraversalSpec.inv_successCount _ _ _ _ _ _ _ HI),
    (TraversalSpec.inv_incompleteCount _ _ _ _ _ _ _ HI),
    (TraversalSpec.inv_entityCount _ _ _ _ _ _ _ HI).
  simpl. rewrite errorEntries_length.
  pose proof (countClass_total (RecursiveModsExporter.settled tr)). lia.
Qed.

Lemma summary_counts_witness :
  exists N : nat,
    forall fuel, (N <= fuel)%nat ->
      exists r sh,
        RecursiveModsExporter.exportRecursive fuel Samples.sampleWorld
          ModsCollectionWriter.new "R" "out.xml" Samples.sampleOptions
        = Some (Fulfilled r, sh)
        /\ (RecursiveExportResult.successCount r + RecursiveExportResult.errorCount r
            = RecursiveExportResult.totalEntities r)%nat
        /\ (RecursiveExportResult.incompleteCount r
            <= RecursiveExportResult.successCount r)%nat
        /\ ((RecursiveExportResult.successCount r
             - RecursiveExportResult.incompleteCount r)
            + RecursiveExportResult.incompleteCount r
            + RecursiveExportResult.errorCount r
            = RecursiveExportResult.totalEntities r)%nat.
Proof.
  apply (summary_counts Samples.sampleWorld ModsCollectionWriter.new "R" "out.xml"
           Samples.sampleOptions).
  simpl. lia.
Defined.

(** The sample export in figures: six entities, five written (one of them
    incomplete), one failed. *)
Example sample_summary :
  option_map (fun x => fst x)
    (RecursiveModsExporter.exportRecursive 10 Samples.sampleWorld
       ModsCollectionWriter.new "R" "out.xml" Samples.sampleOptions)
  = Some (Fulfilled
            {| RecursiveExportResult.totalEntities := 6;
               RecursiveExportResult.successCount := 5;
               RecursiveExportResult.errorCount := 1;
               RecursiveExportResult.incompleteCount := 1;
               RecursiveExportResult.outputPath := "out.xml";
               RecursiveExportResult.errors :=
                 [("E", "Failed to fetch manifest: 404 Not Found")];
               RecursiveExportResult.incompleteRecords :=
                 [("C", "Missing PINAX metadata (pinax.json component not found)")] |}).
Proof. vm_compute. reflexivity. Qed.

(** C5. For a batch size of at least 1 the traversal ends, and no identifier
    occurs twice among the nodes that were ever pushed on the queue (the root
    included); the visited set holds exactly their identifiers.  At each
    push: a child whose identifier is in the visited set changes nothing, and
    a child whose identifier is not is pushed once and is in the visited set
    from then on. *)
Theorem identifier_enqueued_once (w : RecursiveModsExporter.World)
        (rootPI : string) (options : RecursiveOptions.t)
        (errors0 : list (string * string)) (sh0 : RecursiveModsExporter.Shared) :
  1 <= RecursiveOptions.parallelBatchSize options ->
  (exists N : nat,
      forall fuel, (N <= fuel)%nat ->
        exists tr sh,
          RecursiveModsExporter.traverseBFS fuel w rootPI options errors0 sh0
          = Some (tr, sh)
          /\ NoDup (map EntityNode.pi (RecursiveModsExporter.enqueued tr))
          /\ (forall x, x ∈ RecursiveModsExporter.visited tr
                        <-> x ∈ map EntityNode.pi (RecursiveModsExporter.enqueued tr)))
  /\ (forall node tr childPI,
         childPI ∈ RecursiveModsExporter.visited tr ->
         RecursiveModsExporter.enqueueChild node tr childPI = tr)
  /\ (forall node tr childPI,
         childPI ∉ RecursiveModsExporter.visited tr ->
         RecursiveModsExporter.queue
           (RecursiveModsExporter.enqueueChild node tr childPI)
         = RecursiveModsExporter.queue tr
             ++ [RecursiveModsExporter.childNode node childPI]
         /\ childPI ∈ RecursiveModsExporter.visited
                        (RecursiveModsExporter.enqueueChild node tr childPI)).
Proof.
  intros Hbs. split; [|split].
  - destruct (traverseBFS_total w options rootPI errors0 sh0 Hbs) as [N HN].
    exists N. intros fuel Hf.
    destruct (HN fuel Hf) as (tr & sh & d & Hrun & HI & HS & Hq).
    exists tr, sh. split; [done|]. split; apply HI.
  - intros node tr c Hc. by apply enqueueChild_visited.
  - intros node tr c Hc. rewrite enqueueChild_fresh by done. simpl.
    split; [done|]. apply elem_of_union. right. by apply elem_of_singleton.
Qed.

Lemma identifier_enqueued_once_witness :
  exists N : nat,
    forall fuel, (N <= fuel)%nat ->
      exists tr sh,
        RecursiveModsExporter.traverseBFS fuel Samples.sampleWorld "R"
          Samples.sampleOptions [] (TraversalSpec.startShared "out.xml")
        = Some (tr, sh)
        /\ NoDup (map EntityNode.pi (RecursiveModsExporter.enqueued tr))
        /\ (forall x, x ∈ RecursiveModsExporter.visited tr
                      <-> x ∈ map EntityNode.pi (RecursiveModsExporter.enqueued tr)).
Proof.
  apply (identifier_enqueued_once Samples.sampleWorld "R" Samples.sampleOptions []
           (TraversalSpec.startShared "out.xml")).
  simpl. lia.
Defined.

(** In the sample the grandchild [D] is listed by [A] and by [B], [E] twice
    by [B], and the root by [D]: each is pushed once, under the parent that
    listed it first. *)
Example sample_enqueued :
  option_map
    (fun st => map (fun n => (EntityNode.pi n, EntityNode.depth n, EntityNode.parentPI n))
                   (RecursiveModsExporter.enqueued (fst st)))
    (RecursiveModsExporter.traverseBFS 10 Samples.sampleWorld "R"
       Samples.sampleOptions [] (TraversalSpec.startShared "out.xml"))
  = Some [ ("R", 0, None); ("A", 1, Some "R"); ("B", 1, Some "R");
           ("C", 2, Some "A"); ("D", 2, Some "A"); ("E", 2, Some "B") ].
Proof. vm_compute. reflexivity. Qed.

(** C6. For a batch size of at least 1 the traversal ends, and among the
    nodes that were ever pushed on the queue: the first is the root, at depth
    0; every other node is the child node of a pushed node [p], so its depth
    is [p]'s depth plus 1, and [p]'s depth is below [maxDepth]; hence no
    pushed node has a parent whose depth is [maxDepth]. *)
Theorem child_depth_is_parent_depth_plus_one (w : RecursiveModsExporter.World)
        (rootPI : string) (options : RecursiveOptions.t)
        (errors0 : list (string * string)) (sh0 : RecursiveModsExporter.Shared) :
  1 <= RecursiveOptions.parallelBatchSize options ->
  exists N : nat,
    forall fuel, (N <= fuel)%nat ->
      exists tr sh,
        RecursiveModsExporter.traverseBFS fuel w rootPI options errors0 sh0
        = Some (tr, sh)
        /\ (exists rest,
               RecursiveModsExporter.enqueued tr
               = RecursiveModsExporter.rootNode rootPI :: rest)
        /\ EntityNode.depth (RecursiveModsExporter.rootNode rootPI) = 0
        /\ (forall n,
               n ∈ RecursiveModsExporter.enqueued tr ->
               n = RecursiveModsExporter.rootNode rootPI
               \/ exists p,
                    p ∈ RecursiveModsExporter.enqueued tr
                    /\ n = RecursiveModsExporter.childNode p (EntityNode.pi n)
                    /\ EntityNode.depth n = EntityNode.depth p + 1
                    /\ EntityNode.depth p < RecursiveOptions.maxDepth options)
        /\ (forall p c,
               p ∈ RecursiveModsExporter.enqueued tr ->
               c ∈ RecursiveModsExporter.enqueued tr ->
               EntityNode.parentPI c = Some (EntityNode.pi p) ->
               EntityNode.depth c = EntityNode.depth p + 1
               /\ EntityNode.depth p < RecursiveOptions.maxDepth options
               /\ EntityNode.depth p <> RecursiveOptions.maxDepth options).
Proof.
  intros Hbs.
  destruct (traverseBFS_total w options rootPI errors0 sh0 Hbs) as [N HN].
  exists N. intros fuel Hf.
  destruct (HN fuel Hf) as (tr & sh & d & Hrun & HI & HS & Hq).
  destruct (Inv_complete _ _ _ _ _ _ HI Hq) as [Hall Hnd].
  assert (forall n,
             n ∈ RecursiveModsExporter.enqueued tr ->
             n = RecursiveModsExporter.rootNode rootPI
             \/ exists p,
                  p ∈ RecursiveModsExporter.enqueued tr
                  /\ n = RecursiveModsExporter.childNode p (EntityNode.pi n)
                  /\ EntityNode.depth n = EntityNode.depth p + 1
                  /\ EntityNode.depth p < RecursiveOptions.maxDepth options)
    as Hparent.
  { intros n Hn.
    destruct (TraversalSpec.inv_parent _ _ _ _ _ _ _ HI n Hn)
      as [->|(p & v & cs & Hp & _ & _ & Hd & Hchild)]; [by left|].
    right. exists p. split.
    - rewrite Hall, map_fmap. by apply (list_elem_of_fmap_2 fst _ (p, Fulfilled v)).
    - split; [done|]. split; [by rewrite Hchild|done]. }
  exists tr, sh. split; [done|].
  split; [apply HI|]. split; [reflexivity|]. split; [exact Hparent|].
  intros p c Hp Hc Hpar.
  destruct (Hparent c Hc) as [->|(p' & Hp' & Hchild & Hdepth & Hlt)];
    [discriminate|].
  rewrite Hchild in Hpar. simpl in Hpar. inversion Hpar as [Hpi].
  assert (p' = p) as ->.
  { eapply (NoDup_map_inj_on EntityNode.pi); eauto. apply HI. }
  split; [done|]. split; [done|]. lia.
Qed.

Lemma child_depth_is_parent_depth_plus_one_witness :
  exists N : nat,
    forall fuel, (N <= fuel)%nat ->
      exists tr sh,
        RecursiveModsExporter.traverseBFS fuel Samples.sampleWorld "R"
          Samples.sampleOptions [] (TraversalSpec.startShared "out.xml")
        = Some (tr, sh)
        /\ (exists rest,
               RecursiveModsExporter.enqueued tr
               = RecursiveModsExporter.rootNode "R" :: rest)
        /\ EntityNode.depth (RecursiveModsExporter.rootNode "R") = 0
        /\ (forall n,
               n ∈ RecursiveModsExporter.enqueued tr ->
               n = RecursiveModsExporter.rootNode "R"
               \/ exists p,
                    p ∈ RecursiveModsExporter.enqueued tr
                    /\ n = RecursiveModsExporter.childNode p (EntityNode.pi n)
                    /\ EntityNode.depth n = EntityNode.depth p + 1
                    /\ EntityNode.depth p
                       < RecursiveOptions.maxDepth Samples.sampleOptions)
        /\ (forall p c,
               p ∈ RecursiveModsExporter.enqueued tr ->
               c ∈ RecursiveModsExporter.enqueued tr ->
               EntityNode.parentPI c = Some (EntityNode.pi p) ->
               EntityNode.depth c = EntityNode.depth p + 1
               /\ EntityNode.depth p
                  < RecursiveOptions.maxDepth Samples.sampleOptions
               /\ EntityNode.depth p
                  <> RecursiveOptions.maxDepth Samples.sampleOptions).
Proof.
  apply (child_depth_is_parent_depth_plus_one Samples.sampleWorld "R"
           Samples.sampleOptions [] (TraversalSpec.startShared "out.xml")).
  simpl. lia.
Defined.

(** With [maxDepth = 1] the children of the root are handled and the
    grandchildren are never pushed. *)
Example sample_max_depth :
  option_map
    (fun st => map EntityNode.pi (RecursiveModsExporter.enqueued (fst st)))
    (RecursiveModsExporter.traverseBFS 10 Samples.sampleWorld "R"
       {| RecursiveOptions.maxDepth := 1;
          RecursiveOptions.parallelBatchSize := 2;
          RecursiveOptions.includeParent := true;
          RecursiveOptions.traversalMode := RecursiveOptions.breadthFirst |}
       [] (TraversalSpec.startShared "out.xml"))
  = Some ["R"; "A"; "B"].
Proof. vm_compute. reflexivity. Qed.

(** Offering children to the queue looks at queue, visited set and push log
    only: the counters of the state it starts from play no part. *)
Lemma fold_enqueueChild_counts node cs :
  forall t1 t2 : RecursiveModsExporter.Traversal,
    RecursiveModsExporter.queue t1 = RecursiveModsExporter.queue t2 ->
    RecursiveModsExporter.visited t1 = RecursiveModsExporter.visited t2 ->
    RecursiveModsExporter.enqueued t1 = RecursiveModsExporter.enqueued t2 ->
    RecursiveModsExporter.queue
      (fold_left (RecursiveModsExporter.enqueueChild node) cs t1)
    = RecursiveModsExporter.queue
        (fold_left (RecursiveModsExporter.enqueueChild node) cs t2)
    /\ RecursiveModsExporter.visited
         (fold_left (RecursiveModsExporter.enqueueChild node) cs t1)
       = RecursiveModsExporter.visited
           (fold_left (RecursiveModsExporter.enqueueChild node) cs t2)
    /\ RecursiveModsExporter.enqueued
         (fold_left (RecursiveModsExporter.enqueueChild node) cs t1)
       = RecursiveModsExporter.enqueued
           (fold_left (RecursiveModsExporter.enqueueChild node) cs t2).
Proof.
  induction cs as [|c cs IH]; intros t1 t2 Hq Hv He; simpl; [done|].
  apply IH; unfold RecursiveModsExporter.enqueueChild; rewrite Hv;
    destruct (bool_decide _); simpl; congruence.
Qed.

(** A fulfilled task carries the children its manifest lists and is
    incomplete exactly when the manifest has no [pinax.json]. *)
Lemma processEntity_fulfilled (w : RecursiveModsExporter.World)
      (node : EntityNode.t) (sh sh' : RecursiveModsExporter.Shared)
      (v : RecursiveModsExporter.ProcessResult) :
  RecursiveModsExporter.processEntity w node sh = (Fulfilled v, sh') ->
  exists manifest,
    RecursiveModsExporter.fetchManifest w (EntityNode.pi node) = Fulfilled manifest
    /\ RecursiveModsExporter.children v = ArkeManifest.children_pi manifest
    /\ RecursiveModsExporter.isIncomplete v
       = negb (RecursiveModsExporter.hasPinax manifest).
Proof.
  unfold RecursiveModsExporter.processEntity.
  destruct (RecursiveModsExporter.fetchManifest w (EntityNode.pi node))
    as [manifest|e]; [|discriminate].
  destruct (RecursiveModsExporter.exportEntity w (EntityNode.pi node))
    as [xml|e]; [|discriminate].
  destruct (ModsCollectionWriter.writeMods xml node (RecursiveModsExporter.writer sh))
    as [[u|e] wr]; [|discriminate].
  intros [= <- _]. by exists manifest.
Qed.

(** C7. For a batch size of at least 1 and a sink that has not ended when
    the traversal starts: handling a fulfilled outcome changes
    queue, visited set and push log in a way that depends on the children it
    carries and not on its [isIncomplete] flag; the traversal ends with an
    empty queue, every pushed node handled, each outcome being that of the
    node's task; a node whose task was rejected has its identifier and
    message in [errors], the number of [errors] entries is the number of
    rejected nodes, and no pushed node names it as parent; every child
    listed by a fulfilled node below [maxDepth], incomplete or not, is among
    the pushed nodes.  The children a fulfilled node carries are those its
    manifest lists in [children_pi], and the node is incomplete exactly when
    the manifest has no [pinax.json]: every child the manifest of a
    fulfilled node below [maxDepth] lists is among the pushed nodes, with or
    without [pinax.json].  With an open writer and exports that carry a
    [<mods] element, a pushed node whose manifest is fetched and whose
    export is fulfilled is fulfilled, whether or not the manifest has
    [pinax.json], so that the children its manifest lists are pushed. *)
Theorem rejected_and_incomplete_nodes (w : RecursiveModsExporter.World)
        (rootPI : string) (options : RecursiveOptions.t)
        (sh0 : RecursiveModsExporter.Shared) :
  1 <= RecursiveOptions.parallelBatchSize options ->
  (forall s,
      ModsCollectionWriter.stream (RecursiveModsExporter.writer sh0) = Some s ->
      ModsCollectionWriter.ended s = false) ->
  (forall node v1 v2 tr0,
      RecursiveModsExporter.children v1 = RecursiveModsExporter.children v2 ->
      RecursiveModsExporter.queue
        (RecursiveModsExporter.handleResult options node (Fulfilled v1) tr0)
      = RecursiveModsExporter.queue
          (RecursiveModsExporter.handleResult options node (Fulfilled v2) tr0)
      /\ RecursiveModsExporter.visited
           (RecursiveModsExporter.handleResult options node (Fulfilled v1) tr0)
         = RecursiveModsExporter.visited
             (RecursiveModsExporter.handleResult options node (Fulfilled v2) tr0)
      /\ RecursiveModsExporter.enqueued
           (RecursiveModsExporter.handleResult options node (Fulfilled v1) tr0)
         = RecursiveModsExporter.enqueued
             (RecursiveModsExporter.handleResult options node (Fulfilled v2) tr0))
  /\ (forall node e tr0,
         RecursiveModsExporter.queue
           (RecursiveModsExporter.handleResult options node (Rejected e) tr0)
         = RecursiveModsExporter.queue tr0
         /\ RecursiveModsExporter.visited
              (RecursiveModsExporter.handleResult options node (Rejected e) tr0)
            = RecursiveModsExporter.visited tr0)
  /\ exists N : nat,
       forall fuel, (N <= fuel)%nat ->
         exists tr sh,
           RecursiveModsExporter.traverseBFS fuel w rootPI options [] sh0
           = Some (tr, sh)
           /\ RecursiveModsExporter.queue tr = []
           /\ RecursiveModsExporter.enqueued tr
              = map fst (RecursiveModsExporter.settled tr)
           /\ (forall n r,
                  (n, r) ∈ RecursiveModsExporter.settled tr ->
                  exists sh1 sh2,
                    RecursiveModsExporter.processEntity w n sh1 = (r, sh2))
           /\ (forall n e,
                  (n, Rejected e) ∈ RecursiveModsExporter.settled tr ->
                  (EntityNode.pi n, e) ∈ RecursiveModsExporter.errors tr
                  /\ forall c,
                       c ∈ RecursiveModsExporter.enqueued tr ->
                       EntityNode.parentPI c <> Some (EntityNode.pi n))
           /\ length (RecursiveModsExporter.errors tr)
              = TraversalSpec.countClass TraversalSpec.error
                  (RecursiveModsExporter.settled tr)
           /\ (forall n v cs c,
                  (n, Fulfilled v) ∈ RecursiveModsExporter.settled tr ->
                  RecursiveModsExporter.children v = Some cs ->
                  EntityNode.depth n < RecursiveOptions.maxDepth options ->
                  c ∈ cs ->
                  c ∈ map EntityNode.pi (RecursiveModsExporter.enqueued tr))
           /\ (forall n v,
                  (n, Fulfilled v) ∈ RecursiveModsExporter.settled tr ->
                  exists manifest,
                    RecursiveModsExporter.fetchManifest w (EntityNode.pi n)
                    = Fulfilled manifest
                    /\ RecursiveModsExporter.children v
                       = ArkeManifest.children_pi manifest
                    /\ RecursiveModsExporter.isIncomplete v
                       = negb (RecursiveModsExporter.hasPinax manifest)
                    /\ forall cs c,
                         ArkeManifest.children_pi manifest = Some cs ->
                         EntityNode.depth n < RecursiveOptions.maxDepth options ->
                         c ∈ cs ->
                         c ∈ map EntityNode.pi (RecursiveModsExporter.enqueued tr))
           /\ (ModsCollectionWriter.isOpen (RecursiveModsExporter.writer sh0) = true ->
               is_Some (ModsCollectionWriter.stream (RecursiveModsExporter.writer sh0)) ->
               TraversalSpec.exportsHaveMods w ->
               forall n manifest,
                 n ∈ RecursiveModsExporter.enqueued tr ->
                 RecursiveModsExporter.fetchManifest w (EntityNode.pi n)
                 = Fulfilled manifest ->
                 isFulfilled (RecursiveModsExporter.exportEntity w (EntityNode.pi n))
                 = true ->
                 (exists v,
                     (n, Fulfilled v) ∈ RecursiveModsExporter.settled tr
                     /\ RecursiveModsExporter.isIncomplete v
                        = negb (RecursiveModsExporter.hasPinax manifest))
                 /\ forall cs c,
                      ArkeManifest.children_pi manifest = Some cs ->
                      EntityNode.depth n < RecursiveOptions.maxDepth options ->
                      c ∈ cs ->
                      c ∈ map EntityNode.pi (RecursiveModsExporter.enqueued tr)).
Proof.
  intros Hbs _. split; [|split].
  { intros node v1 v2 tr0 Hc.
    unfold RecursiveModsExporter.handleResult, RecursiveModsExporter.enqueueChildren.
    rewrite Hc. simpl.
    destruct (RecursiveModsExporter.children v2) as [cs|]; [|done].
    destruct (EntityNode.depth node <? RecursiveOptions.maxDepth options); [|done].
    by apply fold_enqueueChild_counts. }
  { intros node e tr0. split; reflexivity. }
  destruct (traverseBFS_total w options rootPI [] sh0 Hbs) as [N HN].
  exists N. intros fuel Hf.
  destruct (HN fuel Hf) as (tr & sh & d & Hrun & HI & HS & Hq).
  destruct (Inv_complete _ _ _ _ _ _ HI Hq) as [Hall Hnd].
  assert (forall n v cs c,
             (n, Fulfilled v) ∈ RecursiveModsExporter.settled tr ->
             RecursiveModsExporter.children v = Some cs ->
             EntityNode.depth n < RecursiveOptions.maxDepth options ->
             c ∈ cs ->
             c ∈ map EntityNode.pi (RecursiveModsExporter.enqueued tr)) as Hpushed.
  { intros n v cs c Hn Hcs Hd Hc.
    apply (TraversalSpec.inv_visited _ _ _ _ _ _ _ HI).
    by eapply (TraversalSpec.inv_children _ _ _ _ _ _ _ HI). }
  assert (forall n v,
             (n, Fulfilled v) ∈ RecursiveModsExporter.settled tr ->
             exists manifest,
               RecursiveModsExporter.fetchManifest w (EntityNode.pi n)
               = Fulfilled manifest
               /\ RecursiveModsExporter.children v
                  = ArkeManifest.children_pi manifest
               /\ RecursiveModsExporter.isIncomplete v
                  = negb (RecursiveModsExporter.hasPinax manifest)) as Hmanifest.
  { intros n v Hn.
    destruct (TraversalSpec.inv_outcome _ _ _ _ _ _ _ HI n _ Hn) as (sh1 & sh2 & Hp).
    by eapply processEntity_fulfilled. }
  exists tr, sh. split; [done|]. split; [done|]. split; [done|].
  split; [apply HI|]. split.
  { intros n e Hn. split.
    - rewrite (TraversalSpec.inv_errors _ _ _ _ _ _ _ HI). simpl.
      by apply errorEntries_elem.
    - intros c Hc Hpar.
      destruct (TraversalSpec.inv_parent _ _ _ _ _ _ _ HI c Hc)
        as [->|(p & v & cs & Hp & _ & _ & _ & Hchild)]; [discriminate|].
      rewrite Hchild in Hpar. simpl in Hpar. inversion Hpar as [Hpi].
      assert (p = n) as ->.
      { eapply (NoDup_map_inj_on EntityNode.pi); [apply HI| | |done].
        - rewrite Hall, map_fmap.
          by apply (list_elem_of_fmap_2 fst _ (p, Fulfilled v)).
        - rewrite Hall, map_fmap.
          by apply (list_elem_of_fmap_2 fst _ (n, Rejected e)). }
      pose proof (NoDup_fst_functional _ _ _ _ Hnd Hp Hn). discriminate. }
  split.
  { rewrite (TraversalSpec.inv_errors _ _ _ _ _ _ _ HI). simpl.
    apply errorEntries_length. }
  split; [exact Hpushed|]. split.
  { intros n v Hn. destruct (Hmanifest n v Hn) as (manifest & Hm & Hc & Hi).
    exists manifest. split; [done|]. split; [done|]. split; [done|].
    intros cs c Hcs Hd Hin. apply (Hpushed n v cs c Hn); [|done|done].
    by rewrite Hc. }
  intros Hopen Hstream Hmods n manifest Hn Hm He.
  rewrite Hall, map_fmap in Hn.
  apply list_elem_of_fmap in Hn as ([n' r] & -> & Hn). simpl in *.
  pose proof (TraversalSpec.sinv_fulfilled _ _ _ _ HS Hopen Hstream Hmods _ _ Hn)
    as Hr.
  unfold TraversalSpec.reachesWrite in Hr. rewrite Hm, He in Hr. simpl in Hr.
  destruct r as [v|e]; [|discriminate].
  destruct (Hmanifest n' v Hn) as (manifest' & Hm' & Hc & Hi).
  rewrite Hm in Hm'. injection Hm' as <-.
  split; [by exists v|].
  intros cs c Hcs Hd Hin. apply (Hpushed n' v cs c Hn); [|done|done].
  by rewrite Hc.
Qed.

Lemma rejected_and_incomplete_nodes_witness :
  exists N : nat,
    forall fuel, (N <= fuel)%nat ->
      exists tr sh,
        RecursiveModsExporter.traverseBFS fuel Samples.incompleteWorld "R"
          Samples.sampleOptions [] (TraversalSpec.startShared "out.xml")
        = Some (tr, sh)
        /\ RecursiveModsExporter.queue tr = []
        /\ RecursiveModsExporter.enqueued tr
           = map fst (RecursiveModsExporter.settled tr)
        /\ (forall n r,
               (n, r) ∈ RecursiveModsExporter.settled tr ->
               exists sh1 sh2,
                 RecursiveModsExporter.processEntity Samples.incompleteWorld n sh1
                 = (r, sh2))
        /\ (forall n e,
               (n, Rejected e) ∈ RecursiveModsExporter.settled tr ->
               (EntityNode.pi n, e) ∈ RecursiveModsExporter.errors tr
               /\ forall c,
                    c ∈ RecursiveModsExporter.enqueued tr ->
                    EntityNode.parentPI c <> Some (EntityNode.pi n))
        /\ length (RecursiveModsExporter.errors tr)
           = TraversalSpec.countClass TraversalSpec.error
               (RecursiveModsExporter.settled tr)
        /\ (forall n v cs c,
               (n, Fulfilled v) ∈ RecursiveModsExporter.settled tr ->
               RecursiveModsExporter.children v = Some cs ->
               EntityNode.depth n < RecursiveOptions.maxDepth Samples.sampleOptions ->
               c ∈ cs ->
               c ∈ map EntityNode.pi (RecursiveModsExporter.enqueued tr))
        /\ (forall n v,
               (n, Fulfilled v) ∈ RecursiveModsExporter.settled tr ->
               exists manifest,
                 RecursiveModsExporter.fetchManifest Samples.incompleteWorld
                   (EntityNode.pi n)
                 = Fulfilled manifest
                 /\ RecursiveModsExporter.children v
                    = ArkeManifest.children_pi manifest
                 /\ RecursiveModsExporter.isIncomplete v
                    = negb (RecursiveModsExporter.hasPinax manifest)
                 /\ forall cs c,
                      ArkeManifest.children_pi manifest = Some cs ->
                      EntityNode.depth n
                      < RecursiveOptions.maxDepth Samples.sampleOptions ->
                      c ∈ cs ->
                      c ∈ map EntityNode.pi (RecursiveModsExporter.enqueued tr))
        /\ (ModsCollectionWriter.isOpen
              (RecursiveModsExporter.writer (TraversalSpec.startShared "out.xml"))
            = true ->
            is_Some (ModsCollectionWriter.stream
                       (RecursiveModsExporter.writer
                          (TraversalSpec.startShared "out.xml"))) ->
            TraversalSpec.exportsHaveMods Samples.incompleteWorld ->
            forall n manifest,
              n ∈ RecursiveModsExporter.enqueued tr ->
              RecursiveModsExporter.fetchManifest Samples.incompleteWorld
                (EntityNode.pi n)
              = Fulfilled manifest ->
              isFulfilled (RecursiveModsExporter.exportEntity Samples.incompleteWorld
                             (EntityNode.pi n))
              = true ->
              (exists v,
                  (n, Fulfilled v) ∈ RecursiveModsExporter.settled tr
                  /\ RecursiveModsExporter.isIncomplete v
                     = negb (RecursiveModsExporter.hasPinax manifest))
              /\ forall cs c,
                   ArkeManifest.children_pi manifest = Some cs ->
                   EntityNode.depth n
                   < RecursiveOptions.maxDepth Samples.sampleOptions ->
                   c ∈ cs ->
                   c ∈ map EntityNode.pi (RecursiveModsExporter.enqueued tr)).
Proof.
  apply (rejected_and_incomplete_nodes Samples.incompleteWorld "R"
           Samples.sampleOptions (TraversalSpec.startShared "out.xml")).
  - simpl. lia.
  - intros s [= <-]. reflexivity.
Defined.

(** The traversal of a world whose root has no PINAX record: the root and
    its first child are incomplete and their children are pushed all the
    same; the second child cannot be fetched and is an error; the
    grandchild is a success. *)
Example incomplete_children_pushed :
  option_map
    (fun st =>
       (map EntityNode.pi (RecursiveModsExporter.enqueued (fst st)),
        map (fun x => (EntityNode.pi (fst x), TraversalSpec.classify (snd x)))
            (RecursiveModsExporter.settled (fst st))))
    (RecursiveModsExporter.traverseBFS 10 Samples.incompleteWorld "R"
       Samples.sampleOptions [] (TraversalSpec.startShared "out.xml"))
  = Some (["R"; "A"; "B"; "C"],
          [("R", TraversalSpec.incomplete); ("A", TraversalSpec.incomplete);
           ("B", TraversalSpec.error); ("C", TraversalSpec.success)]).
Proof. vm_compute. reflexivity. Qed.

(** The sample world's exports all carry a [<mods] element. *)
Lemma sampleWorld_exportsHaveMods : TraversalSpec.exportsHaveMods Samples.sampleWorld.
Proof. intros pi xml H. inversion H. reflexivity. Qed.

(** C8. For a batch size of at least 1 and exports that carry a [<mods]
    element, the recursive export ends and the number of [writeMods] calls is
    the number of nodes classified success plus the number classified
    incomplete; [successCount] of the summary is that sum and
    [incompleteCount] its second term.  No call was made for a node whose
    task was rejected, and the sink holds, after the header, one record per
    call. *)
Theorem writeMods_calls_count (w : RecursiveModsExporter.World)
        (wr : ModsCollectionWriter.t) (rootPI outputPath : string)
        (options : RecursiveOptions.t) :
  1 <= RecursiveOptions.parallelBatchSize options ->
  TraversalSpec.exportsHaveMods w ->
  exists N : nat,
    forall fuel, (N <= fuel)%nat ->
      exists tr sh r,
        RecursiveModsExporter.traverseBFS fuel w rootPI options []
          (TraversalSpec.startShared outputPath) = Some (tr, sh)
        /\ RecursiveModsExporter.exportRecursive fuel w wr rootPI outputPath options
           = Some (Fulfilled r, TraversalSpec.closedShared sh)
        /\ length (RecursiveModsExporter.writeModsCalls sh)
           = (TraversalSpec.countClass TraversalSpec.success
                (RecursiveModsExporter.settled tr)
              + TraversalSpec.countClass TraversalSpec.incomplete
                  (RecursiveModsExporter.settled tr))%nat
        /\ RecursiveExportResult.successCount r
           = (TraversalSpec.countClass TraversalSpec.success
                (RecursiveModsExporter.settled tr)
              + TraversalSpec.countClass TraversalSpec.incomplete
                  (RecursiveModsExporter.settled tr))%nat
        /\ RecursiveExportResult.incompleteCount r
           = TraversalSpec.countClass TraversalSpec.incomplete
               (RecursiveModsExporter.settled tr)
        /\ RecursiveExportResult.errorCount r
           = TraversalSpec.countClass TraversalSpec.error
               (RecursiveModsExporter.settled tr)
        /\ (forall n e,
               (n, Rejected e) ∈ RecursiveModsExporter.settled tr ->
               EntityNode.pi n ∉ RecursiveModsExporter.writeModsCalls sh)
        /\ (exists s records,
               ModsCollectionWriter.stream (RecursiveModsExporter.writer sh) = Some s
               /\ ModsCollectionWriter.chunks s
                  = ModsCollectionWriter.header ++ records
               /\ length records
                  = length (RecursiveModsExporter.writeModsCalls sh)).
Proof.
  intros Hbs Hmods.
  destruct (traverseBFS_total w options rootPI []
              (TraversalSpec.startShared outputPath) Hbs) as [N HN].
  exists N. intros fuel Hf.
  destruct (HN fuel Hf) as (tr & sh & d & Hrun & HI & HS & Hq).
  destruct (Inv_complete _ _ _ _ _ _ HI Hq) as [Hall Hnd].
  pose proof (TraversalSpec.sinv_fulfilled _ _ _ _ HS eq_refl
                ltac:(by eexists) Hmods) as Hful.
  assert (filter (fun n => TraversalSpec.reachesWrite w n = true)
                 (map fst (RecursiveModsExporter.settled tr))
          = map fst (filter (fun x => isFulfilled (snd x) = true)
                            (RecursiveModsExporter.settled tr))) as Hfilter.
  { revert Hful. generalize (RecursiveModsExporter.settled tr). clear.
    induction l as [|[n r] l IH]; intros Hful; [reflexivity|]. simpl.
    rewrite !filter_cons. simpl.
    rewrite <- (Hful n r) by (by left).
    rewrite IH by (intros n' r' H; apply Hful; by right).
    destruct (decide _); reflexivity. }
  assert (length (filter (fun x : EntityNode.t * Settled RecursiveModsExporter.ProcessResult
                          => isFulfilled (snd x) = true)
                         (RecursiveModsExporter.settled tr))
          = (TraversalSpec.countClass TraversalSpec.success
               (RecursiveModsExporter.settled tr)
             + TraversalSpec.countClass TraversalSpec.incomplete
                 (RecursiveModsExporter.settled tr))%nat) as Hcount.
  { generalize (RecursiveModsExporter.settled tr). clear.
    induction l as [|[n [v|e]] l IH]; [reflexivity| |];
      unfold TraversalSpec.countClass in *; rewrite !filter_cons; simpl.
    - destruct (RecursiveModsExporter.isIncomplete v); simpl; lia.
    - exact IH. }
  assert (length (RecursiveModsExporter.writeModsCalls sh)
          = (TraversalSpec.countClass TraversalSpec.success
               (RecursiveModsExporter.settled tr)
             + TraversalSpec.countClass TraversalSpec.incomplete
                 (RecursiveModsExporter.settled tr))%nat) as Hcalls.
  { rewrite (TraversalSpec.sinv_calls _ _ _ _ HS). simpl.
    rewrite Hfilter, !length_map. exact Hcount. }
  exists tr, sh. eexists.
  split; [done|]. split; [by apply exportRecursive_run|]. simpl.
  split; [exact Hcalls|].
  split; [apply HI|]. split; [apply HI|].
  split.
  { rewrite (TraversalSpec.inv_errors _ _ _ _ _ _ _ HI). simpl.
    apply errorEntries_length. }
  split.
  { intros n e Hn Hin.
    rewrite (TraversalSpec.sinv_calls _ _ _ _ HS) in Hin. simpl in Hin.
    rewrite map_fmap in Hin. apply list_elem_of_fmap in Hin as (m & Hpi & Hm).
    apply list_elem_of_filter in Hm as [Hreach Hm].
    assert (m = n) as ->.
    { eapply (NoDup_map_inj_on EntityNode.pi); [apply HI| | |done].
      - by rewrite Hall.
      - rewrite Hall, map_fmap.
        by apply (list_elem_of_fmap_2 fst _ (n, Rejected e)). }
    pose proof (Hful n (Rejected e) Hn) as Hr. simpl in Hr. congruence. }
  destruct (TraversalSpec.sinv_chunks _ _ _ _ HS _ eq_refl)
    as (s & records & Hs & Hchunks & Hlen).
  exists s, records. split; [done|]. split; [done|]. by rewrite Hlen, Hcalls.
Qed.

Lemma writeMods_calls_count_witness :
  exists N : nat,
    forall fuel, (N <= fuel)%nat ->
      exists tr sh r,
        RecursiveModsExporter.traverseBFS fuel Samples.sampleWorld "R"
          Samples.sampleOptions [] (TraversalSpec.startShared "out.xml")
        = Some (tr, sh)
        /\ RecursiveModsExporter.exportRecursive fuel Samples.sampleWorld
             ModsCollectionWriter.new "R" "out.xml" Samples.sampleOptions
           = Some (Fulfilled r, TraversalSpec.closedShared sh)
        /\ length (RecursiveModsExporter.writeModsCalls sh)
           = (TraversalSpec.countClass TraversalSpec.success
                (RecursiveModsExporter.settled tr)
              + TraversalSpec.countClass TraversalSpec.incomplete
                  (RecursiveModsExporter.settled tr))%nat
        /\ RecursiveExportResult.successCount r
           = (TraversalSpec.countClass TraversalSpec.success
                (RecursiveModsExporter.settled tr)
              + TraversalSpec.countClass TraversalSpec.incomplete
                  (RecursiveModsExporter.settled tr))%nat
        /\ RecursiveExportResult.incompleteCount r
           = TraversalSpec.countClass TraversalSpec.incomplete
               (RecursiveModsExporter.settled tr)
        /\ RecursiveExportResult.errorCount r
           = TraversalSpec.countClass TraversalSpec.error
               (RecursiveModsExporter.settled tr)
        /\ (forall n e,
               (n, Rejected e) ∈ RecursiveModsExporter.settled tr ->
               EntityNode.pi n ∉ RecursiveModsExporter.writeModsCalls sh)
        /\ (exists s records,
               ModsCollectionWriter.stream (RecursiveModsExporter.writer sh) = Some s
               /\ ModsCollectionWriter.chunks s
                  = ModsCollectionWriter.header ++ records
               /\ length records
                  = length (RecursiveModsExporter.writeModsCalls sh)).
Proof.
  apply (writeMods_calls_count Samples.sampleWorld ModsCollectionWriter.new "R"
           "out.xml" Samples.sampleOptions).
  - simpl. lia.
  - intros pi xml H. inversion H. reflexivity.
Defined.

(** In the sample: five calls, for the five nodes that were written; none
    for [E], whose manifest cannot be fetched. *)
Example sample_writeMods_calls :
  option_map (fun x => RecursiveModsExporter.writeModsCalls (snd x))
    (RecursiveModsExporter.exportRecursive 10 Samples.sampleWorld
       ModsCollectionWriter.new "R" "out.xml" Samples.sampleOptions)
  = Some ["R"; "A"; "B"; "C"; "D"].
Proof. vm_compute. reflexivity. Qed.

(** * Further properties of the code *)

(** ** Text utilities *)

Section TextMoreFacts.
Import TextUtils TextUtilsMore.

Lemma fold_unitBytes t acc :
  fold_left (fun size code => size + unitBytes code) t acc
  = acc + fold_left (fun size code => size + unitBytes code) t 0.
Proof.
  revert acc. induction t as [|u t IH]; intros acc; simpl; [lia|].
  rewrite (IH (acc + unitBytes u)), (IH (0 + unitBytes u)). lia.
Qed.

Lemma unitBytes_range u : 1 <= unitBytes u <= 4.
Proof.
  unfold unitBytes.
  destruct (u <? 128)%N; [lia|]. destruct (u <? 2048)%N; [lia|].
  destruct ((u <? 55296)%N || (57344 <=? u)%N); lia.
Qed.

Lemma trimStart_suffix t : exists front, t = front ++ trimStart t.
Proof.
  induction t as [|u t [front IH]]; [by exists []|]. simpl.
  destruct (isTrimmed u).
  - exists (u :: front). simpl. by f_equal.
  - by exists [].
Qed.

Lemma trimStart_head t u rest : trimStart t = u :: rest -> isTrimmed u = false.
Proof.
  induction t as [|v t IH]; [done|]. simpl.
  destruct (isTrimmed v) eqn:E; [exact IH|]. intros H. by inversion H; subst.
Qed.

Lemma trimStart_id t :
  (forall u rest, t = u :: rest -> isTrimmed u = false) -> trimStart t = t.
Proof.
  destruct t as [|u t]; [done|]. intros H. simpl. by rewrite (H u t).
Qed.

(** [trim] keeps a middle part of the text. *)
Lemma trim_infix t : exists front back, t = front ++ trim t ++ back.
Proof.
  unfold trim, trimEnd.
  destruct (trimStart_suffix t) as [front Hf].
  destruct (trimStart_suffix (rev (trimStart t))) as [back Hb].
  exists front, (rev back).
  rewrite <- rev_app_distr, <- Hb, rev_involutive. exact Hf.
Qed.

Lemma trim_head t u rest : trim t = u :: rest -> isTrimmed u = false.
Proof.
  unfold trim, trimEnd. intros H.
  destruct (trimStart_suffix (rev (trimStart t))) as [back Hb].
  assert (trimStart t = (u :: rest) ++ rev back) as Ht.
  { rewrite <- H, <- rev_app_distr, <- Hb. by rewrite rev_involutive. }
  by apply (trimStart_head t u (rest ++ rev back)).
Qed.

Lemma trim_last t front u : trim t = front ++ [u] -> isTrimmed u = false.
Proof.
  unfold trim, trimEnd. intros H.
  apply (f_equal (@rev N)) in H. rewrite rev_involutive, rev_app_distr in H.
  simpl in H. by apply trimStart_head in H.
Qed.

Lemma trim_id t :
  (forall u rest, t = u :: rest -> isTrimmed u = false) ->
  (forall front u, t = front ++ [u] -> isTrimmed u = false) ->
  trim t = t.
Proof.
  intros Hh Hl. unfold trim, trimEnd. rewrite (trimStart_id t Hh).
  rewrite trimStart_id; [apply rev_involutive|].
  intros u rest H. apply (Hl (rev rest) u).
  rewrite <- (rev_involutive t), H. reflexivity.
Qed.

(** Induction that steps over one or two code units. *)
Lemma jsstring_ind2 (P : jsstring -> Prop) :
  P [] -> (forall u, P [u]) ->
  (forall u v t, P t -> P (v :: t) -> P (u :: v :: t)) ->
  forall t, P t.
Proof.
  intros H0 H1 H2 t.
  assert (P t /\ forall u, P (u :: t)) as [H _]; [|exact H].
  induction t as [|v t [IH1 IH2]]; [auto|].
  split; [apply IH2|]. intros u. apply H2; auto.
Qed.

Lemma replaceCrLf_length t : (length (replaceCrLf t) <= length t)%nat.
Proof.
  induction t as [|u|u v t IH1 IH2] using jsstring_ind2; [done|done|].
  change (replaceCrLf (u :: v :: t))
    with (if (u =? 13)%N && (v =? 10)%N then 10%N :: replaceCrLf t
          else u :: replaceCrLf (v :: t)).
  destruct ((u =? 13)%N && (v =? 10)%N); simpl in *; lia.
Qed.

Lemma replaceCrLf_elem x t : x ∈ replaceCrLf t -> x ∈ t.
Proof.
  induction t as [|u|u v t IH1 IH2] using jsstring_ind2; [done|done|].
  change (replaceCrLf (u :: v :: t))
    with (if (u =? 13)%N && (v =? 10)%N then 10%N :: replaceCrLf t
          else u :: replaceCrLf (v :: t)).
  destruct ((u =? 13)%N && (v =? 10)%N) eqn:E.
  - apply andb_true_iff in E as [_ Ev]. apply N.eqb_eq in Ev as ->.
    intros [->|H]%elem_of_cons; [right; by left|]. right. right. by apply IH1.
  - intros [->|H]%elem_of_cons; [by left|]. right. by apply IH2.
Qed.

Lemma replaceCrLf_id t : 13%N ∉ t -> replaceCrLf t = t.
Proof.
  induction t as [|u|u v t IH1 IH2] using jsstring_ind2; [done|done|].
  intros H.
  change (replaceCrLf (u :: v :: t))
    with (if (u =? 13)%N && (v =? 10)%N then 10%N :: replaceCrLf t
          else u :: replaceCrLf (v :: t)).
  destruct (u =? 13)%N eqn:E.
  - apply N.eqb_eq in E as ->. exfalso. apply H. by left.
  - simpl. f_equal. apply IH2. intros Hin. apply H. by right.
Qed.

Lemma replaceCr_no_cr t : 13%N ∉ replaceCr t.
Proof.
  unfold replaceCr. rewrite map_fmap. intros H.
  apply list_elem_of_fmap in H as (u & Hu & _).
  destruct (u =? 13)%N eqn:E; [done|]. apply N.eqb_neq in E. done.
Qed.

Lemma replaceCr_id t : 13%N ∉ t -> replaceCr t = t.
Proof.
  induction t as [|u t IH]; [done|]. intros H. unfold replaceCr in *. simpl.
  destruct (u =? 13)%N eqn:E.
  - apply N.eqb_eq in E as ->. exfalso. apply H. by left.
  - f_equal. apply IH. intros Hin. apply H. by right.
Qed.

Lemma collapseLineFeeds_length run t :
  (length (collapseLineFeeds run t) <= length t)%nat.
Proof.
  revert run. induction t as [|u t IH]; intros run; simpl; [lia|].
  destruct (u =? 10)%N; [destruct (run <? 2)%nat|]; simpl.
  - pose proof (IH (S run)). lia.
  - pose proof (IH run). lia.
  - pose proof (IH 0%nat). lia.
Qed.

Lemma collapseLineFeeds_elem x run t : x ∈ collapseLineFeeds run t -> x ∈ t.
Proof.
  revert run. induction t as [|u t IH]; intros run; simpl; [done|].
  destruct (u =? 10)%N; [destruct (run <? 2)%nat|].
  - intros [->|H]%elem_of_cons; [by left|]. right. by eapply IH.
  - intros H. right. by eapply IH.
  - intros [->|H]%elem_of_cons; [by left|]. right. by eapply IH.
Qed.

(** The number of line feeds a text starts with. *)
Lemma collapseLineFeeds_lead run t a :
  (run <= 2)%nat ->
  collapseLineFeeds run t = replicate (3 - run) 10%N ++ a -> False.
Proof.
  revert run a. induction t as [|u t IH]; intros run a Hrun; simpl.
  - destruct (3 - run)%nat eqn:E; [lia|]. discriminate.
  - destruct (u =? 10)%N eqn:Eu.
    + destruct (run <? 2)%nat eqn:Er.
      * apply Nat.ltb_lt in Er.
        replace (3 - run)%nat with (S (3 - S run)) by lia. simpl.
        intros H. inversion H as [[Hu Hrest]]. eapply (IH (S run)); [lia|done].
      * apply Nat.ltb_ge in Er. by apply IH.
    + destruct (3 - run)%nat eqn:E; [lia|]. simpl. intros H.
      inversion H as [[Hu Hrest]]. subst u. done.
Qed.

Lemma collapseLineFeeds_no_triple run t a b :
  (run <= 2)%nat ->
  collapseLineFeeds run t = a ++ [10%N; 10%N; 10%N] ++ b -> False.
Proof.
  revert run a. induction t as [|u t IH]; intros run a Hrun; simpl.
  - destruct a; discriminate.
  - destruct (u =? 10)%N eqn:Eu.
    + destruct (run <? 2)%nat eqn:Er.
      * apply Nat.ltb_lt in Er. destruct a as [|x a]; simpl.
        -- intros H. inversion H as [[Hu Hrest]].
           destruct (decide (run = 0%nat)) as [->|Hne].
           ++ destruct t as [|v t]; [done|]. simpl in Hrest.
              destruct (v =? 10)%N eqn:Ev; [|inversion Hrest; subst v; done].
              simpl in Hrest. inversion Hrest as [[Hv Hrest']].
              by apply (collapseLineFeeds_lead 2 t b); [lia|].
           ++ assert (run = 1%nat) as -> by lia.
              apply (collapseLineFeeds_lead 2 t (10%N :: b)); [lia|done].
        -- intros H. inversion H as [[Hu Hrest]]. by eapply (IH (S run)); [lia|].
      * by apply IH.
    + destruct a as [|x a]; simpl; intros H; inversion H as [[Hu Hrest]].
      * subst u. done.
      * by eapply (IH 0%nat); [lia|].
Qed.

Lemma collapseLineFeeds_id run t :
  (run <= 2)%nat ->
  (forall a, t <> replicate (3 - run) 10%N ++ a) ->
  (forall a b, t <> a ++ [10%N; 10%N; 10%N] ++ b) ->
  collapseLineFeeds run t = t.
Proof.
  revert run. induction t as [|u t IH]; intros run Hrun Hlead Htriple; [done|].
  simpl. destruct (u =? 10)%N eqn:Eu.
  - apply N.eqb_eq in Eu as ->.
    destruct (run <? 2)%nat eqn:Er.
    + apply Nat.ltb_lt in Er. f_equal. apply IH; [lia| |].
      * intros a Ha. apply (Hlead a).
        replace (3 - run)%nat with (S (3 - S run)) by lia. simpl. by f_equal.
      * intros a b Hab. apply (Htriple (10%N :: a) b). simpl. by f_equal.
    + apply Nat.ltb_ge in Er. exfalso. apply (Hlead t).
      replace (3 - run)%nat with 1%nat by lia. reflexivity.
  - f_equal. apply IH; [lia| |].
    + intros a Ha. apply (Htriple [u] a). simpl. by f_equal.
    + intros a b Hab. apply (Htriple (u :: a) b). simpl. by f_equal.
Qed.

End TextMoreFacts.

(** X1. [truncateText] truncates exactly the texts that [exceedsMaxLength]
    reports, whatever the limit; the others come back as they are. *)
Theorem truncateText_agrees_with_exceedsMaxLength (t : TextUtils.jsstring)
        (maxLength : Z) :
  TextUtils.truncated (TextUtils.truncateText t maxLength)
  = TextUtilsMore.exceedsMaxLength (Some t) maxLength
  /\ (TextUtilsMore.exceedsMaxLength (Some t) maxLength = false ->
      TextUtils.text (TextUtils.truncateText t maxLength) = t).
Proof.
  unfold TextUtils.truncateText, TextUtilsMore.exceedsMaxLength.
  destruct t as [|u t]; [by split|].
  rewrite bool_decide_eq_false_2 by done. simpl.
  destruct (Z.leb_spec (TextUtils.len (u :: t)) maxLength) as [H|H]; simpl.
  - split; [|done]. symmetry. apply Z.ltb_ge. exact H.
  - split; [symmetry; by apply Z.ltb_lt|].
    intros Hf. apply Z.ltb_ge in Hf. lia.
Qed.

Lemma truncateText_agrees_with_exceedsMaxLength_witness :
  TextUtils.text (TextUtils.truncateText (TextUtils.lit "short") 13)
  = TextUtils.lit "short".
Proof.
  apply (proj2 (truncateText_agrees_with_exceedsMaxLength (TextUtils.lit "short") 13)).
  reflexivity.
Defined.

(** X2. [estimateByteSize] lies between the number of code units and four
    times that number, and is the number of code units for a text of code
    units below 128. *)
Theorem estimateByteSize_bounds (t : TextUtils.jsstring) :
  TextUtils.len t <= TextUtilsMore.estimateByteSize t <= 4 * TextUtils.len t
  /\ ((forall u, u ∈ t -> (u < 128)%N) ->
      TextUtilsMore.estimateByteSize t = TextUtils.len t).
Proof.
  unfold TextUtilsMore.estimateByteSize, TextUtils.len.
  induction t as [|u t [IH1 IH2]]; [by split|].
  simpl. rewrite fold_unitBytes. pose proof (unitBytes_range u).
  split; [lia|]. intros Hascii.
  rewrite IH2 by (intros v Hv; apply Hascii; by right).
  unfold TextUtilsMore.unitBytes.
  assert (u < 128)%N as Hu by (apply Hascii; by left).
  apply N.ltb_lt in Hu. rewrite Hu. lia.
Qed.

Lemma estimateByteSize_bounds_witness :
  TextUtilsMore.estimateByteSize (TextUtils.lit "hello") = 5.
Proof.
  apply (proj2 (estimateByteSize_bounds (TextUtils.lit "hello"))).
  intros u Hu. vm_compute in Hu.
  repeat (apply elem_of_cons in Hu as [->|Hu]; [reflexivity|]).
  inversion Hu.
Defined.

Lemma normalizeText_facts (t : TextUtils.jsstring) :
  (13%N ∉ TextUtilsMore.normalizeText t)
  /\ (forall a b, TextUtilsMore.normalizeText t <> a ++ [10%N; 10%N; 10%N] ++ b)
  /\ (forall u rest, TextUtilsMore.normalizeText t = u :: rest ->
                     TextUtils.isTrimmed u = false)
  /\ (forall front u, TextUtilsMore.normalizeText t = front ++ [u] ->
                      TextUtils.isTrimmed u = false)
  /\ (length (TextUtilsMore.normalizeText t) <= length t)%nat.
Proof.
  destruct t as [|u0 t0].
  { simpl. split; [by intros H; inversion H|]. split; [by intros [|] b|].
    split; [done|]. split; [by intros [|] u|lia]. }
  remember (u0 :: t0) as t eqn:Ht.
  set (c := TextUtilsMore.collapseLineFeeds 0
              (TextUtilsMore.replaceCr (TextUtilsMore.replaceCrLf t))).
  assert (TextUtilsMore.normalizeText t = TextUtils.trim c) as -> by by subst t.
  clear Ht.
  destruct (trim_infix c) as (front & back & Hc).
  split.
  { intros H. apply (replaceCr_no_cr (TextUtilsMore.replaceCrLf t)).
    apply (collapseLineFeeds_elem _ 0). fold c. rewrite Hc.
    apply elem_of_app. right. apply elem_of_app. by left. }
  split.
  { intros a b H.
    apply (collapseLineFeeds_no_triple 0
             (TextUtilsMore.replaceCr (TextUtilsMore.replaceCrLf t))
             (front ++ a) (b ++ back)); [lia|].
    fold c. rewrite Hc at 1. rewrite H. by rewrite <- !app_assoc. }
  split; [apply trim_head|]. split; [apply trim_last|].
  etransitivity; [apply trim_length|].
  etransitivity; [apply collapseLineFeeds_length|].
  unfold TextUtilsMore.replaceCr. rewrite length_map. apply replaceCrLf_length.
Qed.

(** X3. The text [normalizeText] returns has no carriage return, never three
    line feeds in a row, no white space at either end, and is no longer than
    the text it was given. *)
Theorem normalizeText_shape (t : TextUtils.jsstring) :
  (13%N ∉ TextUtilsMore.normalizeText t)
  /\ (forall a b, TextUtilsMore.normalizeText t <> a ++ [10%N; 10%N; 10%N] ++ b)
  /\ (forall u rest, TextUtilsMore.normalizeText t = u :: rest ->
                     TextUtils.isTrimmed u = false)
  /\ (forall front u, TextUtilsMore.normalizeText t = front ++ [u] ->
                      TextUtils.isTrimmed u = false)
  /\ (length (TextUtilsMore.normalizeText t) <= length t)%nat.
Proof.
  destruct (normalizeText_facts t) as (Hcr & Htriple & Hhead & Hlast & Hlen).
  split; [exact Hcr|]. split; [exact Htriple|].
  split; [exact Hhead|]. split; [exact Hlast|exact Hlen].
Qed.

(** X4. Normalizing a normalized text changes nothing. *)
Theorem normalizeText_idempotent (t : TextUtils.jsstring) :
  TextUtilsMore.normalizeText (TextUtilsMore.normalizeText t)
  = TextUtilsMore.normalizeText t.
Proof.
  destruct (normalizeText_facts t) as (Hcr & Htriple & Hhead & Hlast & _).
  remember (TextUtilsMore.normalizeText t) as r eqn:Hr. clear Hr t.
  destruct r as [|u r]; [done|].
  unfold TextUtilsMore.normalizeText.
  rewrite (replaceCrLf_id _ Hcr), (replaceCr_id _ Hcr).
  rewrite collapseLineFeeds_id; [by apply trim_id|lia| |exact Htriple].
  intros a Ha. apply (Htriple [] a). exact Ha.
Qed.

(** X5. For a limit of at least 0, the description the JSON export keeps
    is the normalized text when the fetched description is no longer than
    the limit, and the text [truncateText] gives when it is longer; it has
    at most the limit plus 21 code units, and [description_truncated] is set
    exactly when the fetched description was longer than the limit. *)
Theorem prepareDescription_bound (description : TextUtils.jsstring)
        (maxTextLength : Z) :
  0 <= maxTextLength ->
  exists kept,
    fst (TextUtilsMore.prepareDescription (Some description) maxTextLength)
    = Some kept
    /\ (TextUtils.len description <= maxTextLength ->
        kept = TextUtilsMore.normalizeText description)
    /\ (maxTextLength < TextUtils.len description ->
        kept = TextUtils.text (TextUtils.truncateText description maxTextLength))
    /\ TextUtils.len kept <= maxTextLength + 21
    /\ snd (TextUtilsMore.prepareDescription (Some description) maxTextLength)
       = (maxTextLength <? TextUtils.len description).
Proof.
  intros H0. unfold TextUtilsMore.prepareDescription.
  destruct description as [|u d].
  { exists []. unfold TextUtils.len. simpl. split; [done|].
    split; [done|]. split; [lia|]. split; [lia|].
    symmetry. apply Z.ltb_ge. lia. }
  set (t := u :: d).
  change (TextUtilsMore.exceedsMaxLength (Some t) maxTextLength)
    with (maxTextLength <? TextUtils.len t).
  destruct (Z.ltb_spec maxTextLength (TextUtils.len t)) as [Hlt|Hge].
  - destruct (truncateText_long t maxTextLength H0 Hlt) as [Heq Hbp].
    eexists. split; [reflexivity|]. split; [lia|]. split; [done|].
    split; [|by rewrite Heq].
    rewrite Heq. simpl. unfold TextUtils.len. rewrite length_app.
    match goal with
    | |- context [take ?n t] => pose proof (trim_length (take n t)) as Ht
    end.
    rewrite length_take in Ht.
    change (length TextUtils.truncationMarker) with 21%nat. lia.
  - eexists. split; [reflexivity|]. split; [done|]. split; [lia|].
    split; [|done].
    destruct (normalizeText_facts t) as (_ & _ & _ & _ & Hlen).
    unfold TextUtils.len in *. lia.
Qed.

Lemma prepareDescription_bound_witness :
  exists kept,
    fst (TextUtilsMore.prepareDescription
           (Some (TextUtils.lit "hello brave new world")) 13) = Some kept
    /\ (TextUtils.len (TextUtils.lit "hello brave new world") <= 13 ->
        kept = TextUtilsMore.normalizeText (TextUtils.lit "hello brave new world"))
    /\ (13 < TextUtils.len (TextUtils.lit "hello brave new world") ->
        kept = TextUtils.text
                 (TextUtils.truncateText (TextUtils.lit "hello brave new world") 13))
    /\ TextUtils.len kept <= 13 + 21
    /\ snd (TextUtilsMore.prepareDescription
              (Some (TextUtils.lit "hello brave new world")) 13)
       = (13 <? TextUtils.len (TextUtils.lit "hello brave new world")).
Proof.
  apply (prepareDescription_bound (TextUtils.lit "hello brave new world") 13).
  lia.
Defined.

(** ** Further properties of the crosswalk *)

(** X6. A PINAX description that is not empty is never lost by the
    crosswalk: it is the abstract, with no summary note, unless a different
    [description.md] text takes the abstract, in which case it is kept in a
    summary note. *)
Theorem crosswalk_keeps_pinax_description (config : ExportConfig.t)
        (pinax : PinaxMetadata.t) (manifest : ArkeManifest.t)
        (description : option string) (pd : string) :
  PinaxMetadata.description pinax = Some pd -> pd <> "" ->
  (ModsDocument.abstract (Crosswalk.crosswalk config pinax manifest description)
   = Some pd
   /\ forall note,
        note ∈ ModsDocument.notes
                 (Crosswalk.crosswalk config pinax manifest description) ->
        ModsNote.type note <> "summary")
  \/ (exists d,
         description = Some d /\ d <> "" /\ d <> pd
         /\ ModsDocument.abstract
              (Crosswalk.crosswalk config pinax manifest description) = Some d
         /\ {| ModsNote.text := pd;
               ModsNote.type := "summary";
               ModsNote.displayLabel := "PINAX Description" |}
              ∈ ModsDocument.notes
                  (Crosswalk.crosswalk config pinax manifest description)).
Proof.
  intros Hpd Hne. simpl.
  unfold Crosswalk.abstractOf, Crosswalk.mapNotes, Crosswalk.truthyOpt.
  rewrite Hpd.
  assert (truthyString pd = true) as Htpd.
  { unfold truthyString. by rewrite bool_decide_eq_false_2. }
  assert (forall note : ModsNote.t,
             note ∈ match PinaxMetadata.source pinax with
                    | Some src =>
                        if truthyString src
                        then [ {| ModsNote.text := src;
                                  ModsNote.type := "source";
                                  ModsNote.displayLabel := "Source System" |} ]
                        else []
                    | None => []
                    end -> ModsNote.type note <> "summary") as Hsrc.
  { intros note. destruct (PinaxMetadata.source pinax) as [src|];
      [destruct (truthyString src)|]; intros H;
      try (by inversion H).
    apply list_elem_of_singleton in H. by subst. }
  destruct description as [d|].
  - destruct (truthyString d) eqn:Htd.
    + rewrite Htpd. simpl. destruct (decide (d = pd)) as [->|Hdiff].
      * left. split; [done|]. rewrite bool_decide_eq_true_2 by done. simpl.
        intros note Hn. apply elem_of_cons in Hn as [->|Hn]; [done|].
        by apply Hsrc.
      * right. exists d. rewrite bool_decide_eq_false_2 by done. simpl.
        split; [done|]. split.
        { intros ->. discriminate. }
        split; [done|]. split; [done|]. right. by left.
    + left. split; [done|]. simpl.
      intros note Hn. apply elem_of_cons in Hn as [->|Hn]; [done|].
      by apply Hsrc.
  - left. split; [done|].
    intros note Hn. apply elem_of_cons in Hn as [->|Hn]; [done|].
    by apply Hsrc.
Qed.

Lemma crosswalk_keeps_pinax_description_witness :
  (ModsDocument.abstract
     (Crosswalk.crosswalk Samples.sampleConfig MoreSamples.describedPinax
        (Samples.manifestOf "R" true None) (Some "A longer text."))
   = Some "Notes from the field."
   /\ forall note,
        note ∈ ModsDocument.notes
                 (Crosswalk.crosswalk Samples.sampleConfig MoreSamples.describedPinax
                    (Samples.manifestOf "R" true None) (Some "A longer text.")) ->
        ModsNote.type note <> "summary")
  \/ (exists d,
         Some "A longer text." = Some d /\ d <> "" /\ d <> "Notes from the field."
         /\ ModsDocument.abstract
              (Crosswalk.crosswalk Samples.sampleConfig MoreSamples.describedPinax
                 (Samples.manifestOf "R" true None) (Some "A longer text.")) = Some d
         /\ {| ModsNote.text := "Notes from the field.";
               ModsNote.type := "summary";
               ModsNote.displayLabel := "PINAX Description" |}
              ∈ ModsDocument.notes
                  (Crosswalk.crosswalk Samples.sampleConfig MoreSamples.describedPinax
                     (Samples.manifestOf "R" true None) (Some "A longer text."))).
Proof.
  apply (crosswalk_keeps_pinax_description Samples.sampleConfig
           MoreSamples.describedPinax (Samples.manifestOf "R" true None)
           (Some "A longer text.") "Notes from the field.");
    [reflexivity|discriminate].
Defined.

(** X7. The primary URL of the location the crosswalk builds is the value of
    its one identifier of type [uri], and the physical location is the name
    part of the corporate name that ends the list of names. *)
Theorem crosswalk_location_agrees (config : ExportConfig.t)
        (pinax : PinaxMetadata.t) (manifest : ArkeManifest.t)
        (description : option string) :
  exists primary ipfs creators repository,
    ModsDocument.location (Crosswalk.crosswalk config pinax manifest description)
    = Some {| ModsLocation.physicalLocation := Some (PinaxMetadata.institution pinax);
              ModsLocation.urls := [primary; ipfs] |}
    /\ (forall i,
           i ∈ ModsDocument.identifiers
                 (Crosswalk.crosswalk config pinax manifest description) ->
           ModsIdentifier.type i = "uri" ->
           ModsIdentifier.value i = ModsUrl.url primary)
    /\ (exists i,
           i ∈ ModsDocument.identifiers
                 (Crosswalk.crosswalk config pinax manifest description)
           /\ ModsIdentifier.type i = "uri")
    /\ ModsDocument.names (Crosswalk.crosswalk config pinax manifest description)
       = creators ++ [repository]
    /\ ModsName.type repository = "corporate"
    /\ ModsName.nameParts repository = [PinaxMetadata.institution pinax]
    /\ Forall (fun name => ModsName.type name = "personal") creators
    /\ length creators
       = length (Crosswalk.toList (PinaxMetadata.creator pinax)).
Proof.
  simpl. unfold Crosswalk.mapLocation, Crosswalk.mapCreators.
  eexists _, _, _, _. split; [reflexivity|]. split.
  { intros i Hi Hty.
    repeat (apply elem_of_cons in Hi as [->|Hi]; [try discriminate Hty|]).
    - reflexivity.
    - inversion Hi. }
  split.
  { eexists. split; [right; right; left|reflexivity]. }
  split; [reflexivity|]. split; [reflexivity|]. split; [reflexivity|].
  split; [|by rewrite length_map].
  apply Forall_forall. intros name Hn. rewrite map_fmap in Hn.
  apply list_elem_of_fmap in Hn as (creator & -> & _). reflexivity.
Qed.

Lemma substring_length (n : nat) (s : string) :
  (String.length (String.substring 0 n s) <= n)%nat.
Proof.
  revert s. induction n as [|n IH]; intros [|a s]; simpl; try lia.
  specialize (IH s). lia.
Qed.

Lemma langMap_codes (lang code : string) :
  Crosswalk.langMap !! lang = Some code -> String.length code = 3%nat.
Proof.
  intros H. apply elem_of_map_to_list in H.
  assert (Forall (fun kv : string * string => String.length kv.2 = 3%nat)
                 (map_to_list Crosswalk.langMap)) as HF.
  { vm_compute. repeat constructor. }
  rewrite Forall_forall in HF. apply (HF _ H).
Qed.

Lemma substring0_ascii (n : nat) (s : string) :
  Utf8.isAscii s = true -> Utf8.substring0 n s = String.substring 0 n s.
Proof.
  revert s. induction n as [|n IH]; intros [|a s]; simpl; try done.
  intros [Ha Hs]%andb_true_iff. apply N.ltb_lt in Ha.
  destruct (N.ltb_spec (Utf8.byte a) 192) as [_|Hge]; [|lia].
  by rewrite (IH s Hs).
Qed.

(** X8. BCP-47 language tags are written in ASCII.  For such a tag that is
    not empty and is not the name of a member of [Object.prototype],
    [mapLanguage] gives one language element whose term is a string of at
    most three characters: the code of the table for a tag the table has,
    and the first three characters of the tag otherwise. *)
Theorem mapLanguage_term (pinax : PinaxMetadata.t) (lang : string) :
  PinaxMetadata.language pinax = Some lang -> lang <> "" ->
  Utf8.isAscii lang = true ->
  lang ∉ "__proto__" :: objectPrototypeMethods ->
  exists code,
    Crosswalk.mapLanguage pinax
    = Some [ {| ModsLanguage.languageTerm := JString code;
                ModsLanguage.type := "code";
                ModsLanguage.authority := "iso639-2b" |} ]
    /\ (String.length code <= 3)%nat
    /\ (forall known, Crosswalk.langMap !! lang = Some known -> code = known)
    /\ (Crosswalk.langMap !! lang = None -> code = String.substring 0 3 lang).
Proof.
  intros Hlang Hne Hascii Hproto. unfold Crosswalk.mapLanguage. rewrite Hlang.
  rewrite (substring0_ascii 3 lang Hascii).
  unfold truthyString at 1. rewrite bool_decide_eq_false_2 by done. simpl.
  unfold objectGet. destruct (Crosswalk.langMap !! lang) as [known|] eqn:Hk.
  - pose proof (langMap_codes _ _ Hk) as Hlen.
    assert (truthyString known = true) as Ht.
    { unfold truthyString. rewrite bool_decide_eq_false_2; [done|].
      intros ->. discriminate. }
    unfold jsOr. simpl. rewrite Ht.
    exists known. split; [done|]. split; [lia|]. split; [|done].
    by intros ? [= ->].
  - assert (objectPrototypeGet lang = JUndefined) as ->.
    { unfold objectPrototypeGet.
      rewrite bool_decide_eq_false_2.
      2:{ intros ->. apply Hproto. right. by left. }
      rewrite bool_decide_eq_false_2.
      2:{ intros ->. apply Hproto. by left. }
      rewrite bool_decide_eq_false_2; [done|].
      intros H. apply Hproto. by right. }
    unfold jsOr. simpl.
    exists (String.substring 0 3 lang). split; [done|].
    split; [apply substring_length|]. split; [done|done].
Qed.

Lemma mapLanguage_term_witness :
  exists code,
    Crosswalk.mapLanguage MoreSamples.describedPinax
    = Some [ {| ModsLanguage.languageTerm := JString code;
                ModsLanguage.type := "code";
                ModsLanguage.authority := "iso639-2b" |} ]
    /\ (String.length code <= 3)%nat
    /\ (forall known, Crosswalk.langMap !! "en-AU" = Some known -> code = known)
    /\ (Crosswalk.langMap !! "en-AU" = None -> code = String.substring 0 3 "en-AU").
Proof.
  apply (mapLanguage_term MoreSamples.describedPinax "en-AU");
    [reflexivity|discriminate|reflexivity|].
  intros H. vm_compute in H.
  repeat (apply elem_of_cons in H as [H|H]; [discriminate H|]).
  inversion H.
Defined.

(** X9. Every subject the crosswalk builds carries exactly one term, a
    topic or a place and never a name, and the terms read back in order are
    the PINAX subjects followed by the PINAX places. *)
Theorem mapSubjects_terms (pinax : PinaxMetadata.t) :
  Forall (fun s =>
            ModsSubject.names s = None
            /\ ((exists topic, ModsSubject.topics s = Some [topic]
                               /\ ModsSubject.geographic s = None)
                \/ (exists place, ModsSubject.geographic s = Some [place]
                                  /\ ModsSubject.topics s = None)))
         (Crosswalk.mapSubjects pinax)
  /\ concat (omap ModsSubject.topics (Crosswalk.mapSubjects pinax))
     = default [] (PinaxMetadata.subjects pinax)
  /\ concat (omap ModsSubject.geographic (Crosswalk.mapSubjects pinax))
     = match PinaxMetadata.place pinax with
       | Some (One "") | None => []
       | Some place => Crosswalk.toList place
       end.
Proof.
  unfold Crosswalk.mapSubjects.
  set (topical := match PinaxMetadata.subjects pinax with
                  | Some topics => map _ topics
                  | None => []
                  end).
  set (geographic := match PinaxMetadata.place pinax with
                     | Some (One "") | None => []
                     | Some p => map _ (Crosswalk.toList p)
                     end).
  assert (exists places,
             geographic
             = map (fun place =>
                      {| ModsSubject.topics := None;
                         ModsSubject.geographic := Some [place];
                         ModsSubject.names := None |}) places
             /\ places = match PinaxMetadata.place pinax with
                         | Some (One "") | None => []
                         | Some place => Crosswalk.toList place
                         end) as (places & Hg & Hplaces).
  { subst geographic.
    destruct (PinaxMetadata.place pinax) as [[[|a s]|l]|];
      [exists []|exists [String a s]|exists l|exists []]; split; reflexivity. }
  assert (topical
          = map (fun topic =>
                   {| ModsSubject.topics := Some [topic];
                      ModsSubject.geographic := None;
                      ModsSubject.names := None |})
                (default [] (PinaxMetadata.subjects pinax))) as Ht.
  { subst topical. by destruct (PinaxMetadata.subjects pinax). }
  rewrite Ht, Hg, <- Hplaces. clear.
  generalize (default [] (PinaxMetadata.subjects pinax)) as topics. intros topics.
  split; [|split].
  - apply Forall_app. split; apply Forall_forall; intros s Hs;
      rewrite map_fmap in Hs; apply list_elem_of_fmap in Hs as (x & -> & _);
      simpl; eauto.
  - rewrite omap_app, concat_app.
    replace (concat (omap ModsSubject.topics
                          (map (fun place =>
                                  {| ModsSubject.topics := None;
                                     ModsSubject.geographic := Some [place];
                                     ModsSubject.names := None |}) places)))
      with (@nil string) by (induction places; done).
    rewrite app_nil_r. induction topics as [|t topics IH]; [done|].
    simpl. by f_equal.
  - rewrite omap_app, concat_app.
    replace (concat (omap ModsSubject.geographic
                          (map (fun topic =>
                                  {| ModsSubject.topics := Some [topic];
                                     ModsSubject.geographic := None;
                                     ModsSubject.names := None |}) topics)))
      with (@nil string) by (induction topics; done).
    simpl. induction places as [|p places IH]; [done|].
    simpl. by f_equal.
Qed.

(** ** Further properties of the single-entity export *)

Section ExporterMoreFacts.
Import ModsExporter.

Lemma componentCid_hasPinax manifest cid :
  componentCid manifest "pinax.json" = Some cid ->
  RecursiveModsExporter.hasPinax manifest = true.
Proof.
  unfold componentCid, RecursiveModsExporter.hasPinax.
  destruct (ArkeManifest.components manifest !! "pinax.json") as [x|]; [|done].
  by destruct (truthyString x).
Qed.

Lemma fetchPinax_hasPinax c manifest pinax :
  fetchPinax c manifest = Some pinax ->
  RecursiveModsExporter.hasPinax manifest = true.
Proof.
  unfold fetchPinax.
  destruct (componentCid manifest "pinax.json") as [cid|] eqn:E; [|done].
  intros _. by eapply componentCid_hasPinax.
Qed.

Lemma exportDocument_fields config c manifest :
  let base := buildBaseMods config (today c) (fetchPinax c manifest) manifest
                            (fetchDescription c manifest) in
  snd (exportDocument config c manifest) = snd base
  /\ ModsDocument.titleInfo (fst (exportDocument config c manifest))
     = ModsDocument.titleInfo (fst base)
  /\ ModsDocument.identifiers (fst (exportDocument config c manifest))
     = ModsDocument.identifiers (fst base)
  /\ ModsDocument.location (fst (exportDocument config c manifest))
     = ModsDocument.location (fst base)
  /\ ModsDocument.recordInfo (fst (exportDocument config c manifest))
     = ModsDocument.recordInfo (fst base).
Proof.
  intros base. unfold exportDocument. fold base.
  destruct base as [mods incomplete]. simpl.
  match goal with
  | |- context [linkComponents ?l ?m] =>
      destruct (linkComponents_fields l m) as (-> & -> & -> & ->)
  end.
  destruct (processCheimarros c manifest) as [cheir|];
    [destruct (ExportConfig.cheimarrosMode config)|];
    try match goal with
        | |- context [mergeCheimarros ?r ?m] =>
            destruct (mergeCheimarros_fields r m) as (-> & -> & -> & ->)
        end; done.
Qed.

End ExporterMoreFacts.

(** X10. When the PINAX record of an entity is fetched, the export does not
    reject and its document is not flagged incomplete; title, identifiers,
    location and record info are those of the crosswalk, untouched by the
    graph merge and the component links; and the recursive exporter's own
    test finds the [pinax.json] component. *)
Theorem export_with_pinax (config : ExportConfig.t)
        (c : ModsExporter.Collaborators) (pi : string) (manifest : ArkeManifest.t)
        (pinax : PinaxMetadata.t) :
  ModsExporter.fetchManifest c pi = Fulfilled manifest ->
  ModsExporter.fetchPinax c manifest = Some pinax ->
  exists mods,
    ModsExporter.exportDocument config c manifest = (mods, false)
    /\ ModsExporter.export config c pi = Fulfilled (ModsExporter.generate c mods)
    /\ ModsDocument.titleInfo mods
       = [ {| ModsTitleInfo.title := PinaxMetadata.title pinax;
              ModsTitleInfo.type := None |} ]
    /\ ModsDocument.identifiers mods = Crosswalk.mapIdentifiers pinax manifest
    /\ ModsDocument.location mods
       = Some (Crosswalk.mapLocation config pinax manifest)
    /\ ModsRecordInfo.descriptionStandard (ModsDocument.recordInfo mods) = "pinax"
    /\ ModsRecordInfo.recordIdentifier (ModsDocument.recordInfo mods)
       = Some (ArkeManifest.pi manifest)
    /\ RecursiveModsExporter.hasPinax manifest = true.
Proof.
  intros Hman Hpinax.
  destruct (exportDocument_fields config c manifest) as (Hflag & Ht & Hi & Hl & Hr).
  rewrite Hpinax in Hflag, Ht, Hi, Hl, Hr. simpl in Hflag, Ht, Hi, Hl, Hr.
  unfold ModsExporter.export. rewrite Hman.
  destruct (ModsExporter.exportDocument config c manifest) as [mods flag].
  simpl in *. subst flag. exists mods.
  rewrite Ht, Hi, Hl, Hr. simpl.
  repeat (split; [reflexivity|]). by eapply fetchPinax_hasPinax.
Qed.

Lemma export_with_pinax_witness :
  exists mods,
    ModsExporter.exportDocument Samples.sampleConfig
      (MoreSamples.collaboratorsWithPinax true) (Samples.manifestOf "R" true None)
    = (mods, false)
    /\ ModsExporter.export Samples.sampleConfig
         (MoreSamples.collaboratorsWithPinax true) "R"
       = Fulfilled (ModsExporter.generate (MoreSamples.collaboratorsWithPinax true) mods)
    /\ ModsDocument.titleInfo mods
       = [ {| ModsTitleInfo.title := "Field notes, volume 2";
              ModsTitleInfo.type := None |} ]
    /\ ModsDocument.identifiers mods
       = Crosswalk.mapIdentifiers MoreSamples.describedPinax
           (Samples.manifestOf "R" true None)
    /\ ModsDocument.location mods
       = Some (Crosswalk.mapLocation Samples.sampleConfig MoreSamples.describedPinax
                 (Samples.manifestOf "R" true None))
    /\ ModsRecordInfo.descriptionStandard (ModsDocument.recordInfo mods) = "pinax"
    /\ ModsRecordInfo.recordIdentifier (ModsDocument.recordInfo mods) = Some "R"
    /\ RecursiveModsExporter.hasPinax (Samples.manifestOf "R" true None) = true.
Proof.
  apply (export_with_pinax Samples.sampleConfig
           (MoreSamples.collaboratorsWithPinax true) "R"
           (Samples.manifestOf "R" true None) MoreSamples.describedPinax);
    reflexivity.
Defined.

(** X11. Steps 4 and 5 of the export only append: the notes of the base
    document stay in front and the component inventory note comes last, the
    related items are the [.ref.json] items, the parent, the children and
    the other components in that order, and names and abstract stay as
    step 3 made them.  When the graph is absent or the mode is [skip],
    nothing of the graph reaches the document. *)
Theorem exportDocument_appends (config : ExportConfig.t)
        (c : ModsExporter.Collaborators) (manifest : ArkeManifest.t) :
  exists graphNotes graphSubjects,
    ModsDocument.notes (fst (ModsExporter.exportDocument config c manifest))
    = ModsDocument.notes
        (fst (ModsExporter.buildBaseMods config (ModsExporter.today c)
                (ModsExporter.fetchPinax c manifest) manifest
                (ModsExporter.fetchDescription c manifest)))
        ++ graphNotes
        ++ option_list (ModsExporter.childNote (ModsExporter.linkAll c manifest))
        ++ [ModsExporter.componentNote (ModsExporter.linkAll c manifest)]
    /\ ModsDocument.subjects (fst (ModsExporter.exportDocument config c manifest))
       = ModsDocument.subjects
           (fst (ModsExporter.buildBaseMods config (ModsExporter.today c)
                   (ModsExporter.fetchPinax c manifest) manifest
                   (ModsExporter.fetchDescription c manifest)))
           ++ graphSubjects
    /\ ModsDocument.relatedItems (fst (ModsExporter.exportDocument config c manifest))
       = ModsExporter.refJsonItems (ModsExporter.linkAll c manifest)
           ++ option_list (ModsExporter.parentItem (ModsExporter.linkAll c manifest))
           ++ ModsExporter.childItems (ModsExporter.linkAll c manifest)
           ++ ModsExporter.otherItems (ModsExporter.linkAll c manifest)
    /\ ModsDocument.names (fst (ModsExporter.exportDocument config c manifest))
       = ModsDocument.names
           (fst (ModsExporter.buildBaseMods config (ModsExporter.today c)
                   (ModsExporter.fetchPinax c manifest) manifest
                   (ModsExporter.fetchDescription c manifest)))
    /\ ModsDocument.abstract (fst (ModsExporter.exportDocument config c manifest))
       = ModsDocument.abstract
           (fst (ModsExporter.buildBaseMods config (ModsExporter.today c)
                   (ModsExporter.fetchPinax c manifest) manifest
                   (ModsExporter.fetchDescription c manifest)))
    /\ (ExportConfig.cheimarrosMode config = ExportConfig.skip
        \/ ModsExporter.processCheimarros c manifest = None ->
        graphNotes = [] /\ graphSubjects = []).
Proof.
  unfold ModsExporter.exportDocument.
  assert (ModsDocument.relatedItems
            (fst (ModsExporter.buildBaseMods config (ModsExporter.today c)
                    (ModsExporter.fetchPinax c manifest) manifest
                    (ModsExporter.fetchDescription c manifest))) = []) as Hri.
  { by destruct (ModsExporter.fetchPinax c manifest). }
  destruct (ModsExporter.buildBaseMods config (ModsExporter.today c)
              (ModsExporter.fetchPinax c manifest) manifest
              (ModsExporter.fetchDescription c manifest)) as [base flag].
  simpl in Hri. destruct base. simpl in Hri. subst.
  unfold ModsExporter.linkComponents, ModsExporter.mergeCheimarros.
  destruct (ModsExporter.processCheimarros c manifest) as [cheir|];
    [destruct (ExportConfig.cheimarrosMode config)|]; simpl.
  1,2: exists (ModsExporter.notes cheir),
         (ModsExporter.subjects cheir
            ++ map (fun name =>
                      {| ModsSubject.topics := None;
                         ModsSubject.geographic := None;
                         ModsSubject.names := Some [name] |})
                   (filter (fun name => ModsName.isSubject name = true)
                           (ModsExporter.names cheir))).
  3,4: exists [], [].
  all: rewrite <- ?app_assoc, ?app_nil_r; simpl.
  all: repeat (split; [reflexivity|]).
  all: try done.
  all: intros [?|?]; discriminate.
Qed.

(** X12. A [pinax.json] component that is listed in the manifest but cannot
    be fetched or parsed: the single-entity export falls back to the
    minimal record and flags it incomplete, while the recursive exporter,
    which only looks at the manifest, writes that record and reports the
    entity as complete, adding nothing to [incompleteRecords]. *)
Theorem unreadable_pinax_not_counted (config : ExportConfig.t)
        (fetch : string -> Settled ArkeManifest.t)
        (c : ModsExporter.Collaborators) (node : EntityNode.t)
        (manifest : ArkeManifest.t) (cid : string)
        (sh : RecursiveModsExporter.Shared) (s : ModsCollectionWriter.WriteStream) :
  fetch (EntityNode.pi node) = Fulfilled manifest ->
  ModsExporter.fetchManifest c (EntityNode.pi node) = Fulfilled manifest ->
  ArkeManifest.components manifest !! "pinax.json" = Some cid ->
  cid <> "" ->
  ModsExporter.fetchIpfsPinax c cid = None ->
  ModsCollectionWriter.isOpen (RecursiveModsExporter.writer sh) = true ->
  ModsCollectionWriter.stream (RecursiveModsExporter.writer sh) = Some s ->
  (forall mods,
      isFulfilled (ModsCollectionWriter.extractModsElement
                     (ModsExporter.generate c mods)) = true) ->
  exists mods v sh',
    ModsExporter.exportDocument config c manifest = (mods, true)
    /\ ModsDocument.titleInfo mods
       = [ {| ModsTitleInfo.title :=
                "[Incomplete Record: " +:+ ArkeManifest.pi manifest +:+ "]";
              ModsTitleInfo.type := Some "alternative" |} ]
    /\ RecursiveModsExporter.processEntity
         (RecursiveModsExporter.worldOf config fetch c) node sh
       = (Fulfilled v, sh')
    /\ RecursiveModsExporter.isIncomplete v = false
    /\ RecursiveModsExporter.incompleteReason v = None
    /\ RecursiveModsExporter.incompleteRecords sh'
       = RecursiveModsExporter.incompleteRecords sh
    /\ RecursiveModsExporter.writeModsCalls sh'
       = RecursiveModsExporter.writeModsCalls sh ++ [EntityNode.pi node].
Proof.
  intros Hfetch Hman Hcid Hne Hgone Hopen Hstream Hmods.
  assert (truthyString cid = true) as Hcidt.
  { unfold truthyString. by rewrite bool_decide_eq_false_2. }
  assert (ModsExporter.fetchPinax c manifest = None) as Hpinax.
  { unfold ModsExporter.fetchPinax, ModsExporter.componentCid.
    by rewrite Hcid, Hcidt. }
  assert (RecursiveModsExporter.hasPinax manifest = true) as Hhas.
  { unfold RecursiveModsExporter.hasPinax. by rewrite Hcid. }
  destruct (exportDocument_fields config c manifest) as (Hflag & Ht & _).
  rewrite Hpinax in Hflag, Ht. simpl in Hflag, Ht.
  destruct (ModsExporter.exportDocument config c manifest) as [mods flag] eqn:Hdoc.
  simpl in Hflag, Ht. subst flag.
  unfold RecursiveModsExporter.processEntity. simpl.
  rewrite Hfetch. unfold ModsExporter.export. rewrite Hman, Hdoc, Hhas. simpl.
  destruct (writeMods_cases (ModsExporter.generate c mods) node
              (RecursiveModsExporter.writer sh))
    as [(s' & el & _ & _ & _ & ->)|(e & _ & [Hc|[Hc|Hc]])].
  - eexists mods, _, _. repeat (split; [reflexivity || exact Ht|]). reflexivity.
  - congruence.
  - congruence.
  - rewrite Hmods in Hc. discriminate.
Qed.

Lemma unreadable_pinax_not_counted_witness :
  exists mods v sh',
    ModsExporter.exportDocument Samples.sampleConfig
      (MoreSamples.collaboratorsWithPinax false) (Samples.manifestOf "R" true None)
    = (mods, true)
    /\ ModsDocument.titleInfo mods
       = [ {| ModsTitleInfo.title := "[Incomplete Record: R]";
              ModsTitleInfo.type := Some "alternative" |} ]
    /\ RecursiveModsExporter.processEntity
         (RecursiveModsExporter.worldOf Samples.sampleConfig
            (fun pi => Fulfilled (Samples.manifestOf pi true None))
            (MoreSamples.collaboratorsWithPinax false))
         (RecursiveModsExporter.rootNode "R") (TraversalSpec.startShared "out.xml")
       = (Fulfilled v, sh')
    /\ RecursiveModsExporter.isIncomplete v = false
    /\ RecursiveModsExporter.incompleteReason v = None
    /\ RecursiveModsExporter.incompleteRecords sh' = []
    /\ RecursiveModsExporter.writeModsCalls sh' = [] ++ ["R"].
Proof.
  apply (unreadable_pinax_not_counted Samples.sampleConfig
           (fun pi => Fulfilled (Samples.manifestOf pi true None))
           (MoreSamples.collaboratorsWithPinax false)
           (RecursiveModsExporter.rootNode "R")
           (Samples.manifestOf "R" true None) "bafy-pinax-R"
           (TraversalSpec.startShared "out.xml")
           {| ModsCollectionWriter.path := "out.xml";
              ModsCollectionWriter.chunks := ModsCollectionWriter.header;
              ModsCollectionWriter.ended := false |});
    try reflexivity; discriminate.
Defined.

(** ** The component linker *)

Section LinkerFacts.
Import ComponentLinker.

Lemma NoDup_fst_filter {A B} (P : A * B -> Prop) `{!forall x, Decision (P x)}
      (l : list (A * B)) :
  NoDup (map fst l) -> NoDup (map fst (filter P l)).
Proof.
  induction l as [|x l IH]; intros Hnd; [constructor|].
  simpl in Hnd. apply NoDup_cons in Hnd as [Hx Hnd].
  rewrite filter_cons. destruct (decide (P x)); [|by apply IH].
  simpl. apply NoDup_cons. split; [|by apply IH].
  intros Hin. apply Hx. rewrite map_fmap in *.
  apply list_elem_of_fmap in Hin as (y & -> & Hy).
  apply list_elem_of_filter in Hy as [_ Hy].
  by apply list_elem_of_fmap_2.
Qed.

Lemma isRefJsonKey_skipKeys key : key ∈ skipKeys -> isRefJsonKey key = false.
Proof.
  unfold skipKeys. rewrite !elem_of_union, !elem_of_singleton.
  intros [[[[->| ->]| ->]| ->]| ->]; reflexivity.
Qed.

Lemma fetchRefJsonFiles_lookup fetchIpfsJson manifest key refJson :
  fetchRefJsonFiles fetchIpfsJson manifest !! key = Some refJson
  <-> exists cid,
        ArkeManifest.components manifest !! key = Some cid
        /\ isRefJsonKey key = true
        /\ fetchIpfsJson cid = Some refJson.
Proof.
  unfold fetchRefJsonFiles. rewrite lookup_omap_Some. split.
  - intros (cid & Hf & Hl). apply map_lookup_filter_Some in Hl as [Hl Hk].
    exists cid. done.
  - intros (cid & Hl & Hk & Hf). exists cid. split; [done|].
    apply map_lookup_filter_Some. done.
Qed.

End LinkerFacts.

(** X13. [linkChildren] builds one related item per entry of [children_pi],
    in order and with labels that differ from one another, each carrying
    the child's identifier as its one identifier; the child inventory note
    is there exactly when there is such an item, and the number it reports
    is the number of items. *)
Theorem linkChildren_inventory (manifest : ArkeManifest.t) :
  map (fun item => map ModsIdentifier.value (ModsRelatedItem.identifiers item))
      (ComponentLinker.linkChildren manifest)
  = map (fun child => [child]) (default [] (ArkeManifest.children_pi manifest))
  /\ NoDup (map ModsRelatedItem.displayLabel (ComponentLinker.linkChildren manifest))
  /\ (ComponentLinker.createChildInventoryNote manifest = None
      <-> ComponentLinker.linkChildren manifest = [])
  /\ (forall note,
         ComponentLinker.createChildInventoryNote manifest = Some note ->
         ModsNote.text note
         = pretty (length (ComponentLinker.linkChildren manifest))
             +:+ " child entities").
Proof.
  unfold ComponentLinker.linkChildren, ComponentLinker.createChildInventoryNote.
  destruct (ArkeManifest.children_pi manifest) as [[|c cs]|].
  1,3: simpl; repeat split; first [constructor | done].
  remember (c :: cs) as children eqn:Hc.
  assert (imap ComponentLinker.childItem children <> []) as Hne.
  { intros H. apply (f_equal length) in H. rewrite length_imap in H.
    subst children. discriminate. }
  rewrite Hc at 1 3 5. rewrite <- Hc. simpl. split; [|split; [|split]].
  - rewrite !map_fmap. apply list_eq. intros i.
    rewrite !list_lookup_fmap, list_lookup_imap. by destruct (children !! i).
  - rewrite map_fmap. apply NoDup_alt. intros i j x Hi Hj.
    rewrite list_lookup_fmap, list_lookup_imap in Hi, Hj.
    destruct (children !! i); [|done]. destruct (children !! j); [|done].
    simpl in Hi, Hj. rewrite <- Hi in Hj. injection Hj as Hj.
    apply pretty_nat_inj in Hj. lia.
  - split; [done|]. intros H. by rewrite Hc in H.
  - intros note [= <-]. simpl. by rewrite length_imap.
Qed.

(** X14. With the keys of the fetched [.ref.json] files as [refJsonKeys],
    [linkOtherComponents] links a component under its key exactly when the
    key is none of the five metadata files and is not a [.ref.json] file
    that was fetched: a [.ref.json] component whose fetch failed is linked
    as an ordinary component.  No key is linked twice. *)
Theorem linkOtherComponents_labels (config : ExportConfig.t)
        (manifest : ArkeManifest.t)
        (fetchIpfsJson : string -> option ArkeRefJson.t) (key : string) :
  ((Some key ∈ map ModsRelatedItem.displayLabel
                   (ComponentLinker.linkOtherComponents config manifest
                      (dom (ComponentLinker.fetchRefJsonFiles fetchIpfsJson manifest))))
   <-> exists cid,
         ArkeManifest.components manifest !! key = Some cid
         /\ (key ∉ ComponentLinker.skipKeys)
         /\ (ComponentLinker.isRefJsonKey key = true -> fetchIpfsJson cid = None))
  /\ (forall cid,
         ArkeManifest.components manifest !! key = Some cid ->
         (Some key ∈ map ModsRelatedItem.displayLabel
                         (ComponentLinker.linkOtherComponents config manifest
                            (dom (ComponentLinker.fetchRefJsonFiles
                                    fetchIpfsJson manifest)))) ->
         ComponentLinker.otherItem config key cid
           ∈ ComponentLinker.linkOtherComponents config manifest
               (dom (ComponentLinker.fetchRefJsonFiles fetchIpfsJson manifest)))
  /\ NoDup (map ModsRelatedItem.displayLabel
                (ComponentLinker.linkOtherComponents config manifest
                   (dom (ComponentLinker.fetchRefJsonFiles fetchIpfsJson manifest)))).
Proof.
  unfold ComponentLinker.linkOtherComponents.
  set (refs := ComponentLinker.fetchRefJsonFiles fetchIpfsJson manifest).
  assert (forall cid,
             (key, cid) ∈ filter (fun kv : string * string =>
                                    ~ (kv.1 ∈ dom refs \/ kv.1 ∈ ComponentLinker.skipKeys))
                                 (map_to_list (ArkeManifest.components manifest))
             <-> ArkeManifest.components manifest !! key = Some cid
                 /\ (key ∉ ComponentLinker.skipKeys)
                 /\ (ComponentLinker.isRefJsonKey key = true
                     -> fetchIpfsJson cid = None)) as Hpass.
  { intros cid. rewrite list_elem_of_filter, elem_of_map_to_list. simpl. split.
    - intros [Hp Hl]. split; [done|]. split; [tauto|].
      intros Href. destruct (fetchIpfsJson cid) as [refJson|] eqn:Hf; [|done].
      exfalso. apply Hp. left. apply elem_of_dom. exists refJson.
      apply fetchRefJsonFiles_lookup. eauto.
    - intros (Hl & Hskip & Href). split; [|done].
      intros [Hd|Hs]; [|done].
      apply elem_of_dom in Hd as [refJson Hd].
      apply fetchRefJsonFiles_lookup in Hd as (cid' & Hl' & Hk & Hf).
      rewrite Hl in Hl'. injection Hl' as <-.
      rewrite (Href Hk) in Hf. discriminate. }
  assert (forall cid,
             (Some key ∈ map ModsRelatedItem.displayLabel
                             (map (fun kv : string * string =>
                                     ComponentLinker.otherItem config kv.1 kv.2)
                                  (filter (fun kv : string * string =>
                                             ~ (kv.1 ∈ dom refs
                                                \/ kv.1 ∈ ComponentLinker.skipKeys))
                                          (map_to_list
                                             (ArkeManifest.components manifest))))) ->
             ArkeManifest.components manifest !! key = Some cid ->
             (key, cid) ∈ filter (fun kv : string * string =>
                                    ~ (kv.1 ∈ dom refs \/ kv.1 ∈ ComponentLinker.skipKeys))
                                 (map_to_list (ArkeManifest.components manifest)))
    as Hback.
  { intros cid H Hl. rewrite !map_fmap in H.
    apply list_elem_of_fmap in H as (item & Hlabel & Hitem).
    apply list_elem_of_fmap in Hitem as ([k cid'] & -> & Hkv).
    simpl in Hlabel. injection Hlabel as <-.
    pose proof Hkv as Hkv'. apply list_elem_of_filter in Hkv' as [_ Hkv'].
    apply elem_of_map_to_list in Hkv'. rewrite Hl in Hkv'.
    by injection Hkv' as <-. }
  split; [|split].
  - split.
    + intros H. pose proof H as H'. rewrite !map_fmap in H'.
      apply list_elem_of_fmap in H' as (item & Hlabel & Hitem).
      apply list_elem_of_fmap in Hitem as ([k cid] & -> & Hkv).
      simpl in Hlabel. injection Hlabel as <-.
      exists cid. by apply Hpass.
    + intros (cid & Hcid). apply Hpass in Hcid. rewrite !map_fmap.
      apply (list_elem_of_fmap_2 ModsRelatedItem.displayLabel
               _ (ComponentLinker.otherItem config key cid)).
      by apply (list_elem_of_fmap_2
                  (fun kv : string * string =>
                     ComponentLinker.otherItem config kv.1 kv.2) _ (key, cid)).
  - intros cid Hl H. rewrite map_fmap.
    apply (list_elem_of_fmap_2
             (fun kv : string * string =>
                ComponentLinker.otherItem config kv.1 kv.2) _ (key, cid)).
    by apply Hback.
  - rewrite map_map. simpl.
    rewrite <- (map_map fst Some). rewrite (map_fmap Some).
    apply (NoDup_fmap_2 Some). apply NoDup_fst_filter.
    rewrite map_fmap. apply NoDup_fst_map_to_list.
Qed.

(** ** Further invariants of the traversal *)

Section TraversalInvariant.
Import RecursiveModsExporter TraversalSpec.
Context (w : World) (options : RecursiveOptions.t) (rootPI : string)
        (errors0 : list (string * string)) (sh0 : Shared).
Context (P : Traversal * Shared -> Prop).
Hypothesis P_init : P (initialTraversal rootPI errors0, sh0).
Hypothesis P_step :
  forall tr sh node pending d,
    Inv w options rootPI errors0 tr (node :: pending) d ->
    SharedInv w sh0 tr sh ->
    P (tr, sh) -> P (stepNode w options (tr, sh) node).
Hypothesis P_level : forall tr sh, P (tr, sh) -> P (setQueue [] tr, sh).

Lemma fold_stepNode_P level :
  forall tr sh pending d,
    Inv w options rootPI errors0 tr (level ++ pending) d ->
    SharedInv w sh0 tr sh ->
    P (tr, sh) -> P (fold_left (stepNode w options) level (tr, sh)).
Proof.
  induction level as [|n level IH]; intros tr sh pending d HI HS HP; simpl; [done|].
  pose proof (stepNode_Inv w options rootPI errors0 tr sh n (level ++ pending) d HI)
    as HI'.
  pose proof (stepNode_SharedInv w options sh0 tr sh n HS) as HS'.
  pose proof (P_step tr sh n (level ++ pending) d HI HS HP) as HP'.
  destruct (stepNode w options (tr, sh) n) as [tr1 sh1].
  by apply (IH tr1 sh1 pending d).
Qed.

Lemma afterLevel_P st d :
  Inv w options rootPI errors0 (fst st) [] d ->
  SharedInv w sh0 (fst st) (snd st) ->
  P st -> P (afterLevel w options st).
Proof.
  destruct st as [tr sh]. simpl. intros HI HS HP. unfold afterLevel. simpl.
  apply (fold_stepNode_P (queue tr) (setQueue [] tr) sh [] (d + 1)).
  - by apply Inv_next_level.
  - by apply SharedInv_setQueue.
  - by apply P_level.
Qed.

Lemma levelLoop_P fuel batchFuel :
  1 <= RecursiveOptions.parallelBatchSize options ->
  forall st st' d,
    Inv w options rootPI errors0 (fst st) [] d ->
    SharedInv w sh0 (fst st) (snd st) ->
    P st ->
    levelLoop fuel batchFuel w options st = Some st' -> P st'.
Proof.
  intros Hbs. induction fuel as [|fuel IH]; intros st st' d HI HS HP H.
  - simpl in H. destruct (queue (fst st)) eqn:Hq; [|done]. by inversion H; subst.
  - destruct (queue (fst st)) as [|n q] eqn:Hq.
    + simpl in H. rewrite Hq in H. by inversion H; subst.
    + rewrite (levelLoop_step w options rootPI errors0 _ _ _ d) in H;
        [|done..|by rewrite Hq].
      destruct (batchLoop _ _ _ _ _ _); [|done].
      destruct (afterLevel_Inv w options rootPI errors0 sh0 st d HI HS) as [HI' HS'].
      eapply IH; [exact HI'|exact HS'| |exact H]. by eapply afterLevel_P.
Qed.

Lemma traverseBFS_P fuel tr sh :
  traverseBFS fuel w rootPI options errors0 sh0 = Some (tr, sh) -> P (tr, sh).
Proof.
  intros Hrun.
  destruct (Z_le_gt_dec 1 (RecursiveOptions.parallelBatchSize options)) as [Hbs|Hbs].
  - apply (levelLoop_P fuel fuel Hbs (initialTraversal rootPI errors0, sh0)
             (tr, sh) (-1)); try done.
    + apply initial_Inv.
    + apply initial_SharedInv.
  - rewrite traverseBFS_diverges in Hrun by lia. discriminate.
Qed.

End TraversalInvariant.

Section TraversalMoreFacts.
Import RecursiveModsExporter TraversalSpec TraversalMore.
Context (w : World) (options : RecursiveOptions.t).

Lemma levelOrder_same_depth (c : Z) (l : list EntityNode.t) :
  (forall m, m ∈ l -> EntityNode.depth m = c) -> levelOrder l.
Proof.
  unfold levelOrder. induction l as [|x l IH]; intros H; constructor.
  - apply IH. intros m Hm. apply H. by right.
  - apply Forall_forall. intros y Hy.
    rewrite (H x) by (by left). rewrite (H y) by (by right). lia.
Qed.

Lemma Inv_node_enqueued rootPI errors0 tr node pending d :
  Inv w options rootPI errors0 tr (node :: pending) d -> node ∈ enqueued tr.
Proof.
  intros HI. rewrite (inv_log _ _ _ _ _ _ _ HI).
  apply elem_of_app. right. by left.
Qed.

Lemma levelOrder_step rootPI errors0 tr sh node pending d :
  Inv w options rootPI errors0 tr (node :: pending) d ->
  levelOrder (enqueued tr) ->
  levelOrder (enqueued (fst (stepNode w options (tr, sh) node))).
Proof.
  intros HI HP. unfold stepNode. simpl.
  destruct (processEntity w node sh) as [r sh']. simpl.
  destruct (handleResult_shape options node r tr)
    as (new & _ & -> & _ & _ & _ & _ & _ & _ & _ & Hnew & _).
  assert (EntityNode.depth node = d) as Hd.
  { apply (inv_depth_pending _ _ _ _ _ _ _ HI). by left. }
  assert (forall m, m ∈ new -> EntityNode.depth m = d + 1) as Hdepth.
  { intros m Hm. destruct (Hnew m Hm) as (_ & -> & _). simpl. lia. }
  apply StronglySorted_app. split; [|split; [done|]].
  - intros x1 x2 H1 H2. rewrite (Hdepth x2 H2).
    unfold levelOrder in HP.
    rewrite (inv_log _ _ _ _ _ _ _ HI) in H1, HP.
    apply elem_of_app in H1 as [H1|H1].
    + pose proof (StronglySorted_app_1_elem_of _ _ _ x1 node HP H1
                    ltac:(by left)) as Hle.
      simpl in Hle. lia.
    + apply elem_of_app in H1 as [H1|H1].
      * rewrite (inv_depth_pending _ _ _ _ _ _ _ HI x1 H1). lia.
      * rewrite (inv_depth_queue _ _ _ _ _ _ _ HI x1 H1). lia.
  - by apply (levelOrder_same_depth (d + 1)).
Qed.

Lemma pathsOk_step rootPI errors0 tr sh node pending d :
  Inv w options rootPI errors0 tr (node :: pending) d ->
  pathsOk rootPI tr ->
  pathsOk rootPI (fst (stepNode w options (tr, sh) node)).
Proof.
  intros HI HP. unfold stepNode. simpl.
  destruct (processEntity w node sh) as [r sh']. simpl.
  destruct (handleResult_shape options node r tr)
    as (new & _ & Henq & _ & _ & _ & _ & _ & Hvis & _ & Hnew & _).
  intros n Hn. rewrite Henq in Hn. apply elem_of_app in Hn as [Hn|Hn].
  - destruct (HP n Hn) as (Hok & Hnd & Hsub & Hd).
    split; [done|]. split; [done|]. split; [|done].
    intros x Hx. apply Hvis. left. by apply Hsub.
  - destruct (Hnew n Hn) as (Hfresh & Hchild & _).
    destruct (HP node (Inv_node_enqueued _ _ _ _ _ _ HI))
      as ((Hhead & Hlast & Hlen) & Hnd & Hsub & Hd).
    rewrite Hchild. simpl. split; [|split; [|split]].
    + split; [|split]; simpl.
      * destruct (EntityNode.pathFromRoot node) as [|x l]; [simpl in Hlen; lia|].
        exact Hhead.
      * apply last_snoc.
      * rewrite length_app. simpl. lia.
    + apply NoDup_app. split; [done|]. split; [|apply NoDup_singleton].
      intros x Hx Hx'. apply list_elem_of_singleton in Hx'. subst x.
      apply Hfresh. by apply Hsub.
    + intros x Hx. apply Hvis. apply elem_of_app in Hx as [Hx|Hx].
      * left. by apply Hsub.
      * right. apply list_elem_of_singleton in Hx. subst x.
        rewrite map_fmap. by apply list_elem_of_fmap_2.
    + lia.
Qed.

Lemma pathsOk_initial rootPI errors0 :
  pathsOk rootPI (initialTraversal rootPI errors0).
Proof.
  intros n Hn. simpl in Hn. apply list_elem_of_singleton in Hn. subst n.
  split; [by repeat split|]. split; [apply NoDup_singleton|].
  split; [|simpl; lia].
  simpl. intros x Hx. apply list_elem_of_singleton in Hx. subst x.
  by apply elem_of_singleton.
Qed.

(** What one entity task does to [incompleteRecords] and to the sink. *)
Lemma processEntity_records node sh r sh' :
  processEntity w node sh = (r, sh') ->
  incompleteRecords sh'
  = incompleteRecords sh
      ++ (if decide (classify r = incomplete)
          then [ (EntityNode.pi node,
                  "Missing PINAX metadata (pinax.json component not found)") ]
          else [])
  /\ (forall s,
         ModsCollectionWriter.stream (writer sh) = Some s ->
         exists s',
           ModsCollectionWriter.stream (writer sh') = Some s'
           /\ ModsCollectionWriter.path s' = ModsCollectionWriter.path s
           /\ ModsCollectionWriter.ended s' = ModsCollectionWriter.ended s
           /\ ModsCollectionWriter.chunks s'
              = ModsCollectionWriter.chunks s
                  ++ (if isFulfilled r then option_list (recordOf w node) else [])
           /\ (isFulfilled r = true -> is_Some (recordOf w node)))
  /\ (forall v, r = Fulfilled v ->
        exists manifest,
          fetchManifest w (EntityNode.pi node) = Fulfilled manifest
          /\ isIncomplete v = negb (hasPinax manifest)
          /\ children v = ArkeManifest.children_pi manifest).
Proof.
  unfold processEntity, recordOf.
  destruct (fetchManifest w (EntityNode.pi node)) as [manifest|e].
  2:{ intros [= <- <-]. simpl. rewrite app_nil_r. split; [done|].
      split; [|done]. intros s Hs. exists s. by rewrite app_nil_r. }
  destruct (exportEntity w (EntityNode.pi node)) as [modsXml|e].
  2:{ intros [= <- <-]. simpl. rewrite app_nil_r. split; [done|].
      split; [|done]. intros s Hs. exists s. by rewrite app_nil_r. }
  destruct (writeMods_cases modsXml node (writer sh))
    as [(s0 & el & Hopen & Hs0 & Hel & ->)|(e & -> & _)].
  - intros [= <- <-]. simpl. split; [|split].
    + destruct (hasPinax manifest); simpl; [by rewrite app_nil_r|done].
    + intros s Hs. rewrite Hs0 in Hs. injection Hs as <-.
      eexists. split; [reflexivity|]. simpl. rewrite Hel. simpl.
      repeat (split; [reflexivity|]). intros _. by eexists.
    + intros v [= <-]. exists manifest. done.
  - intros [= <- <-]. simpl. rewrite app_nil_r. split; [done|].
    split; [|done]. intros s Hs. exists s. by rewrite app_nil_r.
Qed.

Lemma incompleteEntries_snoc log x :
  incompleteEntries (log ++ [x])
  = incompleteEntries log
      ++ (if decide (classify (snd x) = incomplete)
          then [ (EntityNode.pi (fst x),
                  "Missing PINAX metadata (pinax.json component not found)") ]
          else []).
Proof.
  unfold incompleteEntries. rewrite omap_app. simpl.
  by destruct (decide (classify (snd x) = incomplete)).
Qed.

Lemma records_snoc log x :
  records w (log ++ [x])
  = records w log
      ++ (if isFulfilled (snd x) then option_list (recordOf w (fst x)) else []).
Proof.
  unfold records. rewrite omap_app. simpl.
  destruct (isFulfilled (snd x)); [|done]. by destruct (recordOf w (fst x)).
Qed.

Lemma stepNode_settled tr sh node :
  exists r sh',
    processEntity w node sh = (r, sh')
    /\ snd (stepNode w options (tr, sh) node) = sh'
    /\ settled (fst (stepNode w options (tr, sh) node)) = settled tr ++ [(node, r)].
Proof.
  unfold stepNode. simpl. destruct (processEntity w node sh) as [r sh'].
  exists r, sh'. simpl. split; [done|]. split; [done|].
  by destruct (handleResult_shape options node r tr) as (new & _ & _ & -> & _).
Qed.

End TraversalMoreFacts.

Section TraversalEndFacts.
Import RecursiveModsExporter TraversalSpec TraversalMore.
Context (w : World) (options : RecursiveOptions.t).

(** What holds of every traversal that ends, besides the invariants. *)
Lemma traverseBFS_further fuel rootPI errors0 sh0 tr sh :
  traverseBFS fuel w rootPI options errors0 sh0 = Some (tr, sh) ->
  levelOrder (enqueued tr)
  /\ pathsOk rootPI tr
  /\ incompleteRecords sh = incompleteRecords sh0 ++ incompleteEntries (settled tr)
  /\ (forall s0,
         ModsCollectionWriter.stream (writer sh0) = Some s0 ->
         exists s,
           ModsCollectionWriter.stream (writer sh) = Some s
           /\ ModsCollectionWriter.path s = ModsCollectionWriter.path s0
           /\ ModsCollectionWriter.ended s = ModsCollectionWriter.ended s0
           /\ ModsCollectionWriter.chunks s
              = ModsCollectionWriter.chunks s0 ++ records w (settled tr)).
Proof.
  apply (traverseBFS_P w options rootPI errors0 sh0
           (fun st =>
              levelOrder (enqueued (fst st))
              /\ pathsOk rootPI (fst st)
              /\ incompleteRecords (snd st)
                 = incompleteRecords sh0 ++ incompleteEntries (settled (fst st))
              /\ (forall s0,
                     ModsCollectionWriter.stream (writer sh0) = Some s0 ->
                     exists s,
                       ModsCollectionWriter.stream (writer (snd st)) = Some s
                       /\ ModsCollectionWriter.path s = ModsCollectionWriter.path s0
                       /\ ModsCollectionWriter.ended s = ModsCollectionWriter.ended s0
                       /\ ModsCollectionWriter.chunks s
                          = ModsCollectionWriter.chunks s0
                              ++ records w (settled (fst st))))).
  - simpl. split; [|split; [|split]].
    + apply (levelOrder_same_depth 0). intros m Hm.
      apply list_elem_of_singleton in Hm. by subst.
    + apply pathsOk_initial.
    + by rewrite app_nil_r.
    + intros s0 Hs0. exists s0. by rewrite app_nil_r.
  - intros tr0 sh1 node pending d HI HS (Horder & Hpaths & Hinc & Hsink).
    simpl in Horder, Hpaths, Hinc, Hsink.
    split; [by eapply levelOrder_step|].
    split; [by eapply pathsOk_step|].
    destruct (stepNode_settled w options tr0 sh1 node) as (r & sh2 & Hp & -> & ->).
    destruct (processEntity_records w node sh1 r sh2 Hp) as (Hinc' & Hsink' & _).
    split.
    + rewrite Hinc', Hinc, incompleteEntries_snoc, app_assoc. done.
    + intros s0 Hs0. destruct (Hsink s0 Hs0) as (s1 & Hs1 & Hpath & Hend & Hch).
      destruct (Hsink' s1 Hs1) as (s2 & Hs2 & Hpath' & Hend' & Hch' & _).
      exists s2. split; [done|]. split; [congruence|]. split; [congruence|].
      rewrite Hch', Hch, records_snoc, app_assoc. done.
  - intros tr0 sh1 H. exact H.
Qed.

Lemma records_length rootPI errors0 tr pending d :
  Inv w options rootPI errors0 tr pending d ->
  length (records w (settled tr))
  = (countClass success (settled tr) + countClass incomplete (settled tr))%nat.
Proof.
  intros HI. pose proof (inv_outcome _ _ _ _ _ _ _ HI) as Hout.
  revert Hout. generalize (settled tr). clear HI.
  induction l as [|[n r] l IH] using rev_ind; intros Hout; [done|].
  rewrite records_snoc, length_app, !countClass_snoc, IH.
  2:{ intros n' r' H. apply (Hout n' r'). apply elem_of_app. by left. }
  simpl. destruct (Hout n r) as (sh1 & sh2 & Hp).
  { apply elem_of_app. right. by left. }
  destruct (processEntity_records w n sh1 r sh2 Hp) as (_ & _ & _).
  destruct r as [v|e]; simpl.
  - assert (is_Some (recordOf w n)) as [record ->].
    { unfold processEntity in Hp. unfold recordOf.
      destruct (fetchManifest w (EntityNode.pi n)); [|done].
      destruct (exportEntity w (EntityNode.pi n)) as [xml|]; [|done].
      destruct (writeMods_cases xml n (writer sh1))
        as [(s0 & el & _ & _ & -> & _)|(e & He & _)]; [by eexists|].
      rewrite He in Hp. done. }
    simpl. destruct (isIncomplete v); simpl; lia.
  - simpl. lia.
Qed.

Lemma incompleteEntries_length log :
  length (incompleteEntries log) = countClass incomplete log.
Proof.
  induction log as [|x log IH] using rev_ind; [done|].
  rewrite incompleteEntries_snoc, countClass_snoc, length_app, IH.
  destruct (decide (classify (snd x) = incomplete)); simpl; lia.
Qed.

End TraversalEndFacts.

(** X15. For a batch size of at least 1 the traversal ends having handled
    the nodes in the order in which they were pushed on the queue, the root
    first, and that order is level order: no node is handled before a node
    of a smaller depth. *)
Theorem handled_in_level_order (w : RecursiveModsExporter.World)
        (rootPI : string) (options : RecursiveOptions.t)
        (errors0 : list (string * string)) (sh0 : RecursiveModsExporter.Shared) :
  1 <= RecursiveOptions.parallelBatchSize options ->
  exists N : nat,
    forall fuel, (N <= fuel)%nat ->
      exists tr sh rest,
        RecursiveModsExporter.traverseBFS fuel w rootPI options errors0 sh0
        = Some (tr, sh)
        /\ map fst (RecursiveModsExporter.settled tr)
           = RecursiveModsExporter.enqueued tr
        /\ map fst (RecursiveModsExporter.settled tr)
           = RecursiveModsExporter.rootNode rootPI :: rest
        /\ TraversalMore.levelOrder (map fst (RecursiveModsExporter.settled tr))
        /\ (forall i j a b,
               map fst (RecursiveModsExporter.settled tr) !! i = Some a ->
               map fst (RecursiveModsExporter.settled tr) !! j = Some b ->
               EntityNode.depth a < EntityNode.depth b -> (i < j)%nat).
Proof.
  intros Hbs.
  destruct (traverseBFS_total w options rootPI errors0 sh0 Hbs) as [N HN].
  exists N. intros fuel Hf.
  destruct (HN fuel Hf) as (tr & sh & d & Hrun & HI & HS & Hq).
  destruct (Inv_complete _ _ _ _ _ _ HI Hq) as [Hall Hnd].
  destruct (traverseBFS_further w options fuel rootPI errors0 sh0 tr sh Hrun)
    as (Horder & _).
  destruct (TraversalSpec.inv_root _ _ _ _ _ _ _ HI) as [rest Hroot].
  rewrite Hall in Horder, Hroot.
  exists tr, sh, rest. split; [done|]. split; [done|]. split; [done|].
  split; [done|].
  intros i j a b Hi Hj Hlt.
  destruct (decide (i < j)%nat) as [|Hge]; [done|]. exfalso.
  assert (EntityNode.depth b <= EntityNode.depth a); [|lia].
  destruct (decide (i = j)) as [->|Hneq]; [rewrite Hi in Hj; injection Hj as ->; lia|].
  assert (j < i)%nat as Hji by lia.
  revert Horder Hi Hj Hji. unfold TraversalMore.levelOrder.
  generalize (map fst (RecursiveModsExporter.settled tr)). clear. intros l.
  revert i j. induction l as [|x l IH]; intros i j Hs Hi Hj Hji; [done|].
  apply StronglySorted_cons in Hs as [Hall Hs].
  destruct j as [|j]; destruct i as [|i]; try lia; simpl in Hi, Hj.
  - injection Hj as ->. rewrite Forall_forall in Hall. apply Hall.
    by eapply list_elem_of_lookup_2.
  - apply (IH i j); [done..|lia].
Qed.

Lemma handled_in_level_order_witness :
  exists N : nat,
    forall fuel, (N <= fuel)%nat ->
      exists tr sh rest,
        RecursiveModsExporter.traverseBFS fuel Samples.sampleWorld "R"
          Samples.sampleOptions [] (TraversalSpec.startShared "out.xml")
        = Some (tr, sh)
        /\ map fst (RecursiveModsExporter.settled tr)
           = RecursiveModsExporter.enqueued tr
        /\ map fst (RecursiveModsExporter.settled tr)
           = RecursiveModsExporter.rootNode "R" :: rest
        /\ TraversalMore.levelOrder (map fst (RecursiveModsExporter.settled tr))
        /\ (forall i j a b,
               map fst (RecursiveModsExporter.settled tr) !! i = Some a ->
               map fst (RecursiveModsExporter.settled tr) !! j = Some b ->
               EntityNode.depth a < EntityNode.depth b -> (i < j)%nat).
Proof.
  apply (handled_in_level_order Samples.sampleWorld "R" Samples.sampleOptions []
           (TraversalSpec.startShared "out.xml")).
  simpl. lia.
Defined.

(** X16. For a batch size of at least 1 the traversal ends, and every node
    handled has a path that starts at the root, ends at the node, has one
    entry per level down to the node's depth and repeats no identifier, even
    when the entities list one another in a cycle; its depth is at least 0
    and at most [max(0, maxDepth)]. *)
Theorem paths_from_root (w : RecursiveModsExporter.World)
        (rootPI : string) (options : RecursiveOptions.t)
        (errors0 : list (string * string)) (sh0 : RecursiveModsExporter.Shared) :
  1 <= RecursiveOptions.parallelBatchSize options ->
  exists N : nat,
    forall fuel, (N <= fuel)%nat ->
      exists tr sh,
        RecursiveModsExporter.traverseBFS fuel w rootPI options errors0 sh0
        = Some (tr, sh)
        /\ forall n r,
             (n, r) ∈ RecursiveModsExporter.settled tr ->
             TraversalMore.pathFromRootOk rootPI n
             /\ NoDup (EntityNode.pathFromRoot n)
             /\ 0 <= EntityNode.depth n
                <= Z.max 0 (RecursiveOptions.maxDepth options).
Proof.
  intros Hbs.
  destruct (traverseBFS_total w options rootPI errors0 sh0 Hbs) as [N HN].
  exists N. intros fuel Hf.
  destruct (HN fuel Hf) as (tr & sh & d & Hrun & HI & HS & Hq).
  destruct (Inv_complete _ _ _ _ _ _ HI Hq) as [Hall Hnd].
  destruct (traverseBFS_further w options fuel rootPI errors0 sh0 tr sh Hrun)
    as (_ & Hpaths & _).
  exists tr, sh. split; [done|]. intros n r Hn.
  assert (n ∈ RecursiveModsExporter.enqueued tr) as Hin.
  { rewrite Hall, map_fmap. by apply (list_elem_of_fmap_2 fst _ (n, r)). }
  destruct (Hpaths n Hin) as (Hok & Hnodup & _ & Hd).
  split; [done|]. split; [done|]. split; [done|].
  destruct (TraversalSpec.inv_parent _ _ _ _ _ _ _ HI n Hin)
    as [->|(p & v & cs & Hp & _ & _ & Hlt & ->)]; [simpl; lia|].
  assert (p ∈ RecursiveModsExporter.enqueued tr) as Hpin.
  { rewrite Hall, map_fmap. by apply (list_elem_of_fmap_2 fst _ (p, Fulfilled v)). }
  destruct (Hpaths p Hpin) as (_ & _ & _ & Hpd). simpl. lia.
Qed.

Lemma paths_from_root_witness :
  exists N : nat,
    forall fuel, (N <= fuel)%nat ->
      exists tr sh,
        RecursiveModsExporter.traverseBFS fuel Samples.sampleWorld "R"
          Samples.sampleOptions [] (TraversalSpec.startShared "out.xml")
        = Some (tr, sh)
        /\ forall n r,
             (n, r) ∈ RecursiveModsExporter.settled tr ->
             TraversalMore.pathFromRootOk "R" n
             /\ NoDup (EntityNode.pathFromRoot n)
             /\ 0 <= EntityNode.depth n
                <= Z.max 0 (RecursiveOptions.maxDepth Samples.sampleOptions).
Proof.
  apply (paths_from_root Samples.sampleWorld "R" Samples.sampleOptions []
           (TraversalSpec.startShared "out.xml")).
  simpl. lia.
Defined.

(** X17. With a [maxDepth] of 0 or less and a batch size of at least 1 the
    traversal handles the root and nothing else, whatever children the root
    lists. *)
Theorem maxDepth_zero_handles_root_only (w : RecursiveModsExporter.World)
        (rootPI : string) (options : RecursiveOptions.t)
        (errors0 : list (string * string)) (sh0 : RecursiveModsExporter.Shared) :
  1 <= RecursiveOptions.parallelBatchSize options ->
  RecursiveOptions.maxDepth options <= 0 ->
  exists N : nat,
    forall fuel, (N <= fuel)%nat ->
      exists tr sh,
        RecursiveModsExporter.traverseBFS fuel w rootPI options errors0 sh0
        = Some (tr, sh)
        /\ map fst (RecursiveModsExporter.settled tr)
           = [RecursiveModsExporter.rootNode rootPI]
        /\ RecursiveModsExporter.entityCount tr = 1%nat.
Proof.
  intros Hbs Hmax.
  destruct (traverseBFS_total w options rootPI errors0 sh0 Hbs) as [N HN].
  exists N. intros fuel Hf.
  destruct (HN fuel Hf) as (tr & sh & d & Hrun & HI & HS & Hq).
  destruct (Inv_complete _ _ _ _ _ _ HI Hq) as [Hall Hnd].
  destruct (traverseBFS_further w options fuel rootPI errors0 sh0 tr sh Hrun)
    as (_ & Hpaths & _).
  exists tr, sh. split; [done|].
  assert (forall n, n ∈ RecursiveModsExporter.enqueued tr ->
                    n = RecursiveModsExporter.rootNode rootPI) as Hroot.
  { intros n Hin.
    destruct (TraversalSpec.inv_parent _ _ _ _ _ _ _ HI n Hin)
      as [->|(p & v & cs & Hp & _ & _ & Hlt & _)]; [done|].
    assert (p ∈ RecursiveModsExporter.enqueued tr) as Hpin.
    { rewrite Hall, map_fmap.
      by apply (list_elem_of_fmap_2 fst _ (p, Fulfilled v)). }
    destruct (Hpaths p Hpin) as (_ & _ & _ & Hpd). lia. }
  assert (map fst (RecursiveModsExporter.settled tr)
          = [RecursiveModsExporter.rootNode rootPI]) as Hone.
  { rewrite <- Hall.
    destruct (TraversalSpec.inv_root _ _ _ _ _ _ _ HI) as [rest Hr].
    pose proof (TraversalSpec.inv_nodup _ _ _ _ _ _ _ HI) as Hnodup.
    rewrite Hr in Hnodup, Hroot |- *. destruct rest as [|x rest]; [done|].
    exfalso. simpl in Hnodup. apply NoDup_cons in Hnodup as [Hnotin _].
    apply Hnotin. rewrite (Hroot x) by (right; by left). by left. }
  split; [done|].
  rewrite (TraversalSpec.inv_entityCount _ _ _ _ _ _ _ HI).
  apply (f_equal length) in Hone. by rewrite length_map in Hone.
Qed.

Lemma maxDepth_zero_handles_root_only_witness :
  exists N : nat,
    forall fuel, (N <= fuel)%nat ->
      exists tr sh,
        RecursiveModsExporter.traverseBFS fuel Samples.sampleWorld "R"
          MoreSamples.rootOnlyOptions [] (TraversalSpec.startShared "out.xml")
        = Some (tr, sh)
        /\ map fst (RecursiveModsExporter.settled tr)
           = [RecursiveModsExporter.rootNode "R"]
        /\ RecursiveModsExporter.entityCount tr = 1%nat.
Proof.
  apply (maxDepth_zero_handles_root_only Samples.sampleWorld "R"
           MoreSamples.rootOnlyOptions [] (TraversalSpec.startShared "out.xml"));
    simpl; lia.
Defined.

(** X18. For a batch size of at least 1 the recursive export ends, and the
    [incompleteRecords] of its summary has one entry per node classified
    incomplete, so as many entries as [incompleteCount], in the order in
    which the nodes were handled when the tasks of a batch run in batch
    order; every entry names a node whose manifest was fetched and lists no
    [pinax.json] component, with the one reason the exporter gives. *)
Theorem incompleteRecords_of_summary (w : RecursiveModsExporter.World)
        (wr : ModsCollectionWriter.t) (rootPI outputPath : string)
        (options : RecursiveOptions.t) :
  1 <= RecursiveOptions.parallelBatchSize options ->
  exists N : nat,
    forall fuel, (N <= fuel)%nat ->
      exists tr sh r,
        RecursiveModsExporter.traverseBFS fuel w rootPI options []
          (TraversalSpec.startShared outputPath) = Some (tr, sh)
        /\ RecursiveModsExporter.exportRecursive fuel w wr rootPI outputPath options
           = Some (Fulfilled r, TraversalSpec.closedShared sh)
        /\ RecursiveExportResult.incompleteRecords r
           = TraversalMore.incompleteEntries (RecursiveModsExporter.settled tr)
        /\ length (RecursiveExportResult.incompleteRecords r)
           = RecursiveExportResult.incompleteCount r
        /\ (forall pi reason,
               (pi, reason) ∈ RecursiveExportResult.incompleteRecords r ->
               reason = "Missing PINAX metadata (pinax.json component not found)"
               /\ exists n v manifest,
                    (n, Fulfilled v) ∈ RecursiveModsExporter.settled tr
                    /\ EntityNode.pi n = pi
                    /\ RecursiveModsExporter.fetchManifest w pi = Fulfilled manifest
                    /\ RecursiveModsExporter.hasPinax manifest = false).
Proof.
  intros Hbs.
  destruct (traverseBFS_total w options rootPI []
              (TraversalSpec.startShared outputPath) Hbs) as [N HN].
  exists N. intros fuel Hf.
  destruct (HN fuel Hf) as (tr & sh & d & Hrun & HI & HS & Hq).
  destruct (traverseBFS_further w options fuel rootPI []
              (TraversalSpec.startShared outputPath) tr sh Hrun)
    as (_ & _ & Hinc & _).
  simpl in Hinc.
  exists tr, sh, (RecursiveModsExporter.summary outputPath tr sh).
  split; [done|]. split; [by apply exportRecursive_run|]. simpl.
  split; [done|]. split.
  - rewrite Hinc, (TraversalSpec.inv_incompleteCount _ _ _ _ _ _ _ HI).
    apply incompleteEntries_length.
  - intros pi reason Hin. rewrite Hinc in Hin.
    unfold TraversalMore.incompleteEntries in Hin.
    apply list_elem_of_omap in Hin as ([n r] & Hn & Hx). simpl in Hx.
    destruct (decide (TraversalSpec.classify r = TraversalSpec.incomplete))
      as [Hc|]; [|done].
    injection Hx as <- <-. split; [done|].
    destruct r as [v|e]; [|done].
    destruct (TraversalSpec.inv_outcome _ _ _ _ _ _ _ HI n (Fulfilled v) Hn)
      as (sh1 & sh2 & Hp).
    destruct (processEntity_records w n sh1 (Fulfilled v) sh2 Hp)
      as (_ & _ & Hv).
    destruct (Hv v eq_refl) as (manifest & Hman & Hflag & _).
    exists n, v, manifest. split; [done|]. split; [done|]. split; [done|].
    simpl in Hc. destruct (RecursiveModsExporter.isIncomplete v); [|done].
    by destruct (RecursiveModsExporter.hasPinax manifest).
Qed.

Lemma incompleteRecords_of_summary_witness :
  exists N : nat,
    forall fuel, (N <= fuel)%nat ->
      exists tr sh r,
        RecursiveModsExporter.traverseBFS fuel Samples.sampleWorld "R"
          Samples.sampleOptions [] (TraversalSpec.startShared "out.xml")
        = Some (tr, sh)
        /\ RecursiveModsExporter.exportRecursive fuel Samples.sampleWorld
             ModsCollectionWriter.new "R" "out.xml" Samples.sampleOptions
           = Some (Fulfilled r, TraversalSpec.closedShared sh)
        /\ RecursiveExportResult.incompleteRecords r
           = TraversalMore.incompleteEntries (RecursiveModsExporter.settled tr)
        /\ length (RecursiveExportResult.incompleteRecords r)
           = RecursiveExportResult.incompleteCount r
        /\ (forall pi reason,
               (pi, reason) ∈ RecursiveExportResult.incompleteRecords r ->
               reason = "Missing PINAX metadata (pinax.json component not found)"
               /\ exists n v manifest,
                    (n, Fulfilled v) ∈ RecursiveModsExporter.settled tr
                    /\ EntityNode.pi n = pi
                    /\ RecursiveModsExporter.fetchManifest Samples.sampleWorld pi
                       = Fulfilled manifest
                    /\ RecursiveModsExporter.hasPinax manifest = false).
Proof.
  apply (incompleteRecords_of_summary Samples.sampleWorld ModsCollectionWriter.new
           "R" "out.xml" Samples.sampleOptions).
  simpl. lia.
Defined.

(** X19. For a batch size of at least 1 the recursive export ends with the
    sink closed and holding, in this order: the four chunks of the header,
    one record per node whose task was fulfilled, each being the [<mods]
    element of that node's export with the node's hierarchy metadata, and
    the footer.  The records come in the order in which the nodes were
    handled when the tasks of a batch run in batch order, and their number
    is [successCount]. *)
Theorem collection_file_contents (w : RecursiveModsExporter.World)
        (wr : ModsCollectionWriter.t) (rootPI outputPath : string)
        (options : RecursiveOptions.t) :
  1 <= RecursiveOptions.parallelBatchSize options ->
  exists N : nat,
    forall fuel, (N <= fuel)%nat ->
      exists tr sh r final,
        RecursiveModsExporter.traverseBFS fuel w rootPI options []
          (TraversalSpec.startShared outputPath) = Some (tr, sh)
        /\ RecursiveModsExporter.exportRecursive fuel w wr rootPI outputPath options
           = Some (Fulfilled r, final)
        /\ ModsCollectionWriter.stream (RecursiveModsExporter.writer final)
           = Some {| ModsCollectionWriter.path := outputPath;
                     ModsCollectionWriter.chunks :=
                       ModsCollectionWriter.header
                         ++ TraversalMore.records w (RecursiveModsExporter.settled tr)
                         ++ [ModsCollectionWriter.footer];
                     ModsCollectionWriter.ended := true |}
        /\ length (TraversalMore.records w (RecursiveModsExporter.settled tr))
           = RecursiveExportResult.successCount r.
Proof.
  intros Hbs.
  destruct (traverseBFS_total w options rootPI []
              (TraversalSpec.startShared outputPath) Hbs) as [N HN].
  exists N. intros fuel Hf.
  destruct (HN fuel Hf) as (tr & sh & d & Hrun & HI & HS & Hq).
  destruct (traverseBFS_further w options fuel rootPI []
              (TraversalSpec.startShared outputPath) tr sh Hrun)
    as (_ & _ & _ & Hsink).
  destruct (Hsink _ eq_refl) as (s & Hs & Hpath & Hend & Hch).
  simpl in Hpath, Hend, Hch.
  exists tr, sh, (RecursiveModsExporter.summary outputPath tr sh),
    (TraversalSpec.closedShared sh).
  split; [done|]. split; [by apply exportRecursive_run|]. split.
  - unfold TraversalSpec.closedShared, ModsCollectionWriter.close. simpl.
    rewrite Hs. unfold mbind, ModsCollectionWriter.Task_bind,
      ModsCollectionWriter.bind.
    rewrite (write_stream _ _ s Hs). simpl.
    rewrite Hpath, Hch. reflexivity.
  - simpl. rewrite (TraversalSpec.inv_successCount _ _ _ _ _ _ _ HI).
    by eapply records_length.
Qed.

Lemma collection_file_contents_witness :
  exists N : nat,
    forall fuel, (N <= fuel)%nat ->
      exists tr sh r final,
        RecursiveModsExporter.traverseBFS fuel Samples.sampleWorld "R"
          Samples.sampleOptions [] (TraversalSpec.startShared "out.xml")
        = Some (tr, sh)
        /\ RecursiveModsExporter.exportRecursive fuel Samples.sampleWorld
             ModsCollectionWriter.new "R" "out.xml" Samples.sampleOptions
           = Some (Fulfilled r, final)
        /\ ModsCollectionWriter.stream (RecursiveModsExporter.writer final)
           = Some {| ModsCollectionWriter.path := "out.xml";
                     ModsCollectionWriter.chunks :=
                       ModsCollectionWriter.header
                         ++ TraversalMore.records Samples.sampleWorld
                              (RecursiveModsExporter.settled tr)
                         ++ [ModsCollectionWriter.footer];
                     ModsCollectionWriter.ended := true |}
        /\ length (TraversalMore.records Samples.sampleWorld
                     (RecursiveModsExporter.settled tr))
           = RecursiveExportResult.successCount r.
Proof.
  apply (collection_file_contents Samples.sampleWorld ModsCollectionWriter.new
           "R" "out.xml" Samples.sampleOptions).
  simpl. lia.
Defined.

Section BatchSizeFacts.
Import RecursiveModsExporter TraversalSpec.
Context (w : World) (o1 o2 : RecursiveOptions.t).
Hypothesis same_depth : RecursiveOptions.maxDepth o1 = RecursiveOptions.maxDepth o2.

Lemma stepNode_options_ext st node : stepNode w o1 st node = stepNode w o2 st node.
Proof.
  unfold stepNode. destruct (processEntity w node (snd st)) as [r sh]. f_equal.
  unfold handleResult. destruct r as [v|e]; [|done].
  unfold enqueueChildren. by rewrite same_depth.
Qed.

Lemma afterLevel_options_ext st : afterLevel w o1 st = afterLevel w o2 st.
Proof.
  unfold afterLevel. generalize (setQueue [] (fst st), snd st).
  induction (queue (fst st)) as [|n l IH]; intros acc; [done|].
  simpl. rewrite stepNode_options_ext. apply IH.
Qed.

Lemma Inv_options_ext rootPI errors0 tr pending d :
  Inv w o1 rootPI errors0 tr pending d -> Inv w o2 rootPI errors0 tr pending d.
Proof.
  intros [Hroot Hlog Hnd Hvis Hec Hsc Hic Herr Hpar Hout Hch Hdp Hdq Hdb].
  constructor; try done.
  - intros n Hn. destruct (Hpar n Hn) as [->|(p & v & cs & H)]; [by left|].
    right. exists p, v, cs. by rewrite <- same_depth.
  - intros p v cs c H1 H2 H3. apply (Hch p v cs c H1 H2). by rewrite same_depth.
  - by rewrite <- same_depth.
Qed.

Lemma levelLoop_agree rootPI errors0 :
  1 <= RecursiveOptions.parallelBatchSize o1 ->
  1 <= RecursiveOptions.parallelBatchSize o2 ->
  forall fuel1 fuel2 bf1 bf2 st a b d,
    Inv w o1 rootPI errors0 (fst st) [] d ->
    levelLoop fuel1 bf1 w o1 st = Some a ->
    levelLoop fuel2 bf2 w o2 st = Some b ->
    a = b.
Proof.
  intros Hb1 Hb2.
  induction fuel1 as [|fuel1 IH]; intros fuel2 bf1 bf2 st a b d HI Ha Hb.
  - simpl in Ha. destruct (queue (fst st)) eqn:Hq; [|done].
    destruct fuel2; simpl in Hb; rewrite Hq in Hb; congruence.
  - destruct (queue (fst st)) as [|n q] eqn:Hq.
    + simpl in Ha. rewrite Hq in Ha.
      destruct fuel2; simpl in Hb; rewrite Hq in Hb; congruence.
    + destruct fuel2 as [|fuel2]; [simpl in Hb; by rewrite Hq in Hb|].
      rewrite (levelLoop_step w o1 rootPI errors0 _ _ _ d) in Ha;
        [|done..|by rewrite Hq].
      rewrite (levelLoop_step w o2 rootPI errors0 _ _ _ d) in Hb;
        [|done|by apply Inv_options_ext|by rewrite Hq].
      destruct (batchLoop bf1 _ _ _ _ _); [|done].
      destruct (batchLoop bf2 _ _ _ _ _); [|done].
      rewrite <- afterLevel_options_ext in Hb.
      apply (IH fuel2 bf1 bf2 (afterLevel w o1 st) a b (d + 1)); [|done..].
      unfold afterLevel. apply fold_stepNode_Inv. by apply Inv_next_level.
Qed.

End BatchSizeFacts.

(** X20. The batch size does not change what the recursive export computes:
    with the tasks of a batch run in batch order, two runs that differ only
    in a batch size of at least 1 end with the same summary, the same sink
    and the same shared records. *)
Theorem batch_size_irrelevant (w : RecursiveModsExporter.World)
        (wr : ModsCollectionWriter.t) (rootPI outputPath : string)
        (o1 o2 : RecursiveOptions.t) :
  RecursiveOptions.maxDepth o1 = RecursiveOptions.maxDepth o2 ->
  1 <= RecursiveOptions.parallelBatchSize o1 ->
  1 <= RecursiveOptions.parallelBatchSize o2 ->
  exists N : nat,
    forall fuel, (N <= fuel)%nat ->
      exists r sh,
        RecursiveModsExporter.exportRecursive fuel w wr rootPI outputPath o1
        = Some (Fulfilled r, sh)
        /\ RecursiveModsExporter.exportRecursive fuel w wr rootPI outputPath o2
           = Some (Fulfilled r, sh).
Proof.
  intros Hd Hb1 Hb2.
  destruct (traverseBFS_total w o1 rootPI []
              (TraversalSpec.startShared outputPath) Hb1) as [N1 HN1].
  destruct (traverseBFS_total w o2 rootPI []
              (TraversalSpec.startShared outputPath) Hb2) as [N2 HN2].
  exists (N1 `max` N2)%nat. intros fuel Hf.
  destruct (HN1 fuel ltac:(lia)) as (tr1 & sh1 & d1 & Hrun1 & _).
  destruct (HN2 fuel ltac:(lia)) as (tr2 & sh2 & d2 & Hrun2 & _).
  assert ((tr1, sh1) = (tr2, sh2)) as Heq.
  { apply (levelLoop_agree w o1 o2 Hd rootPI [] Hb1 Hb2 fuel fuel fuel fuel
             (RecursiveModsExporter.initialTraversal rootPI [],
              TraversalSpec.startShared outputPath) _ _ (-1)).
    - apply initial_Inv.
    - exact Hrun1.
    - exact Hrun2. }
  injection Heq as <- <-.
  exists (RecursiveModsExporter.summary outputPath tr1 sh1),
    (TraversalSpec.closedShared sh1).
  split; by apply exportRecursive_run.
Qed.

Lemma batch_size_irrelevant_witness :
  exists N : nat,
    forall fuel, (N <= fuel)%nat ->
      exists r sh,
        RecursiveModsExporter.exportRecursive fuel Samples.sampleWorld
          ModsCollectionWriter.new "R" "out.xml" Samples.sampleOptions
        = Some (Fulfilled r, sh)
        /\ RecursiveModsExporter.exportRecursive fuel Samples.sampleWorld
             ModsCollectionWriter.new "R" "out.xml" DEFAULT_RECURSIVE_OPTIONS
           = Some (Fulfilled r, sh).
Proof.
  apply (batch_size_irrelevant Samples.sampleWorld ModsCollectionWriter.new
           "R" "out.xml" Samples.sampleOptions DEFAULT_RECURSIVE_OPTIONS);
    simpl; lia.
Defined.

(** ** Batch utilities *)

Section BatchFacts.
Import BatchUtils.
Context {T R : Type} (processor : T -> Settled R).

Lemma promiseAll_app (a b : list (Settled R)) :
  promiseAll (a ++ b)
  = match promiseAll a with
    | Fulfilled va =>
        match promiseAll b with
        | Fulfilled vb => Fulfilled (va ++ vb)
        | Rejected e => Rejected e
        end
    | Rejected e => Rejected e
    end.
Proof.
  induction a as [|[v|e] a IH]; simpl.
  - by destruct (promiseAll b).
  - rewrite IH. destruct (promiseAll a); [|done]. by destruct (promiseAll b).
  - done.
Qed.

Lemma promiseAll_fulfilled (outcomes : list (Settled R)) (values : list R) :
  promiseAll outcomes = Fulfilled values <-> outcomes = map Fulfilled values.
Proof.
  revert values. induction outcomes as [|[v|e] l IH]; intros values; simpl.
  - split; [intros [= <-]; done|]. by destruct values.
  - destruct (promiseAll l) as [vs|e] eqn:E.
    + split.
      * intros [= <-]. simpl. f_equal. by apply IH.
      * destruct values as [|v' values]; [done|]. simpl. intros [= -> H].
        apply IH in H. by injection H as ->.
    + split; [done|]. destruct values as [|v' values]; [done|]. simpl.
      intros [= -> H]. apply IH in H. done.
  - split; [done|]. by destruct values.
Qed.

Lemma promiseAll_rejected (outcomes : list (Settled R)) (e : string) :
  promiseAll outcomes = Rejected e -> Rejected e ∈ outcomes.
Proof.
  induction outcomes as [|[v|e'] l IH]; simpl; [done| |].
  - destruct (promiseAll l); [done|]. intros [= ->]. right. by apply IH.
  - intros [= ->]. by left.
Qed.

Lemma promiseAll_some_rejected (outcomes : list (Settled R)) :
  (exists o, o ∈ outcomes /\ isFulfilled o = false) ->
  exists e, promiseAll outcomes = Rejected e.
Proof.
  induction outcomes as [|[v|e'] l IH]; intros (o & Ho & Hf).
  - inversion Ho.
  - apply elem_of_cons in Ho as [->|Ho]; [done|].
    destruct IH as [e He]; [by exists o|]. exists e. simpl. by rewrite He.
  - by exists e'.
Qed.

Lemma processBatchLoop_spec (items : list T) (batchSize : Z) (fuel : nat) :
  1 <= batchSize ->
  forall i results,
    0 <= i -> Z.of_nat (length items) <= i + Z.of_nat fuel ->
    processBatchLoop fuel items batchSize processor i results
    = Some match promiseAll (map processor (drop (Z.to_nat i) items)) with
           | Fulfilled values => Fulfilled (results ++ values)
           | Rejected e => Rejected e
           end.
Proof.
  intros Hbs. induction fuel as [|fuel IH]; intros i results Hi Hfuel; simpl.
  - destruct (i <? Z.of_nat (length items)) eqn:E; [lia|].
    rewrite drop_ge by lia. simpl. by rewrite app_nil_r.
  - destruct (i <? Z.of_nat (length items)) eqn:E.
    + rewrite jsSlice_batch by lia.
      assert (drop (Z.to_nat i) items
              = take (Z.to_nat batchSize) (drop (Z.to_nat i) items)
                  ++ drop (Z.to_nat (i + batchSize)) items) as Hsplit.
      { rewrite <- (take_drop (Z.to_nat batchSize) (drop (Z.to_nat i) items)) at 1.
        f_equal. rewrite drop_drop. f_equal. lia. }
      remember (take (Z.to_nat batchSize) (drop (Z.to_nat i) items)) as batch
        eqn:Hbatch.
      clear Hbatch. rewrite Hsplit, map_app, promiseAll_app.
      destruct (promiseAll (map processor batch)) as [va|e]; [|done].
      rewrite IH by lia.
      destruct (promiseAll (map processor (drop (Z.to_nat (i + batchSize)) items)));
        [|done].
      by rewrite app_assoc.
    + rewrite drop_ge by lia. simpl. by rewrite app_nil_r.
Qed.

Lemma jsSlice_elem {A} (l : list A) (from to : Z) (x : A) :
  x ∈ jsSlice l from to -> x ∈ l.
Proof.
  unfold jsSlice. intros H.
  apply subseteq_take in H. by apply subseteq_drop in H.
Qed.

Lemma processBatchLoop_diverges (items : list T) (batchSize : Z) (fuel : nat) :
  batchSize <= 0 -> items <> [] ->
  (forall item, item ∈ items -> isFulfilled (processor item) = true) ->
  forall i results,
    i <= 0 -> processBatchLoop fuel items batchSize processor i results = None.
Proof.
  intros Hbs Hne Hall. induction fuel as [|fuel IH]; intros i results Hi; simpl.
  - destruct (i <? Z.of_nat (length items)) eqn:E; [done|].
    apply Z.ltb_ge in E. destruct items; [done|]. simpl length in E. lia.
  - destruct (i <? Z.of_nat (length items)) eqn:E.
    + destruct (promiseAll (map processor (jsSlice items i (i + batchSize))))
        as [vs|e] eqn:Hp.
      * apply IH. lia.
      * apply promiseAll_rejected in Hp. rewrite map_fmap in Hp.
        apply list_elem_of_fmap in Hp as (item & Hitem & Hin).
        apply jsSlice_elem in Hin. apply Hall in Hin.
        rewrite <- Hitem in Hin. discriminate.
    + apply Z.ltb_ge in E. destruct items; [done|]. simpl length in E. lia.
Qed.

End BatchFacts.

(** X21. For a batch size of at least 1, [processBatch] returns: when every
    item's task is fulfilled, the values of all items in the order of the
    items, whatever the batch size; and when some item's task is rejected,
    a rejection whose reason is that of one of the items. *)
Theorem processBatch_results {T R : Type} (items : list T) (batchSize : Z)
        (processor : T -> Settled R) :
  1 <= batchSize ->
  exists N : nat,
    forall fuel, (N <= fuel)%nat ->
      (forall values,
          map processor items = map Fulfilled values ->
          BatchUtils.processBatch fuel items batchSize processor
          = Some (Fulfilled values))
      /\ ((exists item, item ∈ items /\ isFulfilled (processor item) = false) ->
          exists e item,
            BatchUtils.processBatch fuel items batchSize processor
            = Some (Rejected e)
            /\ item ∈ items /\ processor item = Rejected e).
Proof.
  intros Hbs. exists (length items). intros fuel Hf.
  unfold BatchUtils.processBatch.
  rewrite (processBatchLoop_spec processor items batchSize fuel Hbs 0 [])
    by lia.
  change (Z.to_nat 0) with 0%nat. rewrite drop_0. split.
  - intros values Hv. apply promiseAll_fulfilled in Hv. by rewrite Hv.
  - intros (item & Hin & Hf').
    destruct (promiseAll_some_rejected (map processor items)) as [e He].
    { exists (processor item). split; [|done].
      rewrite map_fmap. by apply list_elem_of_fmap_2. }
    rewrite He. pose proof (promiseAll_rejected _ _ He) as Hr.
    rewrite map_fmap in Hr. apply list_elem_of_fmap in Hr as (item' & Hi' & Hin').
    exists e, item'. done.
Qed.

Lemma processBatch_results_witness :
  exists N : nat,
    forall fuel, (N <= fuel)%nat ->
      (forall values,
          map (RecursiveModsExporter.fetchManifest Samples.sampleWorld)
              ["R"; "A"; "B"; "C"; "D"]
          = map Fulfilled values ->
          BatchUtils.processBatch fuel ["R"; "A"; "B"; "C"; "D"] 2
            (RecursiveModsExporter.fetchManifest Samples.sampleWorld)
          = Some (Fulfilled values))
      /\ ((exists item,
              item ∈ ["R"; "A"; "B"; "C"; "D"]
              /\ isFulfilled
                   (RecursiveModsExporter.fetchManifest Samples.sampleWorld item)
                 = false) ->
          exists e item,
            BatchUtils.processBatch fuel ["R"; "A"; "B"; "C"; "D"] 2
              (RecursiveModsExporter.fetchManifest Samples.sampleWorld)
            = Some (Rejected e)
            /\ item ∈ ["R"; "A"; "B"; "C"; "D"]
            /\ RecursiveModsExporter.fetchManifest Samples.sampleWorld item
               = Rejected e).
Proof.
  apply (processBatch_results ["R"; "A"; "B"; "C"; "D"] 2
           (RecursiveModsExporter.fetchManifest Samples.sampleWorld)).
  lia.
Defined.

(** X22. With a batch size of 0 or less, a list of items that is not empty
    and tasks that are all fulfilled, the loop of [processBatch] never
    ends: no number of iterations yields a result. *)
Theorem processBatch_never_returns {T R : Type} (items : list T) (batchSize : Z)
        (processor : T -> Settled R) (fuel : nat) :
  batchSize <= 0 -> items <> [] ->
  (forall item, item ∈ items -> isFulfilled (processor item) = true) ->
  BatchUtils.processBatch fuel items batchSize processor = None.
Proof.
  intros Hbs Hne Hall. unfold BatchUtils.processBatch.
  by apply processBatchLoop_diverges.
Qed.

Lemma processBatch_never_returns_witness :
  BatchUtils.processBatch 1000 ["R"; "A"; "B"] 0
    (RecursiveModsExporter.fetchManifest Samples.sampleWorld) = None.
Proof.
  apply (processBatch_never_returns ["R"; "A"; "B"] 0
           (RecursiveModsExporter.fetchManifest Samples.sampleWorld) 1000);
    [lia|discriminate|].
  intros item Hin.
  repeat (apply elem_of_cons in Hin as [->|Hin]; [reflexivity|]).
  inversion Hin.
Defined.

Section BatchWithErrorsFacts.
Import BatchUtils.
Context {T K V : Type} `{Countable K} (processor : T -> Settled (K * V)).

Lemma collect_app (a b : list T) (acc : BatchOutcome T K V) :
  collect (a ++ b) (map processor (a ++ b)) acc
  = collect b (map processor b) (collect a (map processor a) acc).
Proof.
  revert acc. induction a as [|x a IH]; intros acc; [done|].
  simpl. apply IH.
Qed.

Lemma collect_errors (l : list T) (acc : BatchOutcome T K V) :
  errors (collect l (map processor l) acc)
  = errors acc
      ++ omap (fun item => match processor item with
                           | Rejected e => Some (item, e)
                           | Fulfilled _ => None
                           end) l.
Proof.
  revert acc. induction l as [|x l IH]; intros acc; simpl.
  - by rewrite app_nil_r.
  - rewrite IH. destruct (processor x) as [[k v]|e]; simpl; [done|].
    by rewrite <- app_assoc.
Qed.

Lemma collect_results (l : list T) (acc : BatchOutcome T K V) (key : K) :
  results (collect l (map processor l) acc) !! key
  = match last (omap (fun item => match processor item with
                                  | Fulfilled (k, v) =>
                                      if decide (k = key) then Some v else None
                                  | Rejected _ => None
                                  end) l) with
    | Some v => Some v
    | None => results acc !! key
    end.
Proof.
  revert acc. induction l as [|x l IH] using rev_ind; intros acc; [done|].
  rewrite collect_app, omap_app. simpl.
  destruct (processor x) as [[k v]|e]; simpl.
  - destruct (decide (k = key)) as [->|Hne]; simpl.
    + by rewrite last_snoc, lookup_insert_eq.
    + rewrite app_nil_r, lookup_insert_ne by done. apply IH.
  - rewrite app_nil_r. apply IH.
Qed.

Lemma processBatchWithErrorsLoop_spec (items : list T) (batchSize : Z) (fuel : nat) :
  1 <= batchSize ->
  forall i acc,
    0 <= i -> Z.of_nat (length items) <= i + Z.of_nat fuel ->
    processBatchWithErrorsLoop fuel items batchSize processor i acc
    = Some (collect (drop (Z.to_nat i) items)
                    (map processor (drop (Z.to_nat i) items)) acc).
Proof.
  intros Hbs. induction fuel as [|fuel IH]; intros i acc Hi Hfuel; simpl.
  - destruct (i <? Z.of_nat (length items)) eqn:E; [lia|].
    by rewrite drop_ge by lia.
  - destruct (i <? Z.of_nat (length items)) eqn:E.
    + rewrite jsSlice_batch by lia.
      assert (drop (Z.to_nat i) items
              = take (Z.to_nat batchSize) (drop (Z.to_nat i) items)
                  ++ drop (Z.to_nat (i + batchSize)) items) as Hsplit.
      { rewrite <- (take_drop (Z.to_nat batchSize) (drop (Z.to_nat i) items)) at 1.
        f_equal. rewrite drop_drop. f_equal. lia. }
      remember (take (Z.to_nat batchSize) (drop (Z.to_nat i) items)) as batch
        eqn:Hbatch.
      clear Hbatch. rewrite Hsplit, collect_app. apply IH; lia.
    + by rewrite drop_ge by lia.
Qed.

End BatchWithErrorsFacts.

(** X23. For a batch size of at least 1, [processBatchWithErrors] returns
    and does not reject: its [errors] are the items whose task was rejected,
    with the reasons, in the order of the items, and its [results] map holds
    under each key the value of the last item whose task was fulfilled with
    that key, so that an earlier value under the same key is overwritten. *)
Theorem processBatchWithErrors_outcome {T K V : Type} `{Countable K}
        (items : list T) (batchSize : Z) (processor : T -> Settled (K * V)) :
  1 <= batchSize ->
  exists N : nat,
    forall fuel, (N <= fuel)%nat ->
      exists outcome,
        BatchUtils.processBatchWithErrors fuel items batchSize processor
        = Some outcome
        /\ BatchUtils.errors outcome
           = omap (fun item => match processor item with
                               | Rejected e => Some (item, e)
                               | Fulfilled _ => None
                               end) items
        /\ forall key,
             BatchUtils.results outcome !! key
             = last (omap (fun item =>
                             match processor item with
                             | Fulfilled (k, v) =>
                                 if decide (k = key) then Some v else None
                             | Rejected _ => None
                             end) items).
Proof.
  intros Hbs. exists (length items). intros fuel Hf.
  unfold BatchUtils.processBatchWithErrors.
  rewrite (processBatchWithErrorsLoop_spec processor items batchSize fuel Hbs)
    by lia.
  change (Z.to_nat 0) with 0%nat. rewrite drop_0.
  eexists. split; [reflexivity|]. split.
  - by rewrite collect_errors.
  - intros key. rewrite collect_results. simpl.
    by destruct (last _).
Qed.

Lemma processBatchWithErrors_outcome_witness :
  exists N : nat,
    forall fuel, (N <= fuel)%nat ->
      exists outcome,
        BatchUtils.processBatchWithErrors fuel ["R"; "E"; "A"; "R"] 3
          MoreSamples.keyedManifest
        = Some outcome
        /\ BatchUtils.errors outcome
           = omap (fun item => match MoreSamples.keyedManifest item with
                               | Rejected e => Some (item, e)
                               | Fulfilled _ => None
                               end) ["R"; "E"; "A"; "R"]
        /\ forall key,
             BatchUtils.results outcome !! key
             = last (omap (fun item =>
                             match MoreSamples.keyedManifest item with
                             | Fulfilled (k, v) =>
                                 if decide (k = key) then Some v else None
                             | Rejected _ => None
                             end) ["R"; "E"; "A"; "R"]).
Proof.
  apply (processBatchWithErrors_outcome ["R"; "E"; "A"; "R"] 3
           MoreSamples.keyedManifest).
  lia.
Defined.

(** ** Further properties of the collection writer *)

(** X24. When the export of an entity is fulfilled with a text that has no
    [<mods] element, the entity's task is rejected with the writer's
    message although the writer is open: nothing reaches the sink, the
    entity is not listed as incomplete whatever its manifest says, and the
    [writeMods] call is the only trace. *)
Theorem export_without_mods_element (w : RecursiveModsExporter.World)
        (node : EntityNode.t) (sh : RecursiveModsExporter.Shared)
        (manifest : ArkeManifest.t) (modsXml : string)
        (s : ModsCollectionWriter.WriteStream) :
  RecursiveModsExporter.fetchManifest w (EntityNode.pi node) = Fulfilled manifest ->
  RecursiveModsExporter.exportEntity w (EntityNode.pi node) = Fulfilled modsXml ->
  ModsCollectionWriter.isOpen (RecursiveModsExporter.writer sh) = true ->
  ModsCollectionWriter.stream (RecursiveModsExporter.writer sh) = Some s ->
  isFulfilled (ModsCollectionWriter.extractModsElement modsXml) = false ->
  RecursiveModsExporter.processEntity w node sh
  = (Rejected "No <mods> element found in XML",
     {| RecursiveModsExporter.writer := RecursiveModsExporter.writer sh;
        RecursiveModsExporter.incompleteRecords :=
          RecursiveModsExporter.incompleteRecords sh;
        RecursiveModsExporter.writeModsCalls :=
          RecursiveModsExporter.writeModsCalls sh ++ [EntityNode.pi node] |}).
Proof.
  intros Hman Hexp Hopen Hs Hnone.
  unfold RecursiveModsExporter.processEntity. rewrite Hman, Hexp.
  unfold ModsCollectionWriter.writeMods. rewrite Hopen, Hs. simpl.
  unfold ModsCollectionWriter.extractModsElement in *.
  destruct (Str.splitAt "<mods" (Str.removeXmlDeclaration modsXml))
    as [[before from]|]; [discriminate|]. reflexivity.
Qed.

Lemma export_without_mods_element_witness :
  RecursiveModsExporter.processEntity MoreSamples.emptyExportWorld
    (RecursiveModsExporter.rootNode "R") (TraversalSpec.startShared "out.xml")
  = (Rejected "No <mods> element found in XML",
     {| RecursiveModsExporter.writer :=
          RecursiveModsExporter.writer (TraversalSpec.startShared "out.xml");
        RecursiveModsExporter.incompleteRecords :=
          RecursiveModsExporter.incompleteRecords (TraversalSpec.startShared "out.xml");
        RecursiveModsExporter.writeModsCalls :=
          RecursiveModsExporter.writeModsCalls (TraversalSpec.startShared "out.xml")
            ++ [EntityNode.pi (RecursiveModsExporter.rootNode "R")] |}).
Proof.
  apply (export_without_mods_element MoreSamples.emptyExportWorld
           (RecursiveModsExporter.rootNode "R") (TraversalSpec.startShared "out.xml")
           (Samples.manifestOf "R" false (Some ["A"])) "<collection/>"
           {| ModsCollectionWriter.path := "out.xml";
              ModsCollectionWriter.chunks := ModsCollectionWriter.header;
              ModsCollectionWriter.ended := false |});
    reflexivity.
Defined.

(** X25. [close] on a writer whose stream has not ended hands the footer
    to the sink as one more chunk and ends the stream; the path, the earlier
    chunks and [isOpen] stay as they were.  On a writer without a stream it
    returns at once and changes nothing. *)
Theorem close_behaviour (wr : ModsCollectionWriter.t)
        (s : ModsCollectionWriter.WriteStream) :
  ModsCollectionWriter.stream wr = Some s ->
  ModsCollectionWriter.ended s = false ->
  snd (ModsCollectionWriter.close wr)
  = {| ModsCollectionWriter.stream :=
         Some {| ModsCollectionWriter.path := ModsCollectionWriter.path s;
                 ModsCollectionWriter.chunks :=
                   ModsCollectionWriter.chunks s ++ [ModsCollectionWriter.footer];
                 ModsCollectionWriter.ended := true |};
       ModsCollectionWriter.isOpen := ModsCollectionWriter.isOpen wr |}
  /\ ModsCollectionWriter.close
       {| ModsCollectionWriter.stream := None;
          ModsCollectionWriter.isOpen := ModsCollectionWriter.isOpen wr |}
     = (Fulfilled tt,
        {| ModsCollectionWriter.stream := None;
           ModsCollectionWriter.isOpen := ModsCollectionWriter.isOpen wr |}).
Proof.
  intros Hs _. split; [|reflexivity].
  unfold ModsCollectionWriter.close. rewrite Hs.
  unfold mbind, ModsCollectionWriter.Task_bind, ModsCollectionWriter.bind.
  rewrite (write_stream _ _ s Hs). reflexivity.
Qed.

Lemma close_behaviour_witness :
  snd (ModsCollectionWriter.close
         (snd (ModsCollectionWriter.open "out.xml" ModsCollectionWriter.new)))
  = {| ModsCollectionWriter.stream :=
         Some {| ModsCollectionWriter.path := "out.xml";
                 ModsCollectionWriter.chunks :=
                   ModsCollectionWriter.header ++ [ModsCollectionWriter.footer];
                 ModsCollectionWriter.ended := true |};
       ModsCollectionWriter.isOpen := true |}
  /\ ModsCollectionWriter.close
       {| ModsCollectionWriter.stream := None;
          ModsCollectionWriter.isOpen := true |}
     = (Fulfilled tt,
        {| ModsCollectionWriter.stream := None;
           ModsCollectionWriter.isOpen := true |}).
Proof.
  apply (close_behaviour
           (snd (ModsCollectionWriter.open "out.xml" ModsCollectionWriter.new))
           {| ModsCollectionWriter.path := "out.xml";
              ModsCollectionWriter.chunks := ModsCollectionWriter.header;
              ModsCollectionWriter.ended := false |});
    reflexivity.
Defined.

Section StringFacts.

Lemma string_app_cons (a : ascii) (s t : string) : String a s +:+ t = String a (s +:+ t).
Proof. reflexivity. Qed.

Lemma string_app_empty (t : string) : "" +:+ t = t.
Proof. reflexivity. Qed.

Lemma string_append_assoc (a b c : string) : (a +:+ b) +:+ c = a +:+ (b +:+ c).
Proof.
  induction a as [|x a IH]; [done|]. rewrite !string_app_cons. by rewrite IH.
Qed.

Lemma string_rev_app_spec (s acc : string) : String.rev_app s acc = String.rev s +:+ acc.
Proof.
  unfold String.rev. revert acc. induction s as [|a s IH]; intros acc; [done|].
  simpl. rewrite (IH (String a acc)), (IH (String a "")), string_append_assoc. done.
Qed.

Lemma string_rev_cons (a : ascii) (s : string) :
  String.rev (String a s) = String.rev s +:+ String a "".
Proof. unfold String.rev at 1. simpl. apply string_rev_app_spec. Qed.

Lemma string_rev_app_snoc (s : string) (a : ascii) (acc : string) :
  String.rev_app (s +:+ String a "") acc = String a (String.rev_app s acc).
Proof.
  revert acc. induction s as [|b s IH]; intros acc; [done|].
  rewrite string_app_cons. simpl. apply IH.
Qed.

Lemma string_rev_snoc (s : string) (a : ascii) :
  String.rev (s +:+ String a "") = String a (String.rev s).
Proof. apply string_rev_app_snoc. Qed.

Lemma dropRun_cons two three (a : ascii) (s1 : string) :
  Str.dropRun two three (String a s1)
  = if Ascii.is_space a then Str.dropRun two three s1
    else
      match s1 with
      | String b s2 =>
          if two a b then Str.dropRun two three s2
          else
            match s2 with
            | String c s3 =>
                if three a b c then Str.dropRun two three s3 else String a s1
            | "" => String a s1
            end
      | "" => String a s1
      end.
Proof. reflexivity. Qed.

(** A byte that is no white space and ends no white-space character stays
    at the end of the text when the white space in front is dropped. *)
Lemma dropRun_snoc two three (a : ascii) (s : string) :
  Ascii.is_space a = false ->
  (forall b, two b a = false) ->
  (forall b c, three b c a = false) ->
  Str.dropRun two three (s +:+ String a "")
  = Str.dropRun two three s +:+ String a "".
Proof.
  intros Ha H2 H3.
  assert (forall n s, (String.length s <= n)%nat ->
            Str.dropRun two three (s +:+ String a "")
            = Str.dropRun two three s +:+ String a "") as H;
    [|by apply (H (String.length s))].
  clear s. induction n as [|n IH]; intros s Hn.
  - destruct s as [|b s]; [|simpl in Hn; lia].
    rewrite string_app_empty, dropRun_cons, Ha. reflexivity.
  - destruct s as [|b s1].
    { rewrite string_app_empty, dropRun_cons, Ha. reflexivity. }
    simpl in Hn. rewrite string_app_cons, !dropRun_cons.
    destruct (Ascii.is_space b); [apply IH; lia|].
    destruct s1 as [|c s2].
    { rewrite string_app_empty. cbv beta iota. rewrite H2. reflexivity. }
    simpl in Hn. rewrite string_app_cons. cbv beta iota.
    destruct (two b c); [apply IH; lia|].
    destruct s2 as [|d s3].
    { rewrite string_app_empty. cbv beta iota. rewrite H3. reflexivity. }
    simpl in Hn. rewrite string_app_cons. cbv beta iota.
    destruct (three b c d); [apply IH; lia|]. reflexivity.
Qed.

Lemma space2_ascii (a b : ascii) : (Utf8.byte a < 128)%N -> Str.space2 a b = false.
Proof.
  intros Ha. unfold Str.space2.
  destruct (N.eqb_spec (Utf8.byte a) 194) as [E|_]; [lia|reflexivity].
Qed.

Lemma space3_ascii (a b c : ascii) : (Utf8.byte a < 128)%N -> Str.space3 a b c = false.
Proof.
  intros Ha. unfold Str.space3.
  assert (forall k, (128 <= k)%N -> (Utf8.byte a =? k)%N = false) as E.
  { intros k Hk. apply N.eqb_neq. lia. }
  rewrite !E by lia. reflexivity.
Qed.

Lemma trimEnd_cons (a : ascii) (s : string) :
  Ascii.is_space a = false -> (Utf8.byte a < 128)%N ->
  Str.trimEnd (String a s) = String a (Str.trimEnd s).
Proof.
  intros Ha Hb. unfold Str.trimEnd.
  rewrite string_rev_cons, dropRun_snoc, string_rev_snoc; [done|done|..].
  - intros b. by apply space2_ascii.
  - intros b c. by apply space3_ascii.
Qed.

Lemma substitute_plain (matched before after : string) (captures : list string)
      (p t : string) :
  Str.hasDollar p = false ->
  Str.substitute matched before after captures (p +:+ t)
  = p +:+ Str.substitute matched before after captures t.
Proof.
  induction p as [|x p IH]; [done|].
  simpl. intros [Hx Hp]%orb_false_iff.
  rewrite !string_app_cons. simpl. rewrite Hx. by rewrite (IH Hp).
Qed.

(** The replacement of the first [replace] for an identifier without a
    dollar sign. *)
Lemma substitute_id_template (matched before after opening pi : string) :
  Str.hasDollar pi = false ->
  Str.substitute matched before after [opening; ">"]
    ("$1 ID=" +:+ Str.dq +:+ "entity-" +:+ pi +:+ Str.dq +:+ "$2")
  = opening +:+ " ID=" +:+ Str.dq +:+ "entity-" +:+ pi +:+ Str.dq +:+ ">".
Proof.
  intros Hpi.
  change (Str.substitute matched before after [opening; ">"]
            ("$1 ID=" +:+ Str.dq +:+ "entity-" +:+ pi +:+ Str.dq +:+ "$2"))
    with (opening +:+ " ID=" +:+ Str.dq +:+ "entity-"
            +:+ Str.substitute matched before after [opening; ">"]
                  (pi +:+ Str.dq +:+ "$2")).
  by rewrite (substitute_plain _ _ _ _ _ _ Hpi).
Qed.

Lemma string_prefix_cons (a : ascii) (p s : string) :
  String.prefix (String a p) s = true ->
  exists s', s = String a s' /\ String.prefix p s' = true.
Proof.
  destruct s as [|b s]; [done|].
  change (String.prefix (String a p) (String b s))
    with (match Ascii.ascii_dec a b with
          | left _ => String.prefix p s
          | right _ => false
          end).
  destruct (Ascii.ascii_dec a b) as [<-|]; [|done]. intros H. by exists s.
Qed.

Lemma string_prefix_mods (s : string) :
  String.prefix "<mods" s = true -> exists rest, s = "<mods" +:+ rest.
Proof.
  intros H.
  do 5 (apply string_prefix_cons in H as (? & -> & H)).
  by eexists.
Qed.

Lemma string_prefix_app (p s : string) : String.prefix p (p +:+ s) = true.
Proof.
  induction p as [|a p IH].
  - by destruct s.
  - rewrite string_app_cons.
    change (String.prefix (String a p) (String a (p +:+ s)))
      with (match Ascii.ascii_dec a a with
            | left _ => String.prefix p (p +:+ s)
            | right _ => false
            end).
    by destruct (Ascii.ascii_dec a a).
Qed.

Lemma splitAt_from (pat s before from : string) :
  Str.splitAt pat s = Some (before, from) ->
  String.prefix pat from = true /\ s = before +:+ from.
Proof.
  revert before. induction s as [|a s IH]; intros before.
  - destruct pat; simpl; [|done]. by intros [= <- <-].
  - change (Str.splitAt pat (String a s))
      with (if String.prefix pat (String a s) then Some ("", String a s)
            else match Str.splitAt pat s with
                 | Some (before, from) => Some (String a before, from)
                 | None => None
                 end).
    destruct (String.prefix pat (String a s)) eqn:E.
    + by intros [= <- <-].
    + destruct (Str.splitAt pat s) as [[b f]|]; [|done].
      intros [= <- <-]. destruct (IH b eq_refl) as [Hp ->]. done.
Qed.

(** The dollar patterns of an identifier are expanded: [$$] gives one
    dollar sign, [$1] the text up to the bracket once more, and [$3], which
    names no capture, stays. *)
Lemma addIdAttribute_dollar_patterns :
  ModsCollectionWriter.addIdAttribute "  <mods>x</mods>"
    {| EntityNode.pi := "x$$y"; EntityNode.depth := 0;
       EntityNode.parentPI := None; EntityNode.pathFromRoot := ["x$$y"] |}
  = "  <mods ID=" +:+ Str.dq +:+ "entity-x$y" +:+ Str.dq +:+ ">x</mods>"
  /\ ModsCollectionWriter.addIdAttribute "  <mods>x</mods>"
       {| EntityNode.pi := "a$1b$3"; EntityNode.depth := 0;
          EntityNode.parentPI := None; EntityNode.pathFromRoot := ["a$1b$3"] |}
     = "  <mods ID=" +:+ Str.dq +:+ "entity-a  <modsb$3" +:+ Str.dq +:+ ">x</mods>".
Proof. split; reflexivity. Qed.

(** White space beyond ASCII goes too: U+00A0, U+FEFF and U+2028 at the end
    of a text are trimmed, and U+3000 in front of the opening tag is kept in
    front of it; U+200B is no white space. *)
Lemma trimEnd_wide_spaces :
  Str.trimEnd ("</mods>" +:+ Utf8.ofBytes [194; 160; 239; 187; 191; 226; 128; 168; 10]%N)
  = "</mods>"
  /\ Str.trimEnd ("</mods>" +:+ Utf8.ofBytes [226; 128; 139]%N)
     = "</mods>" +:+ Utf8.ofBytes [226; 128; 139]%N
  /\ Str.takeSpaces (Utf8.ofBytes [227; 128; 128; 32]%N +:+ "<mods>")
     = Utf8.ofBytes [227; 128; 128; 32]%N.
Proof. repeat split; reflexivity. Qed.

(** [substring(0, 3)] of a tag of three characters of three bytes each is
    the whole tag, and a character of four bytes counts for two units. *)
Lemma substring0_code_units :
  Utf8.substring0 3 (Utf8.ofBytes [230; 151; 165; 230; 156; 172; 232; 170; 158; 45; 120]%N)
  = Utf8.ofBytes [230; 151; 165; 230; 156; 172; 232; 170; 158]%N
  /\ Utf8.substring0 3 (Utf8.ofBytes [97; 240; 159; 152; 128; 98; 99]%N)
     = Utf8.ofBytes [97; 240; 159; 152; 128]%N
  /\ Utf8.substring0 2 (Utf8.ofBytes [97; 240; 159; 152; 128; 98; 99]%N)
     = Utf8.ofBytes [97; 237; 160; 189]%N.
Proof. repeat split; reflexivity. Qed.

End StringFacts.

(** X26. The element [extractModsElement] returns is two spaces followed
    by text that begins with [<mods].  For a node whose identifier has no
    dollar sign, [addHierarchyMetadata]'s first step puts the [ID] attribute
    of the node right before the first [>] that follows; when no [>]
    follows, that step leaves the element as it is, whatever the
    identifier. *)
Theorem extractModsElement_shape (xml modsElement : string) (node : EntityNode.t) :
  ModsCollectionWriter.extractModsElement xml = Fulfilled modsElement ->
  exists body,
    modsElement = "  <mods" +:+ body
    /\ (forall attrs tail,
           Str.hasDollar (EntityNode.pi node) = false ->
           Str.untilGt body = Some (attrs, tail) ->
           ModsCollectionWriter.addIdAttribute modsElement node
           = "  <mods" +:+ attrs +:+ " ID=" +:+ Str.dq +:+ "entity-"
               +:+ EntityNode.pi node +:+ Str.dq +:+ ">" +:+ tail)
    /\ (Str.untilGt body = None ->
        ModsCollectionWriter.addIdAttribute modsElement node = modsElement).
Proof.
  unfold ModsCollectionWriter.extractModsElement.
  destruct (Str.splitAt "<mods" (Str.removeXmlDeclaration xml))
    as [[before from]|] eqn:Hsplit; [|done].
  intros [= <-]. apply splitAt_from in Hsplit as [Hprefix _].
  apply string_prefix_mods in Hprefix as [rest ->].
  exists (Str.trimEnd (Str.indentLines rest)).
  assert (Str.trimEnd (Str.indentLines ("<mods" +:+ rest))
          = "<mods" +:+ Str.trimEnd (Str.indentLines rest)) as ->.
  { change (Str.indentLines ("<mods" +:+ rest))
      with ("<mods" +:+ Str.indentLines rest).
    rewrite !string_app_cons, string_app_empty.
    by rewrite !trimEnd_cons by reflexivity. }
  split; [done|].
  unfold ModsCollectionWriter.addIdAttribute.
  change (Str.takeSpaces ("  " +:+ "<mods" +:+ ?b)) with "  ".
  change (Str.dropSpaces ("  " +:+ "<mods" +:+ ?b)) with ("<mods" +:+ b).
  rewrite string_prefix_app.
  change (Str.drop 5 ("<mods" +:+ ?b)) with b.
  split.
  - intros attrs tail Hpi ->. cbv zeta.
    rewrite (substitute_id_template _ _ _ _ _ Hpi).
    rewrite !string_append_assoc. reflexivity.
  - intros ->. reflexivity.
Qed.

Lemma extractModsElement_shape_witness :
  exists body,
    "  " +:+ Str.trimEnd
               (Str.indentLines
                  ("<mods xmlns='http://www.loc.gov/mods/v3'>" +:+ Str.nl
                     +:+ "  <titleInfo/>" +:+ Str.nl +:+ "</mods>"))
    = "  <mods" +:+ body
    /\ (forall attrs tail,
           Str.hasDollar (EntityNode.pi (RecursiveModsExporter.rootNode "R")) = false ->
           Str.untilGt body = Some (attrs, tail) ->
           ModsCollectionWriter.addIdAttribute
             ("  " +:+ Str.trimEnd
                         (Str.indentLines
                            ("<mods xmlns='http://www.loc.gov/mods/v3'>" +:+ Str.nl
                               +:+ "  <titleInfo/>" +:+ Str.nl +:+ "</mods>")))
             (RecursiveModsExporter.rootNode "R")
           = "  <mods" +:+ attrs +:+ " ID=" +:+ Str.dq +:+ "entity-"
               +:+ EntityNode.pi (RecursiveModsExporter.rootNode "R")
               +:+ Str.dq +:+ ">" +:+ tail)
    /\ (Str.untilGt body = None ->
        ModsCollectionWriter.addIdAttribute
          ("  " +:+ Str.trimEnd
                      (Str.indentLines
                         ("<mods xmlns='http://www.loc.gov/mods/v3'>" +:+ Str.nl
                            +:+ "  <titleInfo/>" +:+ Str.nl +:+ "</mods>")))
          (RecursiveModsExporter.rootNode "R")
        = "  " +:+ Str.trimEnd
                     (Str.indentLines
                        ("<mods xmlns='http://www.loc.gov/mods/v3'>" +:+ Str.nl
                           +:+ "  <titleInfo/>" +:+ Str.nl +:+ "</mods>"))).
Proof.
  apply (extractModsElement_shape Samples.sampleXml
           ("  " +:+ Str.trimEnd
                       (Str.indentLines
                          ("<mods xmlns='http://www.loc.gov/mods/v3'>" +:+ Str.nl
                             +:+ "  <titleInfo/>" +:+ Str.nl +:+ "</mods>")))
           (RecursiveModsExporter.rootNode "R")).
  reflexivity.
Defined.

(** ** The tree export *)

Section TreeFacts.
Import PinaxExporter.
Context (c : Collaborators) (options : Options).

Lemma exportChildren_sound exportOne cs batchSize fuel :
  1 <= batchSize ->
  forall i acc r,
    0 <= i ->
    exportChildren fuel exportOne cs batchSize i acc = Some (Fulfilled r) ->
    exists rest,
      r = acc ++ rest
      /\ Forall2 (fun pi e => exportOne pi = Some (Fulfilled e))
                 (drop (Z.to_nat i) cs) rest.
Proof.
  intros Hbs. induction fuel as [|fuel IH]; intros i acc r Hi; simpl.
  - destruct (i <? Z.of_nat (length cs)) eqn:E; [done|].
    intros [= <-]. exists []. rewrite app_nil_r, drop_ge by lia. by split.
  - destruct (i <? Z.of_nat (length cs)) eqn:E.
    + rewrite jsSlice_batch by lia.
      assert (drop (Z.to_nat i) cs
              = take (Z.to_nat batchSize) (drop (Z.to_nat i) cs)
                  ++ drop (Z.to_nat (i + batchSize)) cs) as Hsplit.
      { rewrite <- (take_drop (Z.to_nat batchSize) (drop (Z.to_nat i) cs)) at 1.
        f_equal. rewrite drop_drop. f_equal. lia. }
      remember (take (Z.to_nat batchSize) (drop (Z.to_nat i) cs)) as batch
        eqn:Hbatch.
      clear Hbatch. rewrite Hsplit.
      destruct (mapM exportOne batch) as [outcomes|] eqn:Hm; [|done].
      apply mapM_Some in Hm.
      destruct (BatchUtils.promiseAll outcomes) as [vs|e] eqn:Hp; [|done].
      apply promiseAll_fulfilled in Hp. subst outcomes.
      intros Hrun. apply IH in Hrun as (rest & -> & Hrest); [|lia].
      exists (vs ++ rest). split; [by rewrite app_assoc|].
      apply Forall2_app; [|done].
      rewrite map_fmap in Hm. by apply Forall2_fmap_r in Hm.
    + intros [= <-]. exists []. rewrite app_nil_r, drop_ge by lia. by split.
Qed.

Lemma exportChildren_rejected exportOne cs batchSize fuel :
  forall i acc e,
    exportChildren fuel exportOne cs batchSize i acc = Some (Rejected e) ->
    exists pi, pi ∈ cs /\ exportOne pi = Some (Rejected e).
Proof.
  induction fuel as [|fuel IH]; intros i acc e; simpl.
  - by destruct (i <? Z.of_nat (length cs)).
  - destruct (i <? Z.of_nat (length cs)); [|done].
    destruct (mapM exportOne (jsSlice cs i (i + batchSize)))
      as [outcomes|] eqn:Hm; [|done].
    apply mapM_Some in Hm.
    destruct (BatchUtils.promiseAll outcomes) as [vs|e'] eqn:Hp.
    + apply IH.
    + intros [= ->]. apply promiseAll_rejected in Hp.
      apply list_elem_of_lookup in Hp as [j Hj].
      destruct (Forall2_lookup_r _ _ _ _ _ Hm Hj) as (pi & Hpi & Hone).
      exists pi. split; [|done].
      apply (jsSlice_elem cs i (i + batchSize)).
      by eapply list_elem_of_lookup_2.
Qed.

Lemma exportChildren_ends exportOne cs batchSize :
  1 <= batchSize ->
  (forall pi, pi ∈ cs -> is_Some (exportOne pi)) ->
  forall fuel i acc,
    0 <= i -> Z.of_nat (length cs) <= i + Z.of_nat fuel ->
    is_Some (exportChildren fuel exportOne cs batchSize i acc).
Proof.
  intros Hbs Hall. induction fuel as [|fuel IH]; intros i acc Hi Hfuel; simpl.
  - destruct (i <? Z.of_nat (length cs)) eqn:E; [lia|]. by eexists.
  - destruct (i <? Z.of_nat (length cs)) eqn:E; [|by eexists].
    assert (is_Some (mapM exportOne (jsSlice cs i (i + batchSize))))
      as [outcomes ->].
    { apply mapM_is_Some. apply Forall_forall. intros pi Hpi.
      apply Hall. by eapply jsSlice_elem. }
    destruct (BatchUtils.promiseAll outcomes); [|by eexists].
    apply IH; lia.
Qed.

Lemma exportEntity_sound :
  1 <= parallelBatchSize options ->
  forall fuel pi d e,
    exportEntity fuel c options pi d = Some (Fulfilled e) ->
    depth e = d
    /\ forall n, n ∈ nodes e ->
         d <= depth n <= Z.max d (maxDepth options)
         /\ nodeOk options n /\ fromManifest c n.
Proof.
  intros Hbs. induction fuel as [|fuel IH]; intros pi d e.
  - simpl. destruct (fetchManifest c pi) as [manifest|err] eqn:Hman; [|done].
    destruct (TextUtilsMore.prepareDescription _ _) as [desc trunc].
    destruct (recursive options && _ && _); [done|].
    intros [= <-]. simpl. split; [done|].
    intros n Hn. apply list_elem_of_singleton in Hn. subst n. simpl.
    split; [lia|]. split; [done|]. exists pi, manifest. done.
  - simpl. destruct (fetchManifest c pi) as [manifest|err] eqn:Hman; [|done].
    destruct (TextUtilsMore.prepareDescription _ _) as [desc trunc].
    destruct (recursive options
              && (0 <? Z.of_nat (length (default [] (ArkeManifest.children_pi manifest))))
              && (d <? maxDepth options)) eqn:Hcond.
    + apply andb_prop in Hcond as [Hcond Hlt]. apply andb_prop in Hcond as [Hrec Hlen].
      apply Z.ltb_lt in Hlt, Hlen.
      destruct (exportChildren fuel _ _ _ 0 []) as [[children|err]|] eqn:Hch;
        [|done|done].
      intros [= <-].
      apply exportChildren_sound in Hch as (rest & -> & Hall); [|done|lia].
      change (Z.to_nat 0) with 0%nat in Hall. rewrite drop_0 in Hall.
      rewrite app_nil_l. split; [done|].
      assert (forall child, child ∈ rest ->
                depth child = d + 1
                /\ forall n, n ∈ nodes child ->
                     d + 1 <= depth n <= Z.max (d + 1) (maxDepth options)
                     /\ nodeOk options n /\ fromManifest c n) as Hkids.
      { intros child Hchild. apply list_elem_of_lookup in Hchild as [j Hj].
        destruct (Forall2_lookup_r _ _ _ _ _ Hall Hj) as (cp & _ & Hone).
        by apply IH in Hone. }
      intros n Hn. apply elem_of_cons in Hn as [->|Hn].
      * simpl. split; [lia|]. split; [|exists pi, manifest; done].
        unfold nodeOk. simpl. split; [done|]. split; [done|].
        pose proof (Forall2_length _ _ _ Hall) as Hl.
        split; [intros ->; simpl length in Hl; lia|]. split; [done|].
        apply Forall_forall. intros child Hchild. by apply Hkids.
      * apply list_elem_of_In, in_flat_map in Hn as (child & Hchild & Hn).
        apply list_elem_of_In in Hchild, Hn.
        destruct (Hkids child Hchild) as [_ Hnodes].
        destruct (Hnodes n Hn) as (Hd & Hok & Hfrom).
        split; [lia|done].
    + intros [= <-]. simpl. split; [done|].
      intros n Hn. apply list_elem_of_singleton in Hn. subst n. simpl.
      split; [lia|]. split; [done|]. exists pi, manifest. done.
Qed.

Lemma exportEntity_rejected :
  forall fuel pi d e,
    exportEntity fuel c options pi d = Some (Rejected e) ->
    exists requested, fetchManifest c requested = Rejected e.
Proof.
  induction fuel as [|fuel IH]; intros pi d e.
  - simpl. destruct (fetchManifest c pi) as [manifest|err] eqn:Hman.
    + destruct (TextUtilsMore.prepareDescription _ _) as [desc trunc].
      by destruct (recursive options && _ && _).
    + intros [= ->]. by exists pi.
  - simpl. destruct (fetchManifest c pi) as [manifest|err] eqn:Hman.
    + destruct (TextUtilsMore.prepareDescription _ _) as [desc trunc].
      destruct (recursive options && _ && _); [|done].
      destruct (exportChildren fuel _ _ _ 0 []) as [[children|err]|] eqn:Hch;
        [done| |done].
      intros [= ->].
      apply exportChildren_rejected in Hch as (child & _ & Hone).
      by apply IH in Hone.
    + intros [= ->]. by exists pi.
Qed.

Lemma fuel_for_all {A} (F : nat -> A -> Prop) (l : list A) :
  (forall x, x ∈ l -> exists N : nat, forall fuel, (N <= fuel)%nat -> F fuel x) ->
  exists N : nat, forall fuel, (N <= fuel)%nat -> forall x, x ∈ l -> F fuel x.
Proof.
  induction l as [|a l IH]; intros Hall.
  - exists 0%nat. intros fuel _ x Hx. inversion Hx.
  - destruct IH as [N1 HN1]; [intros x Hx; apply Hall; by right|].
    destruct (Hall a ltac:(by left)) as [N2 HN2].
    exists (N1 `max` N2)%nat. intros fuel Hf x Hx.
    apply elem_of_cons in Hx as [->|Hx]; [apply HN2; lia|apply HN1; [lia|done]].
Qed.

Lemma exportEntity_ends :
  1 <= parallelBatchSize options ->
  forall (k : nat) pi d,
    maxDepth options - d <= Z.of_nat k ->
    exists N : nat,
      forall fuel, (N <= fuel)%nat -> is_Some (exportEntity fuel c options pi d).
Proof.
  intros Hbs. induction k as [|k IH]; intros pi d Hk.
  - exists 0%nat. intros fuel _.
    destruct fuel; simpl;
      (destruct (fetchManifest c pi) as [manifest|err]; [|by eexists]);
      destruct (TextUtilsMore.prepareDescription _ _) as [desc trunc];
      (destruct (d <? maxDepth options) eqn:E; [apply Z.ltb_lt in E; lia|]);
      rewrite andb_false_r; by eexists.
  - destruct (fetchManifest c pi) as [manifest|err] eqn:Hman.
    2:{ exists 0%nat. intros fuel _. destruct fuel; simpl; rewrite Hman; by eexists. }
    destruct (fuel_for_all
                (fun fuel childPi =>
                   is_Some (exportEntity fuel c options childPi (d + 1)))
                (default [] (ArkeManifest.children_pi manifest))) as [N HN].
    { intros childPi _. apply IH. lia. }
    exists (S (N `max` length (default [] (ArkeManifest.children_pi manifest))))%nat.
    intros fuel Hf. destruct fuel as [|fuel]; [lia|]. simpl. rewrite Hman.
    destruct (TextUtilsMore.prepareDescription _ _) as [desc trunc].
    destruct (recursive options && _ && _); [|by eexists].
    destruct (exportChildren_ends
                (fun childPi => exportEntity fuel c options childPi (d + 1))
                (default [] (ArkeManifest.children_pi manifest))
                (parallelBatchSize options) Hbs) with (fuel := fuel) (i := 0)
                                                     (acc := @nil ExportedEntity)
      as [r ->]; [|lia|lia|].
    + intros childPi Hin. apply HN; [lia|done].
    + destruct r; by eexists.
Qed.

End TreeFacts.

(** X27. For a batch size of at least 1 the tree export ends, whatever the
    entities list as children, cycles included.  When it is fulfilled, the
    root is at depth 0 and every entity of the tree is at a depth between 0
    and [max(0, maxDepth)]; an entity has children in the tree only in a
    recursive export and below [maxDepth], and then as many as its
    [children_count], each one level further down. *)
Theorem tree_export_ends (c : PinaxExporter.Collaborators)
        (options : PinaxExporter.Options) (pi : string) :
  1 <= PinaxExporter.parallelBatchSize options ->
  exists N : nat,
    forall fuel, (N <= fuel)%nat ->
      exists outcome,
        PinaxExporter.export fuel c options pi = Some outcome
        /\ forall root,
             outcome = Fulfilled root ->
             PinaxExporter.depth root = 0
             /\ forall n,
                  n ∈ PinaxExporter.nodes root ->
                  0 <= PinaxExporter.depth n
                    <= Z.max 0 (PinaxExporter.maxDepth options)
                  /\ PinaxExporter.nodeOk options n.
Proof.
  intros Hbs.
  destruct (exportEntity_ends c options Hbs
              (Z.to_nat (PinaxExporter.maxDepth options)) pi 0) as [N HN]; [lia|].
  exists N. intros fuel Hf. unfold PinaxExporter.export.
  destruct (HN fuel Hf) as [outcome Hrun]. exists outcome. split; [done|].
  intros root ->.
  destruct (exportEntity_sound c options Hbs fuel pi 0 root Hrun) as [Hd Hnodes].
  split; [done|]. intros n Hn. destruct (Hnodes n Hn) as (Hb & Hok & _). done.
Qed.

Lemma tree_export_ends_witness :
  exists N : nat,
    forall fuel, (N <= fuel)%nat ->
      exists outcome,
        PinaxExporter.export fuel MoreSamples.cyclicCollaborators
          MoreSamples.treeOptions "R" = Some outcome
        /\ forall root,
             outcome = Fulfilled root ->
             PinaxExporter.depth root = 0
             /\ forall n,
                  n ∈ PinaxExporter.nodes root ->
                  0 <= PinaxExporter.depth n
                    <= Z.max 0 (PinaxExporter.maxDepth MoreSamples.treeOptions)
                  /\ PinaxExporter.nodeOk MoreSamples.treeOptions n.
Proof.
  apply (tree_export_ends MoreSamples.cyclicCollaborators MoreSamples.treeOptions "R").
  simpl. lia.
Defined.

(** X28. With the options as the constructor resolves them, no entity of an
    exported tree is deeper than 50, whatever [maxDepth] was asked for, and
    none is deeper than 10 when none was asked for. *)
Theorem tree_depth_capped (c : PinaxExporter.Collaborators)
        (recursive : option bool) (maxDepth maxTextLength : option Z)
        (parallelBatchSize : Z) (pi : string) :
  1 <= parallelBatchSize ->
  exists N : nat,
    forall fuel, (N <= fuel)%nat ->
      exists outcome,
        PinaxExporter.export fuel c
          (PinaxExporter.resolveOptions recursive maxDepth maxTextLength
             (Some parallelBatchSize)) pi = Some outcome
        /\ forall root n,
             outcome = Fulfilled root ->
             n ∈ PinaxExporter.nodes root ->
             PinaxExporter.depth n <= 50
             /\ (maxDepth = None -> PinaxExporter.depth n <= 10).
Proof.
  intros Hbs.
  set (options := PinaxExporter.resolveOptions recursive maxDepth maxTextLength
                    (Some parallelBatchSize)).
  destruct (exportEntity_ends c options Hbs
              (Z.to_nat (PinaxExporter.maxDepth options)) pi 0) as [N HN]; [lia|].
  exists N. intros fuel Hf. unfold PinaxExporter.export.
  destruct (HN fuel Hf) as [outcome Hrun]. exists outcome. split; [done|].
  intros root n -> Hn.
  destruct (exportEntity_sound c options Hbs fuel pi 0 root Hrun) as [_ Hnodes].
  destruct (Hnodes n Hn) as (Hb & _). simpl in Hb.
  split; [lia|]. intros ->. simpl in Hb. lia.
Qed.

Lemma tree_depth_capped_witness :
  exists N : nat,
    forall fuel, (N <= fuel)%nat ->
      exists outcome,
        PinaxExporter.export fuel MoreSamples.cyclicCollaborators
          (PinaxExporter.resolveOptions (Some true) (Some 80) None (Some 4)) "R"
        = Some outcome
        /\ forall root n,
             outcome = Fulfilled root ->
             n ∈ PinaxExporter.nodes root ->
             PinaxExporter.depth n <= 50
             /\ (Some 80 = None -> PinaxExporter.depth n <= 10).
Proof.
  apply (tree_depth_capped MoreSamples.cyclicCollaborators (Some true) (Some 80)
           None 4 "R").
  lia.
Defined.

(** X29. For a batch size of at least 1 the tree export ends, and: when it
    is fulfilled, every entity of the tree was built from a manifest that
    was fetched, carries that manifest's identifier, counts the children
    the manifest lists whether or not they were exported, and has the PINAX
    record of the manifest with the access URL of the identifier asked for;
    when it is rejected, the reason is that of a manifest fetch that was
    rejected, so one entity in reach that cannot be fetched fails the whole
    export. *)
Theorem tree_export_outcome (c : PinaxExporter.Collaborators)
        (options : PinaxExporter.Options) (pi : string) :
  1 <= PinaxExporter.parallelBatchSize options ->
  exists N : nat,
    forall fuel, (N <= fuel)%nat ->
      exists outcome,
        PinaxExporter.export fuel c options pi = Some outcome
        /\ (forall root n,
               outcome = Fulfilled root ->
               n ∈ PinaxExporter.nodes root ->
               PinaxExporter.fromManifest c n)
        /\ (forall e,
               outcome = Rejected e ->
               exists requested,
                 PinaxExporter.fetchManifest c requested = Rejected e)
        /\ (forall e,
               PinaxExporter.fetchManifest c pi = Rejected e ->
               outcome = Rejected e).
Proof.
  intros Hbs.
  destruct (exportEntity_ends c options Hbs
              (Z.to_nat (PinaxExporter.maxDepth options)) pi 0) as [N HN]; [lia|].
  exists N. intros fuel Hf. unfold PinaxExporter.export.
  destruct (HN fuel Hf) as [outcome Hrun]. exists outcome. split; [done|].
  split; [|split].
  - intros root n -> Hn.
    destruct (exportEntity_sound c options Hbs fuel pi 0 root Hrun) as [_ Hnodes].
    by destruct (Hnodes n Hn) as (_ & _ & Hfrom).
  - intros e ->. by eapply exportEntity_rejected.
  - intros e He. destruct fuel; simpl in Hrun; rewrite He in Hrun; congruence.
Qed.

Lemma tree_export_outcome_witness :
  exists N : nat,
    forall fuel, (N <= fuel)%nat ->
      exists outcome,
        PinaxExporter.export fuel MoreSamples.cyclicCollaborators
          MoreSamples.treeOptions "R" = Some outcome
        /\ (forall root n,
               outcome = Fulfilled root ->
               n ∈ PinaxExporter.nodes root ->
               PinaxExporter.fromManifest MoreSamples.cyclicCollaborators n)
        /\ (forall e,
               outcome = Rejected e ->
               exists requested,
                 PinaxExporter.fetchManifest MoreSamples.cyclicCollaborators requested
                 = Rejected e)
        /\ (forall e,
               PinaxExporter.fetchManifest MoreSamples.cyclicCollaborators "R"
               = Rejected e ->
               outcome = Rejected e).
Proof.
  apply (tree_export_outcome MoreSamples.cyclicCollaborators
           MoreSamples.treeOptions "R").
  simpl. lia.
Defined.

(** In the sample every entity lists itself and the root: the export ends
    with a tree of 15 entities, four levels deep. *)
Example sample_tree :
  option_map
    (fun outcome =>
       match outcome with
       | Fulfilled root =>
           Some (length (PinaxExporter.nodes root),
                 PinaxExporter.children_count root,
                 map PinaxExporter.depth
                     (default [] (PinaxExporter.children root)))
       | Rejected _ => None
       end)
    (PinaxExporter.export 10 MoreSamples.cyclicCollaborators
       MoreSamples.treeOptions "R")
  = Some (Some (15%nat, 2%nat, [1; 1])).
Proof. vm_compute. reflexivity. Qed.

(** ** The recursive export with a batch size that makes no progress *)

(** X30. With a batch size of 0 or less the recursive export never ends:
    the file is opened and the header written, and the batch loop of the
    first level never gets past the root, so that no number of iterations
    yields a summary. *)
Theorem exportRecursive_never_ends (w : RecursiveModsExporter.World)
        (wr : ModsCollectionWriter.t) (rootPI outputPath : string)
        (options : RecursiveOptions.t) (fuel : nat) :
  RecursiveOptions.parallelBatchSize options <= 0 ->
  RecursiveModsExporter.exportRecursive fuel w wr rootPI outputPath options = None
  /\ ModsCollectionWriter.open outputPath wr
     = (Fulfilled tt, TraversalSpec.openedWriter outputPath).
Proof.
  intros Hbs. unfold RecursiveModsExporter.exportRecursive.
  rewrite open_result. split; [|reflexivity].
  by rewrite traverseBFS_diverges.
Qed.

Lemma exportRecursive_never_ends_witness :
  RecursiveModsExporter.exportRecursive 1000 Samples.sampleWorld
    ModsCollectionWriter.new "R" "out.xml" MoreSamples.stuckOptions = None
  /\ ModsCollectionWriter.open "out.xml" ModsCollectionWriter.new
     = (Fulfilled tt, TraversalSpec.openedWriter "out.xml").
Proof.
  apply (exportRecursive_never_ends Samples.sampleWorld ModsCollectionWriter.new
           "R" "out.xml" MoreSamples.stuckOptions 1000).
  simpl. lia.
Defined.
